(** * Access Group condition transcoder, Access Group read and WAF rules
      data source of the Cloudflare Terraform provider

    A shallow embedding of
    - [BuildAccessGroupCondition], [TransformAccessGroupForSchema],
      [appendConditionalAccessGroupFields] and
      [resourceCloudflareAccessGroupRead] (resource_cloudflare_access_group),
    - [dataSourceCloudflareWAFRulesRead] and [expandFilterWAFRules]
      (data_source_waf_rules),
    followed by the properties of these functions. *)

From Stdlib Require Import String List Bool Arith Lia Permutation.
Import ListNotations.
Open Scope string_scope.
Open Scope list_scope.
Set Warnings "-register-all".

(* ================================================================= *)
(** ** Go values *)

(** The Access Group rule structs of cloudflare-go that
    [BuildAccessGroupCondition] builds, with the fields its struct
    literals fill in. *)
Inductive AccessGroupRule : Type :=
| AccessGroupEveryone
| AccessGroupAnyValidServiceToken
| AccessGroupCertificate
| AccessGroupCertificateCommonName (CommonName : string)
| AccessGroupAuthMethod (AuthMethod : string)
| AccessGroupGSuite (Email IdentityProviderID : string)
| AccessGroupGitHub (Name Team IdentityProviderID : string)
| AccessGroupAzure (ID IdentityProviderID : string)
| AccessGroupOkta (Name IdentityProviderID : string)
| AccessGroupSAML (AttributeName AttributeValue IdentityProviderID : string)
| AccessGroupExternalEvaluation (EvaluateURL KeysURL : string)
| AccessGroupEmail (Email : string)
| AccessGroupEmailDomain (Domain : string)
| AccessGroupIP (IP : string)
| AccessGroupServiceToken (ID : string)
| AccessGroupAccessGroup (ID : string)
| AccessGroupGeo (CountryCode : string)
| AccessGroupLoginMethod (ID : string)
| AccessGroupDevicePosture (ID : string).

(** What an [interface{}] holds in this code.  A [map[string]interface{}]
    is the list of its entries in the order a [range] statement visits
    them (Go leaves that order open, so the properties below are stated
    for every order); keys are looked up with [mapIndex]. *)
Inductive value : Type :=
| VNil
| VBool (b : bool)
| VString (s : string)
| VStrings (l : list string)
| VSlice (l : list value)
| VMap (m : list (string * value))
| VStruct (r : AccessGroupRule).

Definition gomap : Type := list (string * value).

(** A Go computation either returns or panics (a failed type assertion
    that nothing recovers). *)
Inductive outcome (A : Type) : Type :=
| Ret (a : A)
| Panic.
Arguments Ret {A} a.
Arguments Panic {A}.

Definition bind {A B : Type} (c : outcome A) (k : A -> outcome B) : outcome B :=
  match c with
  | Ret a => k a
  | Panic => Panic
  end.

Declare Scope go_scope.
Delimit Scope go_scope with go.
Notation "x <- c ;; k" := (bind c (fun x => k))
  (at level 61, c at next level, right associativity) : go_scope.
Open Scope go_scope.

(** [for _, x := range l { s = body(s, x) }] with a body that may panic. *)
Fixpoint forEach {A S : Type} (l : list A) (body : S -> A -> outcome S) (s : S)
  : outcome S :=
  match l with
  | [] => Ret s
  | x :: rest => s' <- body s x ;; forEach rest body s'
  end.

(** [m[k]] with its presence flag. *)
Fixpoint mapLookup (m : gomap) (k : string) : option value :=
  match m with
  | [] => None
  | (k', v) :: rest => if k' =? k then Some v else mapLookup rest k
  end.

(** [m[k]]: the nil interface when the key is absent. *)
Definition mapIndex (m : gomap) (k : string) : value :=
  match mapLookup m k with
  | Some v => v
  | None => VNil
  end.

(** Type assertions [v.(string)], [v.([]interface{})] and
    [v.(map[string]interface{})]. *)
Definition assertString (v : value) : outcome string :=
  match v with
  | VString s => Ret s
  | _ => Panic
  end.

Definition assertSlice (v : value) : outcome (list value) :=
  match v with
  | VSlice l => Ret l
  | _ => Panic
  end.

Definition assertMap (v : value) : outcome gomap :=
  match v with
  | VMap m => Ret m
  | _ => Panic
  end.

(** [v == true] and [v != ""] on an interface value. *)
Definition isTrue (v : value) : bool :=
  match v with
  | VBool true => true
  | _ => false
  end.

Definition isNotEmptyString (v : value) : bool :=
  match v with
  | VString s => negb (s =? "")
  | _ => true
  end.

Definition isNil (v : value) : bool :=
  match v with
  | VNil => true
  | _ => false
  end.

(* ================================================================= *)
(** ** BuildAccessGroupCondition *)

(** The body of the [switch accessGroupType] in the final [else] branch:
    one struct per value for the eight plain kinds, nothing for any other
    key (the element is then not asserted to be a string either). *)
Definition buildPlain (accessGroupType : string) (group : list value) (elem : value)
  : outcome (list value) :=
  if accessGroupType =? "email" then
    s <- assertString elem ;; Ret (group ++ [VStruct (AccessGroupEmail s)])
  else if accessGroupType =? "email_domain" then
    s <- assertString elem ;; Ret (group ++ [VStruct (AccessGroupEmailDomain s)])
  else if accessGroupType =? "ip" then
    s <- assertString elem ;; Ret (group ++ [VStruct (AccessGroupIP s)])
  else if accessGroupType =? "service_token" then
    s <- assertString elem ;; Ret (group ++ [VStruct (AccessGroupServiceToken s)])
  else if accessGroupType =? "group" then
    s <- assertString elem ;; Ret (group ++ [VStruct (AccessGroupAccessGroup s)])
  else if accessGroupType =? "geo" then
    s <- assertString elem ;; Ret (group ++ [VStruct (AccessGroupGeo s)])
  else if accessGroupType =? "login_method" then
    s <- assertString elem ;; Ret (group ++ [VStruct (AccessGroupLoginMethod s)])
  else if accessGroupType =? "device_posture" then
    s <- assertString elem ;; Ret (group ++ [VStruct (AccessGroupDevicePosture s)])
  else Ret group.

Definition buildGSuite (group : list value) (v : value) : outcome (list value) :=
  gsuiteCfg <- assertMap v ;;
  emails <- assertSlice (mapIndex gsuiteCfg "email") ;;
  forEach emails (fun group email =>
    e <- assertString email ;;
    idp <- assertString (mapIndex gsuiteCfg "identity_provider_id") ;;
    Ret (group ++ [VStruct (AccessGroupGSuite e idp)])) group.

Definition buildGitHub (group : list value) (v : value) : outcome (list value) :=
  githubCfg <- assertMap v ;;
  teams <- assertSlice (mapIndex githubCfg "teams") ;;
  if (0 <? List.length teams)%nat then
    forEach teams (fun group team =>
      name <- assertString (mapIndex githubCfg "name") ;;
      t <- assertString team ;;
      idp <- assertString (mapIndex githubCfg "identity_provider_id") ;;
      Ret (group ++ [VStruct (AccessGroupGitHub name t idp)])) group
  else
    name <- assertString (mapIndex githubCfg "name") ;;
    idp <- assertString (mapIndex githubCfg "identity_provider_id") ;;
    Ret (group ++ [VStruct (AccessGroupGitHub name "" idp)]).

Definition buildAzure (group : list value) (v : value) : outcome (list value) :=
  azureCfg <- assertMap v ;;
  ids <- assertSlice (mapIndex azureCfg "id") ;;
  forEach ids (fun group id =>
    i <- assertString id ;;
    idp <- assertString (mapIndex azureCfg "identity_provider_id") ;;
    Ret (group ++ [VStruct (AccessGroupAzure i idp)])) group.

Definition buildOkta (group : list value) (v : value) : outcome (list value) :=
  oktaCfg <- assertMap v ;;
  names <- assertSlice (mapIndex oktaCfg "name") ;;
  forEach names (fun group name =>
    n <- assertString name ;;
    idp <- assertString (mapIndex oktaCfg "identity_provider_id") ;;
    Ret (group ++ [VStruct (AccessGroupOkta n idp)])) group.

Definition buildSAML (group : list value) (v : value) : outcome (list value) :=
  samlCfg <- assertMap v ;;
  an <- assertString (mapIndex samlCfg "attribute_name") ;;
  av <- assertString (mapIndex samlCfg "attribute_value") ;;
  idp <- assertString (mapIndex samlCfg "identity_provider_id") ;;
  Ret (group ++ [VStruct (AccessGroupSAML an av idp)]).

Definition buildExternalEvaluation (group : list value) (v : value)
  : outcome (list value) :=
  eeCfg <- assertMap v ;;
  eu <- assertString (mapIndex eeCfg "evaluate_url") ;;
  ku <- assertString (mapIndex eeCfg "keys_url") ;;
  Ret (group ++ [VStruct (AccessGroupExternalEvaluation eu ku)]).

(** One iteration of [for accessGroupType, values := range options]. *)
Definition buildCondition (group : list value) (entry : string * value)
  : outcome (list value) :=
  let '(accessGroupType, values) := entry in
  if accessGroupType =? "everyone" then
    if isTrue values then Ret (group ++ [VStruct AccessGroupEveryone]) else Ret group
  else if accessGroupType =? "any_valid_service_token" then
    if isTrue values then Ret (group ++ [VStruct AccessGroupAnyValidServiceToken])
    else Ret group
  else if accessGroupType =? "certificate" then
    if isTrue values then Ret (group ++ [VStruct AccessGroupCertificate]) else Ret group
  else if accessGroupType =? "common_name" then
    if isNotEmptyString values then
      s <- assertString values ;;
      Ret (group ++ [VStruct (AccessGroupCertificateCommonName s)])
    else Ret group
  else if accessGroupType =? "auth_method" then
    if isNotEmptyString values then
      s <- assertString values ;;
      Ret (group ++ [VStruct (AccessGroupAuthMethod s)])
    else Ret group
  else if accessGroupType =? "gsuite" then
    l <- assertSlice values ;; forEach l buildGSuite group
  else if accessGroupType =? "github" then
    l <- assertSlice values ;; forEach l buildGitHub group
  else if accessGroupType =? "azure" then
    l <- assertSlice values ;; forEach l buildAzure group
  else if accessGroupType =? "okta" then
    l <- assertSlice values ;; forEach l buildOkta group
  else if accessGroupType =? "saml" then
    l <- assertSlice values ;; forEach l buildSAML group
  else if accessGroupType =? "external_evaluation" then
    l <- assertSlice values ;; forEach l buildExternalEvaluation group
  else
    l <- assertSlice values ;; forEach l (buildPlain accessGroupType) group.

Definition BuildAccessGroupCondition (options : gomap) : outcome (list value) :=
  forEach options buildCondition [].

(* ================================================================= *)
(** ** TransformAccessGroupForSchema *)

(** The local variables of [TransformAccessGroupForSchema]. *)
Record locals : Type := {
  data : list gomap;
  emails : list string;
  emailDomains : list string;
  ips : list string;
  serviceTokens : list string;
  groups : list string;
  commonName : string;
  authMethod : string;
  geos : list string;
  loginMethod : list string;
  oktaID : string;
  oktaGroups : list string;
  gsuiteID : string;
  gsuiteEmails : list string;
  githubName : string;
  githubTeams : list string;
  githubID : string;
  azureID : string;
  azureIDs : list string;
  samlAttrName : string;
  samlAttrValue : string;
  externalEvaluationURL : string;
  externalEvaluationKeysURL : string;
  devicePostureRuleIDs : list string
}.

(** Their values before the scan. *)
Definition initialLocals : locals :=
  {| data := []; emails := []; emailDomains := []; ips := [];
     serviceTokens := []; groups := []; commonName := ""; authMethod := "";
     geos := []; loginMethod := []; oktaID := ""; oktaGroups := [];
     gsuiteID := ""; gsuiteEmails := []; githubName := ""; githubTeams := [];
     githubID := ""; azureID := ""; azureIDs := []; samlAttrName := "";
     samlAttrValue := ""; externalEvaluationURL := "";
     externalEvaluationKeysURL := ""; devicePostureRuleIDs := [] |}.

(** Assignment to one local variable: [assign proj] builds the function
    that rewrites the variable read by [proj] and keeps all others. *)
Ltac assign proj :=
  let f := fresh "f" in
  let a := fresh "a" in
  intros f a;
  let whole := constr:(
    Build_locals (data a) (emails a) (emailDomains a) (ips a) (serviceTokens a)
      (groups a) (commonName a) (authMethod a) (geos a) (loginMethod a)
      (oktaID a) (oktaGroups a) (gsuiteID a) (gsuiteEmails a) (githubName a)
      (githubTeams a) (githubID a) (azureID a) (azureIDs a) (samlAttrName a)
      (samlAttrValue a) (externalEvaluationURL a) (externalEvaluationKeysURL a)
      (devicePostureRuleIDs a)) in
  match eval pattern (proj a) in whole with
  | ?g _ => let t := eval cbv beta in (g (f (proj a))) in exact t
  end.

Definition set_data : (list gomap -> list gomap) -> locals -> locals.
Proof. assign data. Defined.
Definition set_emails : (list string -> list string) -> locals -> locals.
Proof. assign emails. Defined.
Definition set_emailDomains : (list string -> list string) -> locals -> locals.
Proof. assign emailDomains. Defined.
Definition set_ips : (list string -> list string) -> locals -> locals.
Proof. assign ips. Defined.
Definition set_serviceTokens : (list string -> list string) -> locals -> locals.
Proof. assign serviceTokens. Defined.
Definition set_groups : (list string -> list string) -> locals -> locals.
Proof. assign groups. Defined.
Definition set_commonName : (string -> string) -> locals -> locals.
Proof. assign commonName. Defined.
Definition set_authMethod : (string -> string) -> locals -> locals.
Proof. assign authMethod. Defined.
Definition set_geos : (list string -> list string) -> locals -> locals.
Proof. assign geos. Defined.
Definition set_loginMethod : (list string -> list string) -> locals -> locals.
Proof. assign loginMethod. Defined.
Definition set_oktaID : (string -> string) -> locals -> locals.
Proof. assign oktaID. Defined.
Definition set_oktaGroups : (list string -> list string) -> locals -> locals.
Proof. assign oktaGroups. Defined.
Definition set_gsuiteID : (string -> string) -> locals -> locals.
Proof. assign gsuiteID. Defined.
Definition set_gsuiteEmails : (list string -> list string) -> locals -> locals.
Proof. assign gsuiteEmails. Defined.
Definition set_githubName : (string -> string) -> locals -> locals.
Proof. assign githubName. Defined.
Definition set_githubTeams : (list string -> list string) -> locals -> locals.
Proof. assign githubTeams. Defined.
Definition set_githubID : (string -> string) -> locals -> locals.
Proof. assign githubID. Defined.
Definition set_azureID : (string -> string) -> locals -> locals.
Proof. assign azureID. Defined.
Definition set_azureIDs : (list string -> list string) -> locals -> locals.
Proof. assign azureIDs. Defined.
Definition set_samlAttrName : (string -> string) -> locals -> locals.
Proof. assign samlAttrName. Defined.
Definition set_samlAttrValue : (string -> string) -> locals -> locals.
Proof. assign samlAttrValue. Defined.
Definition set_externalEvaluationURL : (string -> string) -> locals -> locals.
Proof. assign externalEvaluationURL. Defined.
Definition set_externalEvaluationKeysURL : (string -> string) -> locals -> locals.
Proof. assign externalEvaluationKeysURL. Defined.
Definition set_devicePostureRuleIDs : (list string -> list string) -> locals -> locals.
Proof. assign devicePostureRuleIDs. Defined.

(** [for _, x := range m { l = append(l, x.(string)) }] *)
Definition appendStrings (m : gomap) (l : list string) : outcome (list string) :=
  forEach m (fun l e => s <- assertString (snd e) ;; Ret (l ++ [s])) l.

(** [for _, x := range m { s = x.(string) }] *)
Definition assignStrings (m : gomap) (s : string) : outcome string :=
  forEach m (fun _ e => assertString (snd e)) s.

Definition isFlagKey (groupKey : string) : bool :=
  (groupKey =? "everyone") || (groupKey =? "any_valid_service_token")
  || (groupKey =? "certificate").

(** One iteration of [for groupKey, groupValue := range group]: the
    [switch groupKey]. *)
Definition scanEntry (a : locals) (entry : string * value) : outcome locals :=
  let '(groupKey, groupValue) := entry in
  if isFlagKey groupKey then
    Ret (set_data (fun d => d ++ [[(groupKey, VBool true)]]) a)
  else if groupKey =? "email" then
    m <- assertMap groupValue ;; l <- appendStrings m (emails a) ;;
    Ret (set_emails (fun _ => l) a)
  else if groupKey =? "email_domain" then
    m <- assertMap groupValue ;; l <- appendStrings m (emailDomains a) ;;
    Ret (set_emailDomains (fun _ => l) a)
  else if groupKey =? "ip" then
    m <- assertMap groupValue ;; l <- appendStrings m (ips a) ;;
    Ret (set_ips (fun _ => l) a)
  else if groupKey =? "service_token" then
    m <- assertMap groupValue ;; l <- appendStrings m (serviceTokens a) ;;
    Ret (set_serviceTokens (fun _ => l) a)
  else if groupKey =? "common_name" then
    m <- assertMap groupValue ;; s <- assignStrings m (commonName a) ;;
    Ret (set_commonName (fun _ => s) a)
  else if groupKey =? "auth_method" then
    m <- assertMap groupValue ;; s <- assignStrings m (authMethod a) ;;
    Ret (set_authMethod (fun _ => s) a)
  else if groupKey =? "geo" then
    m <- assertMap groupValue ;; l <- appendStrings m (geos a) ;;
    Ret (set_geos (fun _ => l) a)
  else if groupKey =? "login_method" then
    m <- assertMap groupValue ;; l <- appendStrings m (loginMethod a) ;;
    Ret (set_loginMethod (fun _ => l) a)
  else if groupKey =? "okta" then
    oktaCfg <- assertMap groupValue ;;
    id <- assertString (mapIndex oktaCfg "identity_provider_id") ;;
    name <- assertString (mapIndex oktaCfg "name") ;;
    Ret (set_oktaGroups (fun l => l ++ [name]) (set_oktaID (fun _ => id) a))
  else if groupKey =? "gsuite" then
    gsuiteCfg <- assertMap groupValue ;;
    id <- assertString (mapIndex gsuiteCfg "identity_provider_id") ;;
    email <- assertString (mapIndex gsuiteCfg "email") ;;
    Ret (set_gsuiteEmails (fun l => l ++ [email]) (set_gsuiteID (fun _ => id) a))
  else if groupKey =? "github-organization" then
    githubCfg <- assertMap groupValue ;;
    id <- assertString (mapIndex githubCfg "identity_provider_id") ;;
    name <- assertString (mapIndex githubCfg "name") ;;
    let a := set_githubName (fun _ => name) (set_githubID (fun _ => id) a) in
    match mapLookup githubCfg "team" with
    | Some v => t <- assertString v ;; Ret (set_githubTeams (fun l => l ++ [t]) a)
    | None => Ret a
    end
  else if groupKey =? "azureAD" then
    azureCfg <- assertMap groupValue ;;
    idp <- assertString (mapIndex azureCfg "identity_provider_id") ;;
    id <- assertString (mapIndex azureCfg "id") ;;
    Ret (set_azureIDs (fun l => l ++ [id]) (set_azureID (fun _ => idp) a))
  else if groupKey =? "saml" then
    samlCfg <- assertMap groupValue ;;
    an <- assertString (mapIndex samlCfg "attribute_name") ;;
    av <- assertString (mapIndex samlCfg "attribute_value") ;;
    Ret (set_samlAttrValue (fun _ => av) (set_samlAttrName (fun _ => an) a))
  else if groupKey =? "external_evaluation" then
    eeCfg <- assertMap groupValue ;;
    eu <- assertString (mapIndex eeCfg "evaluate_url") ;;
    ku <- assertString (mapIndex eeCfg "keys_url") ;;
    Ret (set_externalEvaluationKeysURL (fun _ => ku)
           (set_externalEvaluationURL (fun _ => eu) a))
  else if groupKey =? "group" then
    m <- assertMap groupValue ;; l <- appendStrings m (groups a) ;;
    Ret (set_groups (fun _ => l) a)
  else if groupKey =? "device_posture" then
    m <- assertMap groupValue ;; l <- appendStrings m (devicePostureRuleIDs a) ;;
    Ret (set_devicePostureRuleIDs (fun _ => l) a)
  else Ret a.

(** One iteration of [for _, group := range accessGroup]. *)
Definition scanGroup (a : locals) (group : value) : outcome locals :=
  m <- assertMap group ;; forEach m scanEntry a.

(** The scanning loop (source lines 616-694). *)
Definition scan (accessGroup : list value) : outcome locals :=
  forEach accessGroup scanGroup initialLocals.

(** [if cond { data = append(data, entry) }] *)
Definition appendIf (cond : bool) (entry : gomap) (data : list gomap) : list gomap :=
  if cond then data ++ [entry] else data.

Definition nonEmpty (s : string) : bool := negb (s =? "").

(** The post-pass (source lines 696-817). *)
Definition emit (a : locals) : list gomap :=
  let data := data a in
  let data := appendIf (0 <? List.length (emails a))%nat
                [("email", VStrings (emails a))] data in
  let data := appendIf (0 <? List.length (emailDomains a))%nat
                [("email_domain", VStrings (emailDomains a))] data in
  let data := appendIf (0 <? List.length (ips a))%nat [("ip", VStrings (ips a))] data in
  let data := appendIf (0 <? List.length (serviceTokens a))%nat
                [("service_token", VStrings (serviceTokens a))] data in
  let data := appendIf (nonEmpty (commonName a))
                [("common_name", VString (commonName a))] data in
  let data := appendIf (nonEmpty (authMethod a))
                [("auth_method", VString (authMethod a))] data in
  let data := appendIf (0 <? List.length (geos a))%nat [("geo", VStrings (geos a))] data in
  let data := appendIf (0 <? List.length (loginMethod a))%nat
                [("login_method", VStrings (loginMethod a))] data in
  let data := appendIf ((0 <? List.length (oktaGroups a))%nat && nonEmpty (oktaID a))
                [("okta", VSlice [VMap [("identity_provider_id", VString (oktaID a));
                                        ("name", VStrings (oktaGroups a))]])] data in
  let data := appendIf ((0 <? List.length (gsuiteEmails a))%nat && nonEmpty (gsuiteID a))
                [("gsuite", VSlice [VMap [("identity_provider_id", VString (gsuiteID a));
                                          ("email", VStrings (gsuiteEmails a))]])] data in
  let data := appendIf (nonEmpty (githubID a) && nonEmpty (githubName a))
                [("github", VSlice [VMap [("name", VString (githubName a));
                                          ("teams", VStrings (githubTeams a));
                                          ("identity_provider_id", VString (githubID a))]])]
                data in
  let data := appendIf ((0 <? List.length (azureIDs a))%nat && nonEmpty (azureID a))
                [("azure", VSlice [VMap [("identity_provider_id", VString (azureID a));
                                         ("id", VStrings (azureIDs a))]])] data in
  let data := appendIf (nonEmpty (samlAttrName a) && nonEmpty (samlAttrValue a))
                [("saml", VSlice [VMap [("attribute_name", VString (samlAttrName a));
                                        ("attribute_value", VString (samlAttrValue a))]])]
                data in
  let data := appendIf (nonEmpty (externalEvaluationURL a)
                        && nonEmpty (externalEvaluationKeysURL a))
                [("external_evaluation",
                  VSlice [VMap [("evaluate_url", VString (externalEvaluationURL a));
                                ("keys_url", VString (externalEvaluationKeysURL a))]])]
                data in
  let data := appendIf (0 <? List.length (groups a))%nat [("group", VStrings (groups a))] data in
  let data := appendIf (0 <? List.length (devicePostureRuleIDs a))%nat
                [("device_posture", VStrings (devicePostureRuleIDs a))] data in
  data.

Definition TransformAccessGroupForSchema (accessGroup : list value)
  : outcome (list gomap) :=
  a <- scan accessGroup ;; Ret (emit a).

(* ================================================================= *)
(** ** The API's representation of a rule *)

(** Modelled from the spec: the JSON object the remote API holds for a rule
    struct, decoded into [interface{}] the way the client fills
    [AccessGroup.Include], [Exclude] and [Require].  The inner keys are the
    json tags written in the struct literals of [BuildAccessGroupCondition]
    (source lines 446-579, with [omitempty] on the GitHub team).  The outer
    key is the tag of the struct's only field, declared in cloudflare-go and
    not in this repository; it is the key [TransformAccessGroupForSchema]
    switches on for that rule (source lines 618-689). *)
Definition ruleJSON (r : AccessGroupRule) : value :=
  match r with
  | AccessGroupEveryone => VMap [("everyone", VMap [])]
  | AccessGroupAnyValidServiceToken => VMap [("any_valid_service_token", VMap [])]
  | AccessGroupCertificate => VMap [("certificate", VMap [])]
  | AccessGroupCertificateCommonName cn =>
      VMap [("common_name", VMap [("common_name", VString cn)])]
  | AccessGroupAuthMethod am =>
      VMap [("auth_method", VMap [("auth_method", VString am)])]
  | AccessGroupGSuite e idp =>
      VMap [("gsuite", VMap [("email", VString e);
                             ("identity_provider_id", VString idp)])]
  | AccessGroupGitHub n t idp =>
      VMap [("github-organization",
             VMap ([("name", VString n)]
                   ++ (if t =? "" then [] else [("team", VString t)])
                   ++ [("identity_provider_id", VString idp)]))]
  | AccessGroupAzure i idp =>
      VMap [("azureAD", VMap [("id", VString i);
                              ("identity_provider_id", VString idp)])]
  | AccessGroupOkta n idp =>
      VMap [("okta", VMap [("name", VString n);
                           ("identity_provider_id", VString idp)])]
  | AccessGroupSAML an av idp =>
      VMap [("saml", VMap [("attribute_name", VString an);
                           ("attribute_value", VString av);
                           ("identity_provider_id", VString idp)])]
  | AccessGroupExternalEvaluation eu ku =>
      VMap [("external_evaluation", VMap [("evaluate_url", VString eu);
                                          ("keys_url", VString ku)])]
  | AccessGroupEmail e => VMap [("email", VMap [("email", VString e)])]
  | AccessGroupEmailDomain d => VMap [("email_domain", VMap [("domain", VString d)])]
  | AccessGroupIP i => VMap [("ip", VMap [("ip", VString i)])]
  | AccessGroupServiceToken i => VMap [("service_token", VMap [("token_id", VString i)])]
  | AccessGroupAccessGroup i => VMap [("group", VMap [("id", VString i)])]
  | AccessGroupGeo c => VMap [("geo", VMap [("country_code", VString c)])]
  | AccessGroupLoginMethod i => VMap [("login_method", VMap [("id", VString i)])]
  | AccessGroupDevicePosture i =>
      VMap [("device_posture", VMap [("integration_uid", VString i)])]
  end.

(** A condition list as it comes back from the API after it was sent:
    every rule struct has become its decoded JSON object. *)
Definition viaAPI (conditions : list value) : list value :=
  map (fun v => match v with VStruct r => ruleJSON r | _ => v end) conditions.

(** Build, send, read back, transform. *)
Definition roundTrip (options : gomap) : outcome (list gomap) :=
  conditions <- BuildAccessGroupCondition options ;;
  TransformAccessGroupForSchema (viaAPI conditions).

(** The same computation without the API in between: the output of
    [BuildAccessGroupCondition] handed to [TransformAccessGroupForSchema]
    as it is. *)
Definition roundTripDirect (options : gomap) : outcome (list gomap) :=
  conditions <- BuildAccessGroupCondition options ;;
  TransformAccessGroupForSchema conditions.

(* ================================================================= *)
(** ** Equality of schema values *)

Definition rule_eq_dec (x y : AccessGroupRule) : {x = y} + {x <> y}.
Proof. decide equality; apply string_dec. Defined.

(** Terraform stores a [[]string] and a [[]interface{}] of strings as the
    same list value. *)
Fixpoint schemaValue (v : value) : value :=
  match v with
  | VStrings l => VSlice (map VString l)
  | VSlice l => VSlice (map schemaValue l)
  | VMap m => VMap (map (fun e => (fst e, schemaValue (snd e))) m)
  | _ => v
  end.

(** Equality of values in which a map is compared by its keys, not by the
    order of its entries. *)
Fixpoint valueEqb (x y : value) {struct x} : bool :=
  match x, y with
  | VNil, VNil => true
  | VBool a, VBool b => Bool.eqb a b
  | VString a, VString b => a =? b
  | VStrings a, VStrings b => if list_eq_dec string_dec a b then true else false
  | VSlice a, VSlice b =>
      (fix each (a b : list value) : bool :=
         match a, b with
         | [], [] => true
         | u :: a', w :: b' => valueEqb u w && each a' b'
         | _, _ => false
         end) a b
  | VMap a, VMap b =>
      (List.length a =? List.length b)%nat &&
      (fix each (a : list (string * value)) : bool :=
         match a with
         | [] => true
         | (k, u) :: a' =>
             match mapLookup b k with
             | Some w => valueEqb u w
             | None => false
             end && each a'
         end) a
  | VStruct a, VStruct b => if rule_eq_dec a b then true else false
  | _, _ => false
  end.

Definition sameSchema (x y : list gomap) : bool :=
  valueEqb (schemaValue (VSlice (map VMap x))) (schemaValue (VSlice (map VMap y))).

(* ================================================================= *)
(** ** Errors, API replies and resource data *)

(** A Go [error]: a plain one with its message, or the result of
    [fmt.Errorf(format, args..., err)] whose format ends in [%w]. *)
Inductive goerror : Type :=
| errorString (msg : string)
| wrapError (format : string) (args : list string) (err : goerror).

(** The pair [(result, err)] a client method returns. *)
Inductive reply (A : Type) : Type :=
| OK (a : A)
| Err (e : goerror).
Arguments OK {A} a.
Arguments Err {A} e.

(** [strings.Contains(s, substr)] *)
Fixpoint stringsContains (s substr : string) : bool :=
  if String.prefix substr s then true
  else match s with
       | EmptyString => false
       | String _ rest => stringsContains rest substr
       end.

(** [*schema.ResourceData] as this code uses it: its ID and what [d.Get]
    returns for a key. *)
Record ResourceData : Type := {
  Id : string;
  Get : string -> value
}.

Definition SetId (id : string) (d : ResourceData) : ResourceData :=
  {| Id := id; Get := Get d |}.

Module AccessGroup.
(** The fields of [cloudflare.AccessGroup] this code reads and writes. *)
Record t : Type := {
  ID : string;
  Name : string;
  Include : list value;
  Exclude : list value;
  Require : list value
}.
Definition withExclude (c : list value) (g : t) : t :=
  {| ID := ID g; Name := Name g; Include := Include g; Exclude := c;
     Require := Require g |}.
Definition withRequire (c : list value) (g : t) : t :=
  {| ID := ID g; Name := Name g; Include := Include g; Exclude := Exclude g;
     Require := c |}.
Definition withInclude (c : list value) (g : t) : t :=
  {| ID := ID g; Name := Name g; Include := c; Exclude := Exclude g;
     Require := Require g |}.
End AccessGroup.

(* ================================================================= *)
(** ** appendConditionalAccessGroupFields *)

(** The body of the three loops: [if value != nil { field = Build(value.(map)) }],
    with [assignField] the assignment to the field. *)
Definition assignCondition
    (assignField : list value -> AccessGroup.t -> AccessGroup.t)
    (group : AccessGroup.t) (v : value) : outcome AccessGroup.t :=
  if isNil v then Ret group
  else
    options <- assertMap v ;;
    conditions <- BuildAccessGroupCondition options ;;
    Ret (assignField conditions group).

Definition appendConditionalAccessGroupFields (group : AccessGroup.t) (d : ResourceData)
  : outcome AccessGroup.t :=
  exclude <- assertSlice (Get d "exclude") ;;
  group <- forEach exclude (assignCondition AccessGroup.withExclude) group ;;
  require <- assertSlice (Get d "require") ;;
  group <- forEach require (assignCondition AccessGroup.withRequire) group ;;
  include <- assertSlice (Get d "include") ;;
  forEach include (assignCondition AccessGroup.withInclude) group.

(* ================================================================= *)
(** ** WAF data *)

Module WAFPackage.
Record t : Type := { ID : string }.
End WAFPackage.

Module WAFRule.
(** [cloudflare.WAFRule]; [GroupID] and [GroupName] are [Group.ID] and
    [Group.Name]. *)
Record t : Type := {
  ID : string;
  Description : string;
  Priority : string;
  Mode : string;
  GroupID : string;
  GroupName : string;
  AllowedModes : list string;
  DefaultMode : string
}.
End WAFRule.

Inductive IdentifierType : Type := AccountType | ZoneType.

(** The access identifier [initIdentifier] resolves. *)
Record AccessIdentifier : Type := {
  Type_ : IdentifierType;
  Value : string
}.

Section Provider.

(** *** What the provider gets from outside *)

(** [fmt.Sprintf] *)
Variable Sprintf : string -> list string -> string.

(** The schema-checked [d.Set] of the Terraform SDK. *)
Variable dSet : string -> value -> ResourceData -> ResourceData * option goerror.

(** [initIdentifier] is defined elsewhere in the provider and is taken as
    given: it resolves the account or zone the resource is scoped to, or
    fails. *)
Variable initIdentifier : ResourceData -> reply AccessIdentifier.

(** [stringListChecksum] is defined elsewhere in the provider and is taken
    as given: it derives the synthetic ID from the rule IDs. *)
Variable stringListChecksum : list string -> string.

(** [*regexp.Regexp] with [regexp.Compile] and [Match]. *)
Context {Regexp : Type}.
Variable regexpCompile : string -> reply Regexp.
Variable regexpMatch : Regexp -> string -> bool.

(** The methods of [*cloudflare.API] these functions call. *)
Record API : Type := {
  clientAccessGroup : string -> string -> reply AccessGroup.t;
  clientZoneLevelAccessGroup : string -> string -> reply AccessGroup.t;
  clientListWAFPackages : string -> reply (list WAFPackage.t);
  clientListWAFRules : string -> string -> reply (list WAFRule.t)
}.

(** [err.Error()] *)
Fixpoint errorText (e : goerror) : string :=
  match e with
  | errorString msg => msg
  | wrapError format args err => Sprintf format (args ++ [errorText err])
  end.

(** *** resourceCloudflareAccessGroupRead *)

(** The value [d.Set] receives for a transformed condition list. *)
Definition schemaBlocks (blocks : list gomap) : value := VSlice (map VMap blocks).

(** [if err := d.Set(key, Transform(conditions)); err != nil { return ... }]:
    the data after the write and the diagnostics to return, if any. *)
Definition setConditions (key format : string) (conditions : list value)
    (d : ResourceData) : outcome (ResourceData * option goerror) :=
  blocks <- TransformAccessGroupForSchema conditions ;;
  match dSet key (schemaBlocks blocks) d with
  | (d', Some err) => Ret (d', Some (wrapError format [] err))
  | (d', None) => Ret (d', None)
  end.

(** The function returns the resource data as it leaves it and its
    diagnostics ([None] for [nil]). *)
Definition resourceCloudflareAccessGroupRead (client : API) (d : ResourceData)
  : outcome (ResourceData * option goerror) :=
  match initIdentifier d with
  | Err err => Ret (d, Some err)
  | OK identifier =>
      let answer :=
        match Type_ identifier with
        | AccountType => clientAccessGroup client (Value identifier) (Id d)
        | ZoneType => clientZoneLevelAccessGroup client (Value identifier) (Id d)
        end in
      match answer with
      | Err err =>
          if stringsContains (errorText err) "HTTP status 404" then
            Ret (SetId "" d, None)
          else
            Ret (d, Some (wrapError "error finding Access Group %q: %w" [Id d] err))
      | OK accessGroup =>
          let d := fst (dSet "name" (VString (AccessGroup.Name accessGroup)) d) in
          r <- setConditions "require" "failed to set require attribute: %w"
                 (AccessGroup.Require accessGroup) d ;;
          match r with
          | (d, Some err) => Ret (d, Some err)
          | (d, None) =>
              r <- setConditions "exclude" "failed to set exclude attribute: %w"
                     (AccessGroup.Exclude accessGroup) d ;;
              match r with
              | (d, Some err) => Ret (d, Some err)
              | (d, None) =>
                  setConditions "include" "failed to set include attribute: %w"
                    (AccessGroup.Include accessGroup) d
              end
          end
      end
  end.

(** *** expandFilterWAFRules *)

Record searchFilterWAFRules : Type := {
  filterDescription : option Regexp;
  filterMode : string;
  filterGroupID : string
}.

Definition emptyFilter : searchFilterWAFRules :=
  {| filterDescription := None; filterMode := ""; filterGroupID := "" |}.

Definition expandFilterWAFRules (d : value) : outcome (reply searchFilterWAFRules) :=
  cfg <- assertSlice d ;;
  match cfg with
  | [] => Ret (OK emptyFilter)
  | first :: _ =>
      if isNil first then Ret (OK emptyFilter)
      else
        m <- assertMap first ;;
        compiled <-
          match mapLookup m "description" with
          | Some description =>
              s <- assertString description ;;
              match regexpCompile s with
              | Err err => Ret (Err err)
              | OK re => Ret (OK (Some re))
              end
          | None => Ret (OK None)
          end ;;
        match compiled with
        | Err err => Ret (Err err)
        | OK description =>
            mode <- match mapLookup m "mode" with
                    | Some mode => assertString mode
                    | None => Ret ""
                    end ;;
            groupID <- match mapLookup m "group_id" with
                       | Some groupID => assertString groupID
                       | None => Ret ""
                       end ;;
            Ret (OK {| filterDescription := description; filterMode := mode;
                       filterGroupID := groupID |})
        end
  end.

(** *** dataSourceCloudflareWAFRulesRead *)

(** The variables of the listing loop, and the package IDs passed to
    [ListWAFRules] so far (kept to state which packages were queried). *)
Record listing : Type := {
  ruleIds : list string;
  ruleDetails : list value;
  queried : list string
}.

Definition ruleDetail (pkg : WAFPackage.t) (rule : WAFRule.t) : value :=
  VMap [("id", VString (WAFRule.ID rule));
        ("description", VString (WAFRule.Description rule));
        ("priority", VString (WAFRule.Priority rule));
        ("mode", VString (WAFRule.Mode rule));
        ("group_id", VString (WAFRule.GroupID rule));
        ("group_name", VString (WAFRule.GroupName rule));
        ("package_id", VString (WAFPackage.ID pkg));
        ("allowed_modes", VStrings (WAFRule.AllowedModes rule));
        ("default_mode", VString (WAFRule.DefaultMode rule))].

(** One iteration of [for _, rule := range ruleList]; the state is
    [foundGroup] and the two result slices. *)
Definition scanRule (filter : searchFilterWAFRules) (pkg : WAFPackage.t)
    (st : bool * listing) (rule : WAFRule.t) : bool * listing :=
  let '(foundGroup, l) := st in
  if negb (filterGroupID filter =? "")
     && negb (filterGroupID filter =? WAFRule.GroupID rule)
  then (foundGroup, l)
  else
    let foundGroup :=
      if negb (filterGroupID filter =? "") then true else foundGroup in
    if match filterDescription filter with
       | Some re => negb (regexpMatch re (WAFRule.Description rule))
       | None => false
       end
    then (foundGroup, l)
    else if negb (filterMode filter =? "")
            && negb (filterMode filter =? WAFRule.Mode rule)
    then (foundGroup, l)
    else
      (foundGroup,
       {| ruleIds := ruleIds l ++ [WAFRule.ID rule];
          ruleDetails := ruleDetails l ++ [ruleDetail pkg rule];
          queried := queried l |}).

(** [for _, pkg := range pkgList], with its early [return] on an API
    error and its [break] once [foundGroup] is set. *)
Fixpoint scanPackages (client : API) (zoneID : string)
    (filter : searchFilterWAFRules) (pkgList : list WAFPackage.t) (l : listing)
  : listing * option goerror :=
  match pkgList with
  | [] => (l, None)
  | pkg :: rest =>
      let l := {| ruleIds := ruleIds l; ruleDetails := ruleDetails l;
                  queried := queried l ++ [WAFPackage.ID pkg] |} in
      match clientListWAFRules client zoneID (WAFPackage.ID pkg) with
      | Err err => (l, Some err)
      | OK ruleList =>
          let '(foundGroup, l) := fold_left (scanRule filter pkg) ruleList (false, l) in
          if foundGroup then (l, None)
          else scanPackages client zoneID filter rest l
      end
  end.

(** What a read leaves behind: the resource data, the diagnostics and
    the packages whose rules were requested. *)
Record readResult : Type := {
  resultData : ResourceData;
  resultDiag : option goerror;
  resultQueried : list string;
  resultRules : list value
}.

(** The packages to scan: all those of the zone when no package ID is
    given, else the given one. *)
Definition packageList (client : API) (zoneID packageID : string)
  : reply (list WAFPackage.t) :=
  if packageID =? "" then clientListWAFPackages client zoneID
  else OK [{| WAFPackage.ID := packageID |}].

Definition dataSourceCloudflareWAFRulesRead (client : API) (d : ResourceData)
  : outcome readResult :=
  let failed err := {| resultData := d; resultDiag := Some err;
                       resultQueried := []; resultRules := [] |} in
  zoneID <- assertString (Get d "zone_id") ;;
  expanded <- expandFilterWAFRules (Get d "filter") ;;
  match expanded with
  | Err err => Ret (failed err)
  | OK filter =>
      packageID <- assertString (Get d "package_id") ;;
      match packageList client zoneID packageID with
      | Err err => Ret (failed err)
      | OK pkgList =>
          match scanPackages client zoneID filter pkgList
                  {| ruleIds := []; ruleDetails := []; queried := [] |} with
          | (l, Some err) =>
              Ret {| resultData := d; resultDiag := Some err;
                     resultQueried := queried l; resultRules := [] |}
          | (l, None) =>
              match dSet "rules" (VSlice (ruleDetails l)) d with
              | (d', Some err) =>
                  Ret {| resultData := d';
                         resultDiag := Some (wrapError "error setting WAF rules: %w" [] err);
                         resultQueried := queried l; resultRules := ruleDetails l |}
              | (d', None) =>
                  Ret {| resultData := SetId (stringListChecksum (ruleIds l)) d';
                         resultDiag := None;
                         resultQueried := queried l; resultRules := ruleDetails l |}
              end
          end
      end
  end.

(** *** The filter, as the specification words it *)

(** A rule passes when its description matches the regular expression (or
    none is set), its mode is the mode asked for (or none is set) and its
    group is the group asked for (or none is set). *)
Definition passesFilter (filter : searchFilterWAFRules) (rule : WAFRule.t) : bool :=
  match filterDescription filter with
  | Some re => regexpMatch re (WAFRule.Description rule)
  | None => true
  end
  && ((filterMode filter =? "") || (filterMode filter =? WAFRule.Mode rule))
  && ((filterGroupID filter =? "")
      || (filterGroupID filter =? WAFRule.GroupID rule)).

(** A rule of the group asked for. *)
Definition inGroup (filter : searchFilterWAFRules) (rule : WAFRule.t) : bool :=
  filterGroupID filter =? WAFRule.GroupID rule.

(** The records of the rules of a package that pass the filter. *)
Definition selectedRules (client : API) (zoneID : string)
    (filter : searchFilterWAFRules) (pkg : WAFPackage.t) : list value :=
  match clientListWAFRules client zoneID (WAFPackage.ID pkg) with
  | OK ruleList => map (ruleDetail pkg) (List.filter (passesFilter filter) ruleList)
  | Err _ => []
  end.

End Provider.

(* ================================================================= *)
(** ** Tables used to state the properties *)

(** The eight kinds of the generic branch of [BuildAccessGroupCondition],
    each with the struct built for one value. *)
Definition plainKinds : list (string * (string -> AccessGroupRule)) :=
  [("email", AccessGroupEmail);
   ("email_domain", AccessGroupEmailDomain);
   ("ip", AccessGroupIP);
   ("service_token", AccessGroupServiceToken);
   ("group", AccessGroupAccessGroup);
   ("geo", AccessGroupGeo);
   ("login_method", AccessGroupLoginMethod);
   ("device_posture", AccessGroupDevicePosture)].

(** A block [appendConditionalAccessGroupFields] can take: nil, or a map
    from which the conditions can be built. *)
Definition buildableBlock (v : value) : Prop :=
  isNil v = true
  \/ exists m conditions, v = VMap m /\ BuildAccessGroupCondition m = Ret conditions.

(** A value of the right shape for a plain kind: a slice of strings. *)
Definition isString (v : value) : bool :=
  match v with
  | VString _ => true
  | _ => false
  end.

Definition plainShape (v : value) : bool :=
  match v with
  | VSlice l => forallb isString l
  | _ => false
  end.


(** The local variable each plain kind is collected in by
    [TransformAccessGroupForSchema]. *)
Definition plainAccumulators : list (string * (locals -> list string)) :=
  [("email", emails);
   ("email_domain", emailDomains);
   ("ip", ips);
   ("service_token", serviceTokens);
   ("group", groups);
   ("geo", geos);
   ("login_method", loginMethod);
   ("device_posture", devicePostureRuleIDs)].

(** The strings held by the object of one rule. *)
Definition innerStrings (v : value) : list string :=
  match v with
  | VMap m => flat_map (fun e => match snd e with VString s => [s] | _ => [] end) m
  | _ => []
  end.

(** All the values the rules of kind [k] hold in a condition list, in the
    order of the list. *)
Definition matchedValues (k : string) (accessGroup : list value) : list string :=
  flat_map (fun group =>
              match group with
              | VMap m => flat_map (fun e => if fst e =? k then innerStrings (snd e)
                                            else []) m
              | _ => []
              end) accessGroup.

(** The entries written for the rules everyone, any_valid_service_token and
    certificate of a condition list, one per rule, in the order of the
    list. *)
Definition flagEntries (accessGroup : list value) : list gomap :=
  flat_map (fun group =>
              match group with
              | VMap m => flat_map (fun e => if isFlagKey (fst e)
                                            then [[(fst e, VBool true)]] else []) m
              | _ => []
              end) accessGroup.

(** How many rules of a condition list have the key [k]. *)
Definition keyOccurrences (k : string) (accessGroup : list value) : nat :=
  List.length
    (flat_map (fun group =>
                 match group with
                 | VMap m => filter (fun e => fst e =? k) m
                 | _ => []
                 end) accessGroup).

Definition hasKey (k : string) (entry : gomap) : bool :=
  match mapLookup entry k with
  | Some _ => true
  | None => false
  end.

(** The number of entries of a schema list that have the key [k]. *)
Definition countKey (k : string) (blocks : list gomap) : nat :=
  List.length (filter (hasKey k) blocks).

(** The keys of a schema list, in order. *)
Definition entryKeys (blocks : list gomap) : list string :=
  flat_map (map fst) blocks.

(** The keys of the post-pass in the order of its [if] statements
    (source lines 696-815). *)
Definition sourceOrder : list string :=
  ["email"; "email_domain"; "ip"; "service_token"; "common_name"; "auth_method";
   "geo"; "login_method"; "okta"; "gsuite"; "github"; "azure"; "saml";
   "external_evaluation"; "group"; "device_posture"].

(** For each key of the post-pass, the condition under which its entry is
    written. *)
Definition emitCondition : list (string * (locals -> bool)) :=
  [("email", fun a => (0 <? List.length (emails a))%nat);
   ("email_domain", fun a => (0 <? List.length (emailDomains a))%nat);
   ("ip", fun a => (0 <? List.length (ips a))%nat);
   ("service_token", fun a => (0 <? List.length (serviceTokens a))%nat);
   ("common_name", fun a => nonEmpty (commonName a));
   ("auth_method", fun a => nonEmpty (authMethod a));
   ("geo", fun a => (0 <? List.length (geos a))%nat);
   ("login_method", fun a => (0 <? List.length (loginMethod a))%nat);
   ("okta", fun a => (0 <? List.length (oktaGroups a))%nat && nonEmpty (oktaID a));
   ("gsuite", fun a => (0 <? List.length (gsuiteEmails a))%nat && nonEmpty (gsuiteID a));
   ("github", fun a => nonEmpty (githubID a) && nonEmpty (githubName a));
   ("azure", fun a => (0 <? List.length (azureIDs a))%nat && nonEmpty (azureID a));
   ("saml", fun a => nonEmpty (samlAttrName a) && nonEmpty (samlAttrValue a));
   ("external_evaluation",
    fun a => nonEmpty (externalEvaluationURL a) && nonEmpty (externalEvaluationKeysURL a));
   ("group", fun a => (0 <? List.length (groups a))%nat);
   ("device_posture", fun a => (0 <? List.length (devicePostureRuleIDs a))%nat)].

Definition succeeds {A : Type} (c : outcome A) : bool :=
  match c with
  | Ret _ => true
  | Panic => false
  end.

(** The keys the post-pass writes for given accumulators: those of
    [emitCondition] whose condition holds, in the order of the table. *)
Definition writtenKeys (a : locals) : list string :=
  flat_map (fun kc : string * (locals -> bool) => if snd kc a then [fst kc] else [])
    emitCondition.

(** Each plain kind with its rule struct and the assignment to the local
    variable [TransformAccessGroupForSchema] collects it in. *)
Definition plainSetters
  : list (string * (string -> AccessGroupRule)
          * ((list string -> list string) -> locals -> locals)) :=
  [("email", AccessGroupEmail, set_emails);
   ("email_domain", AccessGroupEmailDomain, set_emailDomains);
   ("ip", AccessGroupIP, set_ips);
   ("service_token", AccessGroupServiceToken, set_serviceTokens);
   ("group", AccessGroupAccessGroup, set_groups);
   ("geo", AccessGroupGeo, set_geos);
   ("login_method", AccessGroupLoginMethod, set_loginMethod);
   ("device_posture", AccessGroupDevicePosture, set_devicePostureRuleIDs)].

(** A schema list of strings. *)
Definition stringList (l : list string) : value := VSlice (map VString l).

(** The blocks that survive the round trip through the API: one key, and a
    value that is not empty. *)
Inductive faithfulBlock : gomap -> Prop :=
| faithful_flag (k : string) :
    isFlagKey k = true -> faithfulBlock [(k, VBool true)]
| faithful_plain (k : string) (vs : list string) :
    In k (map fst plainKinds) -> vs <> [] -> faithfulBlock [(k, stringList vs)]
| faithful_common_name (s : string) :
    s <> "" -> faithfulBlock [("common_name", VString s)]
| faithful_auth_method (s : string) :
    s <> "" -> faithfulBlock [("auth_method", VString s)]
| faithful_okta (idp : string) (names : list string) :
    idp <> "" -> names <> [] ->
    faithfulBlock
      [("okta", VSlice [VMap [("identity_provider_id", VString idp);
                              ("name", stringList names)]])]
| faithful_gsuite (idp : string) (addresses : list string) :
    idp <> "" -> addresses <> [] ->
    faithfulBlock
      [("gsuite", VSlice [VMap [("identity_provider_id", VString idp);
                                ("email", stringList addresses)]])]
| faithful_azure (idp : string) (ids : list string) :
    idp <> "" -> ids <> [] ->
    faithfulBlock
      [("azure", VSlice [VMap [("identity_provider_id", VString idp);
                               ("id", stringList ids)]])]
| faithful_github (name idp : string) (teams : list string) :
    name <> "" -> idp <> "" -> ~ In "" teams ->
    faithfulBlock
      [("github", VSlice [VMap [("name", VString name);
                                ("teams", stringList teams);
                                ("identity_provider_id", VString idp)]])]
| faithful_external_evaluation (evaluateURL keysURL : string) :
    evaluateURL <> "" -> keysURL <> "" ->
    faithfulBlock
      [("external_evaluation", VSlice [VMap [("evaluate_url", VString evaluateURL);
                                             ("keys_url", VString keysURL)]])].

(** Example inputs. *)
Definition emailBlock : gomap :=
  [("email", stringList ["a@x.com"; "b@x.com"])].

Definition oktaTwoProviders : gomap :=
  [("okta", VSlice [VMap [("identity_provider_id", VString "idp-1");
                          ("name", stringList ["admins"])];
                    VMap [("identity_provider_id", VString "idp-2");
                          ("name", stringList ["guests"])]])].

Definition samlBlock : gomap :=
  [("saml", VSlice [VMap [("attribute_name", VString "group");
                          ("attribute_value", VString "admins");
                          ("identity_provider_id", VString "idp-1")]])].

Definition twoEveryoneRules : list value :=
  [VMap [("everyone", VMap [])]; VMap [("everyone", VMap [])]].

Definition mixedRules : list value :=
  [VMap [("email", VMap [("email", VString "a@x.com")])];
   VMap [("everyone", VMap [])];
   VMap [("geo", VMap [("country_code", VString "NL")])];
   VMap [("email", VMap [("email", VString "b@x.com")])]].

Definition oktaRuleWithoutProvider : list value :=
  [VMap [("okta", VMap [("name", VString "admins");
                        ("identity_provider_id", VString "")])]].

Definition everyoneThenCertificate : list value :=
  [VMap [("everyone", VMap [])]; VMap [("certificate", VMap [])]].

Definition certificateThenEveryone : list value :=
  [VMap [("certificate", VMap [])]; VMap [("everyone", VMap [])]].

(** Example surroundings: a stand-in for the SDK and a client whose zone
    has three packages. *)
Definition exampleSprintf (format : string) (args : list string) : string :=
  String.concat " " (format :: args).

Definition exampleSet (key : string) (v : value) (d : ResourceData)
  : ResourceData * option goerror :=
  ({| Id := Id d; Get := fun k => if k =? key then v else Get d k |}, None).

Definition exampleIdentifier (d : ResourceData) : reply AccessIdentifier :=
  OK {| Type_ := AccountType; Value := "account-1" |}.

Definition exampleRule (id group mode : string) : WAFRule.t :=
  {| WAFRule.ID := id; WAFRule.Description := "rule " ++ id; WAFRule.Priority := "1";
     WAFRule.Mode := mode; WAFRule.GroupID := group; WAFRule.GroupName := group;
     WAFRule.AllowedModes := ["on"; "off"]; WAFRule.DefaultMode := "on" |}.

Definition exampleClient : API :=
  {| clientAccessGroup := fun account id =>
       if id =? "gone" then Err (errorString "HTTP status 404: access group not found")
       else Err (errorString "HTTP status 500: internal error");
     clientZoneLevelAccessGroup := fun zone id =>
       Err (errorString "HTTP status 500: internal error");
     clientListWAFPackages := fun zone =>
       OK [{| WAFPackage.ID := "p1" |}; {| WAFPackage.ID := "p2" |};
           {| WAFPackage.ID := "p3" |}];
     clientListWAFRules := fun zone pkg =>
       if pkg =? "p1" then OK [exampleRule "r1" "g1" "on"]
       else if pkg =? "p2" then OK [exampleRule "r2" "g2" "on"; exampleRule "r3" "g2" "off"]
       else OK [exampleRule "r4" "g3" "on"] |}.

Definition exampleGroupData (id : string) : ResourceData :=
  {| Id := id; Get := fun _ => VNil |}.

Definition exampleWAFData : ResourceData :=
  {| Id := "";
     Get := fun k =>
       if k =? "zone_id" then VString "zone-1"
       else if k =? "package_id" then VString ""
       else if k =? "filter" then
         VSlice [VMap [("group_id", VString "g2"); ("mode", VString "on")]]
       else VNil |}.

Definition exampleFilter : @searchFilterWAFRules string :=
  {| filterDescription := None; filterMode := "on"; filterGroupID := "g2" |}.

Definition exampleBlocks : ResourceData :=
  {| Id := "group-1";
     Get := fun k =>
       if k =? "exclude" then
         VSlice [VMap [("email", stringList ["a@x.com"])];
                 VMap [("geo", stringList ["NL"])];
                 VNil]
       else VSlice [] |}.

Definition exampleGroup : AccessGroup.t :=
  {| AccessGroup.ID := "group-1"; AccessGroup.Name := "staff";
     AccessGroup.Include := []; AccessGroup.Exclude := []; AccessGroup.Require := [] |}.

(* ================================================================= *)
(** ** Further tables and predicates *)

Definition isStruct (v : value) : bool :=
  match v with
  | VStruct _ => true
  | _ => false
  end.

(** A condition list that holds rule structs only. *)
Definition onlyStructs (g : list value) : Prop := Forall (fun v => isStruct v = true) g.

(** A block of a provider kind as [BuildAccessGroupCondition] reads it: a
    map in which [listKey] holds a list of strings and
    identity_provider_id a string, whatever else it holds and in whatever
    order. *)
Definition providerBlock (listKey : string) (cfg : gomap) (idp : string)
    (vals : list string) : Prop :=
  mapIndex cfg listKey = stringList vals
  /\ mapIndex cfg "identity_provider_id" = VString idp.

(** The three provider kinds that carry one value per rule, each with the
    key of its list and its rule struct (value first, provider ID second). *)
Definition providerKinds
  : list (string * string * (string -> string -> AccessGroupRule)) :=
  [("gsuite", "email", AccessGroupGSuite);
   ("azure", "id", AccessGroupAzure);
   ("okta", "name", AccessGroupOkta)].

(** The rules of a list of provider blocks, each block given with its
    provider ID and its values. *)
Definition providerRules (mk : string -> string -> AccessGroupRule)
    (blocks : list (gomap * string * list string)) : list value :=
  flat_map (fun b => map (fun s => VStruct (mk s (snd (fst b)))) (snd b)) blocks.

(** The keys of the [switch] of the scanning loop (source lines 618-689). *)
Definition scannedKeys : list string :=
  ["everyone"; "any_valid_service_token"; "certificate"; "email"; "email_domain";
   "ip"; "service_token"; "common_name"; "auth_method"; "geo"; "login_method";
   "okta"; "gsuite"; "github-organization"; "azureAD"; "saml";
   "external_evaluation"; "group"; "device_posture"].

(** The strings found under [field] in the objects of the rules of key [k],
    in the order of the condition list. *)
Definition ruleField (k field : string) (accessGroup : list value) : list string :=
  flat_map (fun group =>
              match group with
              | VMap m =>
                  flat_map (fun e =>
                              if fst e =? k then
                                match snd e with
                                | VMap cfg =>
                                    match mapLookup cfg field with
                                    | Some (VString s) => [s]
                                    | _ => []
                                    end
                                | _ => []
                                end
                              else []) m
              | _ => []
              end) accessGroup.

(** A github block: a name, a provider ID and a list of teams. *)
Definition githubBlock (cfg : gomap) (name idp : string) (teams : list string) : Prop :=
  mapIndex cfg "name" = VString name
  /\ mapIndex cfg "identity_provider_id" = VString idp
  /\ mapIndex cfg "teams" = stringList teams.

(** The rules of one github block: one per team, or one for the whole
    organization when no team is given. *)
Definition githubRules (name idp : string) (teams : list string) : list value :=
  match teams with
  | [] => [VStruct (AccessGroupGitHub name "" idp)]
  | _ => map (fun t => VStruct (AccessGroupGitHub name t idp)) teams
  end.

(** The two kinds kept in a single string by the scanning loop. *)
Definition scalarAccumulators : list (string * (locals -> string)) :=
  [("common_name", commonName); ("auth_method", authMethod)].

(** The provider kinds of the scanning loop: the key written, the key
    scanned, the field collected, and the two local variables. *)
Definition providerAccumulators
  : list (string * string * string * (locals -> string) * (locals -> list string)) :=
  [("okta", "okta", "name", oktaID, oktaGroups);
   ("gsuite", "gsuite", "email", gsuiteID, gsuiteEmails);
   ("azure", "azureAD", "id", azureID, azureIDs)].

(** The entry the post-pass writes for a provider kind. *)
Definition providerEntry (key field idp : string) (vals : list string) : gomap :=
  [(key, VSlice [VMap [("identity_provider_id", VString idp);
                       (field, VStrings vals)]])].

(** What one entry of a rule contributes to [ruleField]. *)
Definition fieldOf (k field : string) (e : string * value) : list string :=
  if fst e =? k then
    match snd e with
    | VMap cfg =>
        match mapLookup cfg field with
        | Some (VString s) => [s]
        | _ => []
        end
    | _ => []
    end
  else [].

(** The local variables that keep one field of the last rule of a kind:
    the key scanned, the field, the variable. *)
Definition fieldAccumulators : list (string * string * (locals -> string)) :=
  [("saml", "attribute_name", samlAttrName);
   ("saml", "attribute_value", samlAttrValue);
   ("external_evaluation", "evaluate_url", externalEvaluationURL);
   ("external_evaluation", "keys_url", externalEvaluationKeysURL);
   ("github-organization", "name", githubName);
   ("github-organization", "identity_provider_id", githubID)].

(** The last string found under [field] in the rules of key [k]. *)
Definition lastField (k field : string) (accessGroup : list value) : string :=
  last (ruleField k field accessGroup) "".

(* ================================================================= *)
(** ** Create, update, delete and import of an Access Group *)

(** The double quote character, and the message of the import error. *)
Definition dquote : string :=
  String (Ascii.Ascii false true false false false true false false) EmptyString.

Definition invalidImportID : string :=
  ("invalid id (" ++ dquote ++ "%s" ++ dquote ++ ") specified, should be in format "
   ++ dquote ++ "accountID/accessGroupID" ++ dquote)%string.

(** The slash character. *)
Definition slash : Ascii.ascii :=
  Ascii.Ascii true true true true false true false false.

(** [strings.SplitN(s, "/", 2)]: the text before the first slash and the
    text after it, or [s] alone when it holds no slash. *)
Fixpoint cutSlash (s : string) : option (string * string) :=
  match s with
  | EmptyString => None
  | String c rest =>
      if Ascii.eqb c slash then Some (EmptyString, rest)
      else match cutSlash rest with
           | Some (before, after) => Some (String c before, after)
           | None => None
           end
  end.

Definition stringsSplitN2 (s : string) : list string :=
  match cutSlash s with
  | Some (before, after) => [before; after]
  | None => [s]
  end.

(** The methods of [*cloudflare.API] that write; each returns its result
    together with its error, as in Go. *)
Record WriteAPI : Type := {
  readAPI : API;
  clientCreateAccessGroup : string -> AccessGroup.t -> AccessGroup.t * option goerror;
  clientCreateZoneLevelAccessGroup
    : string -> AccessGroup.t -> AccessGroup.t * option goerror;
  clientUpdateAccessGroup : string -> AccessGroup.t -> AccessGroup.t * option goerror;
  clientUpdateZoneLevelAccessGroup
    : string -> AccessGroup.t -> AccessGroup.t * option goerror;
  clientDeleteAccessGroup : string -> string -> option goerror;
  clientDeleteZoneLevelAccessGroup : string -> string -> option goerror
}.

Section AccessGroupCRUD.

Variable Sprintf : string -> list string -> string.
Variable dSet : string -> value -> ResourceData -> ResourceData * option goerror.
Variable initIdentifier : ResourceData -> reply AccessIdentifier.

Definition readGroup (client : WriteAPI) (d : ResourceData)
  : outcome (ResourceData * option goerror) :=
  resourceCloudflareAccessGroupRead Sprintf dSet initIdentifier (readAPI client) d.



Definition resourceCloudflareAccessGroupDelete (client : WriteAPI) (d : ResourceData)
  : outcome (ResourceData * option goerror) :=
  match initIdentifier d with
  | Err err => Ret (d, Some err)
  | OK identifier =>
      match match Type_ identifier with
            | AccountType => clientDeleteAccessGroup client (Value identifier) (Id d)
            | ZoneType => clientDeleteZoneLevelAccessGroup client (Value identifier) (Id d)
            end with
      | Some err =>
          Ret (d, Some (wrapError "error deleting Access Group for ID %q: %w" [Id d] err))
      | None =>
          r <- readGroup client d ;;
          Ret (fst r, None)
      end
  end.

(** The function returns the list of resource data and the error. *)
Definition resourceCloudflareAccessGroupImport (client : WriteAPI) (d : ResourceData)
  : outcome (list ResourceData * option goerror) :=
  match stringsSplitN2 (Id d) with
  | [accountID; accessGroupID] =>
      let d := fst (dSet "account_id" (VString accountID) d) in
      let d := SetId accessGroupID d in
      r <- readGroup client d ;;
      Ret ([fst r], None)
  | _ => Ret ([], Some (errorString (Sprintf invalidImportID [Id d])))
  end.

End AccessGroupCRUD.

(** A client for the examples: it creates, updates and deletes without
    error. *)
Definition exampleWriteClient : WriteAPI :=
  {| readAPI := exampleClient;
     clientCreateAccessGroup := fun account g =>
       (AccessGroup.withExclude (AccessGroup.Exclude g)
          {| AccessGroup.ID := "gone"; AccessGroup.Name := AccessGroup.Name g;
             AccessGroup.Include := AccessGroup.Include g; AccessGroup.Exclude := [];
             AccessGroup.Require := AccessGroup.Require g |}, None);
     clientCreateZoneLevelAccessGroup := fun zone g => (g, None);
     clientUpdateAccessGroup := fun account g =>
       ({| AccessGroup.ID := ""; AccessGroup.Name := ""; AccessGroup.Include := [];
           AccessGroup.Exclude := []; AccessGroup.Require := [] |}, None);
     clientUpdateZoneLevelAccessGroup := fun zone g => (g, None);
     clientDeleteAccessGroup := fun account id => None;
     clientDeleteZoneLevelAccessGroup := fun zone id => None |}.

Definition exampleImportData (id : string) : ResourceData :=
  {| Id := id; Get := fun _ => VNil |}.

(** The ID held by an emitted rule record. *)
Definition detailID (v : value) : string :=
  match v with
  | VMap m =>
      match mapLookup m "id" with
      | Some (VString s) => s
      | _ => ""
      end
  | _ => ""
  end.

(** The records of all the rules of a package. *)
Definition allRules (client : API) (zoneID : string) (pkg : WAFPackage.t) : list value :=
  match clientListWAFRules client zoneID (WAFPackage.ID pkg) with
  | OK ruleList => map (ruleDetail pkg) ruleList
  | Err _ => []
  end.

(** A package whose rules are listed without error and that does not stop
    the scan: no group is asked for, or none of its rules is of the group. *)
Definition scannedThrough {Regexp : Type} (client : API) (zoneID : string)
    (filter : @searchFilterWAFRules Regexp) (pkg : WAFPackage.t) : Prop :=
  exists ruleList,
    clientListWAFRules client zoneID (WAFPackage.ID pkg) = OK ruleList
    /\ (filterGroupID filter = "" \/ existsb (inGroup filter) ruleList = false).

(** A client whose second package cannot be listed. *)
Definition exampleFailingClient : API :=
  {| clientAccessGroup := clientAccessGroup exampleClient;
     clientZoneLevelAccessGroup := clientZoneLevelAccessGroup exampleClient;
     clientListWAFPackages := clientListWAFPackages exampleClient;
     clientListWAFRules := fun zone pkg =>
       if pkg =? "p2" then Err (errorString "HTTP status 500: internal error")
       else clientListWAFRules exampleClient zone pkg |}.

Definition exampleUnfilteredData (packageID : string) : ResourceData :=
  {| Id := "";
     Get := fun k =>
       if k =? "zone_id" then VString "zone-1"
       else if k =? "package_id" then VString packageID
       else if k =? "filter" then VSlice []
       else VNil |}.

(** A stand-in for [regexp.Compile] that refuses an unbalanced pattern. *)
Definition exampleCompile (pattern : string) : reply string :=
  if pattern =? "(" then Err (errorString "error parsing regexp: missing closing )")
  else OK pattern.

(** An entry of a schema block that is not set: a flag that is not true,
    an empty common_name or auth_method, an empty list under any other
    key. *)
Definition unsetEntry (e : string * value) : bool :=
  if isFlagKey (fst e) then negb (isTrue (snd e))
  else if (fst e =? "common_name") || (fst e =? "auth_method")
       then negb (isNotEmptyString (snd e))
       else match snd e with
            | VSlice [] => true
            | _ => false
            end.


(* ================================================================= *)
(** ** The output of TransformAccessGroupForSchema, read off its input *)

(** The keys everyone, any_valid_service_token and certificate of the
    rules of a condition list, one per rule, in the order of the list. *)
Definition flagKeys (accessGroup : list value) : list string :=
  flat_map (fun group =>
              match group with
              | VMap m => filter isFlagKey (map fst m)
              | _ => []
              end) accessGroup.

(** The condition list holds at least one value of kind [k]. *)
Definition collected (k : string) (accessGroup : list value) : bool :=
  (0 <? List.length (matchedValues k accessGroup))%nat.

(** For each key of the post-pass, in the order of its [if] statements,
    what the condition list must hold for the entry to be written: a value
    for the plain kinds; a last value that is not empty for common_name and
    auth_method; a value and a last provider ID that is not empty for okta,
    gsuite and azure; a last provider ID and a last name that are not empty
    for github; two last strings that are not empty for saml and
    external_evaluation. *)
Definition keyCondition : list (string * (list value -> bool)) :=
  [("email", collected "email");
   ("email_domain", collected "email_domain");
   ("ip", collected "ip");
   ("service_token", collected "service_token");
   ("common_name", fun l => nonEmpty (last (matchedValues "common_name" l) ""));
   ("auth_method", fun l => nonEmpty (last (matchedValues "auth_method" l) ""));
   ("geo", collected "geo");
   ("login_method", collected "login_method");
   ("okta", fun l => (0 <? List.length (ruleField "okta" "name" l))%nat
                     && nonEmpty (lastField "okta" "identity_provider_id" l));
   ("gsuite", fun l => (0 <? List.length (ruleField "gsuite" "email" l))%nat
                       && nonEmpty (lastField "gsuite" "identity_provider_id" l));
   ("github", fun l => nonEmpty (lastField "github-organization" "identity_provider_id" l)
                       && nonEmpty (lastField "github-organization" "name" l));
   ("azure", fun l => (0 <? List.length (ruleField "azureAD" "id" l))%nat
                      && nonEmpty (lastField "azureAD" "identity_provider_id" l));
   ("saml", fun l => nonEmpty (lastField "saml" "attribute_name" l)
                     && nonEmpty (lastField "saml" "attribute_value" l));
   ("external_evaluation",
    fun l => nonEmpty (lastField "external_evaluation" "evaluate_url" l)
             && nonEmpty (lastField "external_evaluation" "keys_url" l));
   ("group", collected "group");
   ("device_posture", collected "device_posture")].

(** Whether the entry of key [k] is written for a condition list. *)
Definition keyWritten (k : string) (accessGroup : list value) : bool :=
  match find (fun kc : string * (list value -> bool) => fst kc =? k) keyCondition with
  | Some kc => snd kc accessGroup
  | None => false
  end.

(** The keys of the post-pass that are written for a condition list:
    [sourceOrder] less the keys whose condition fails. *)
Definition expectedKeys (accessGroup : list value) : list string :=
  filter (fun k => keyWritten k accessGroup) sourceOrder.

(** Four rules, of two flag kinds and two plain kinds; [rev] gives them in
    the opposite order. *)
Definition fourRules : list value :=
  [VMap [("geo", VMap [("country_code", VString "NL")])];
   VMap [("everyone", VMap [])];
   VMap [("email", VMap [("email", VString "a@x.com")])];
   VMap [("certificate", VMap [])]].

(* ================================================================= *)
(** ** The packages a WAF rules read goes through, read off the zone *)

(** The package lists its rules without error. *)
Definition listed (client : API) (zoneID : string) (pkg : WAFPackage.t) : bool :=
  match clientListWAFRules client zoneID (WAFPackage.ID pkg) with
  | OK _ => true
  | Err _ => false
  end.

(** The packages of a list up to and including the first one that cannot
    be listed or that, a group being asked for, holds a rule of that group;
    all of them when there is no such package. *)
Fixpoint packagesScanned {Regexp : Type} (client : API) (zoneID : string)
    (filter : @searchFilterWAFRules Regexp) (pkgList : list WAFPackage.t)
  : list WAFPackage.t :=
  match pkgList with
  | [] => []
  | pkg :: rest =>
      match clientListWAFRules client zoneID (WAFPackage.ID pkg) with
      | Err _ => [pkg]
      | OK ruleList =>
          if negb (filterGroupID filter =? "") && existsb (inGroup filter) ruleList
          then [pkg]
          else pkg :: packagesScanned client zoneID filter rest
      end
  end.

(* ================================================================= *)
(** ** Failed calls of the API *)






(* ================================================================= *)
(** ** Further example clients *)




(* ================================================================= *)
(** ** The calls of the Access Group functions *)






(* ================================================================= *)
(** ** Loops and panics *)

Lemma bind_Ret_inv {A B : Type} (c : outcome A) (k : A -> outcome B) (b : B) :
  bind c k = Ret b -> exists a, c = Ret a /\ k a = Ret b.
Proof.
  destruct c as [a|]; simpl; intro H; [exists a; auto | discriminate].
Qed.

Lemma forEach_app {A S : Type} (body : S -> A -> outcome S) (l1 l2 : list A) (s : S) :
  forEach (l1 ++ l2) body s = (s' <- forEach l1 body s ;; forEach l2 body s').
Proof.
  revert s; induction l1 as [|x l1 IH]; intro s; simpl; [reflexivity|].
  destruct (body s x) as [s'|]; simpl; [apply IH | reflexivity].
Qed.

(** A loop body that only appends to the slice it is given gives a loop
    that only appends. *)
Definition appendsOnly {A : Type} (body : list value -> A -> outcome (list value)) : Prop :=
  forall g x, body g x = (r <- body [] x ;; Ret (g ++ r)).

Lemma forEach_appendsOnly {A : Type} (body : list value -> A -> outcome (list value)) :
  appendsOnly body ->
  forall l g, forEach l body g = (r <- forEach l body [] ;; Ret (g ++ r)).
Proof.
  intros Hb l; induction l as [|x l IH]; intro g; simpl.
  - now rewrite app_nil_r.
  - rewrite (Hb g x). destruct (body [] x) as [r|]; simpl; [|reflexivity].
    rewrite (IH (g ++ r)), (IH r).
    destruct (forEach l body []) as [r'|]; simpl; [|reflexivity].
    now rewrite app_assoc.
Qed.

Ltac appends_only_step :=
  repeat match goal with
  | |- context [if ?c then _ else _] => destruct c; simpl
  | |- context [bind (assertString ?v) _] => destruct (assertString v); simpl
  | |- context [bind (assertSlice ?v) _] => destruct (assertSlice v); simpl
  | |- context [bind (assertMap ?v) _] => destruct (assertMap v); simpl
  end; rewrite ?app_nil_r; try reflexivity.

Lemma buildPlain_appendsOnly (k : string) : appendsOnly (buildPlain k).
Proof. intros g x; unfold buildPlain; appends_only_step. Qed.

Lemma buildSAML_appendsOnly : appendsOnly buildSAML.
Proof. intros g x; unfold buildSAML; appends_only_step. Qed.

Lemma buildExternalEvaluation_appendsOnly : appendsOnly buildExternalEvaluation.
Proof. intros g x; unfold buildExternalEvaluation; appends_only_step. Qed.

Lemma buildGSuite_appendsOnly : appendsOnly buildGSuite.
Proof.
  intros g x; unfold buildGSuite.
  destruct (assertMap x) as [cfg|]; simpl; [|reflexivity].
  destruct (assertSlice _) as [l|]; simpl; [|reflexivity].
  apply forEach_appendsOnly. intros g' y; appends_only_step.
Qed.

Lemma buildAzure_appendsOnly : appendsOnly buildAzure.
Proof.
  intros g x; unfold buildAzure.
  destruct (assertMap x) as [cfg|]; simpl; [|reflexivity].
  destruct (assertSlice _) as [l|]; simpl; [|reflexivity].
  apply forEach_appendsOnly. intros g' y; appends_only_step.
Qed.

Lemma buildOkta_appendsOnly : appendsOnly buildOkta.
Proof.
  intros g x; unfold buildOkta.
  destruct (assertMap x) as [cfg|]; simpl; [|reflexivity].
  destruct (assertSlice _) as [l|]; simpl; [|reflexivity].
  apply forEach_appendsOnly. intros g' y; appends_only_step.
Qed.

Lemma buildGitHub_appendsOnly : appendsOnly buildGitHub.
Proof.
  intros g x; unfold buildGitHub.
  destruct (assertMap x) as [cfg|]; simpl; [|reflexivity].
  destruct (assertSlice _) as [l|]; simpl; [|reflexivity].
  destruct (0 <? List.length l)%nat.
  - apply forEach_appendsOnly. intros g' y; appends_only_step.
  - appends_only_step.
Qed.

Lemma buildCondition_appendsOnly : appendsOnly buildCondition.
Proof.
  intros g [k v]; unfold buildCondition.
  repeat match goal with
  | |- context [if (k =? ?s) then _ else _] => destruct (k =? s)
  end;
  try (destruct (isTrue v); simpl; now rewrite ?app_nil_r);
  try (destruct (isNotEmptyString v); simpl; [|now rewrite app_nil_r];
       destruct (assertString v); reflexivity);
  (destruct (assertSlice v) as [l|]; simpl; [|reflexivity]);
  apply forEach_appendsOnly;
  auto using buildPlain_appendsOnly, buildSAML_appendsOnly,
    buildExternalEvaluation_appendsOnly, buildGSuite_appendsOnly,
    buildAzure_appendsOnly, buildOkta_appendsOnly, buildGitHub_appendsOnly.
Qed.

(** The conditions built from a map are those of its entries, one after
    the other in the order the entries are visited. *)
Lemma Build_entries (pre post : gomap) (entry : string * value) :
  BuildAccessGroupCondition (pre ++ entry :: post) =
  (a <- BuildAccessGroupCondition pre ;;
   r <- buildCondition [] entry ;;
   b <- BuildAccessGroupCondition post ;;
   Ret (a ++ r ++ b)).
Proof.
  unfold BuildAccessGroupCondition. rewrite forEach_app.
  destruct (forEach pre buildCondition []) as [a|]; simpl; [|reflexivity].
  rewrite (buildCondition_appendsOnly a entry).
  destruct (buildCondition [] entry) as [r|]; simpl; [|reflexivity].
  rewrite (forEach_appendsOnly _ buildCondition_appendsOnly post (a ++ r)).
  destruct (forEach post buildCondition []) as [b|]; simpl; [|reflexivity].
  now rewrite app_assoc.
Qed.

Lemma forEach_buildPlain (k : string) (mk : string -> AccessGroupRule) :
  In (k, mk) plainKinds ->
  forall (vs : list string) (g : list value),
    forEach (map VString vs) (buildPlain k) g
    = Ret (g ++ map (fun s => VStruct (mk s)) vs).
Proof.
  intros Hin vs; induction vs as [|s vs IH]; intro g; simpl.
  - now rewrite app_nil_r.
  - replace (buildPlain k g (VString s)) with (Ret (g ++ [VStruct (mk s)])).
    + simpl. rewrite IH, <- app_assoc. reflexivity.
    + simpl in Hin.
      repeat (destruct Hin as [Hin|Hin]; [inversion Hin; subst; reflexivity|]).
      contradiction.
Qed.

Lemma buildCondition_plain (k : string) (mk : string -> AccessGroupRule) (v : value) :
  In (k, mk) plainKinds ->
  buildCondition [] (k, v) = (l <- assertSlice v ;; forEach l (buildPlain k) []).
Proof.
  intro Hin. simpl in Hin.
  repeat (destruct Hin as [Hin|Hin]; [inversion Hin; subst; reflexivity|]).
  contradiction.
Qed.

(* ================================================================= *)
(** ** BuildAccessGroupCondition: the generic branch *)

Lemma buildPlain_string (k : string) (mk : string -> AccessGroupRule)
    (g : list value) (s : string) :
  In (k, mk) plainKinds -> buildPlain k g (VString s) = Ret (g ++ [VStruct (mk s)]).
Proof.
  intro Hin. simpl in Hin.
  repeat (destruct Hin as [Hin|Hin]; [inversion Hin; subst; reflexivity|]).
  contradiction.
Qed.

Lemma buildPlain_not_string (k : string) (mk : string -> AccessGroupRule)
    (g : list value) (x : value) :
  In (k, mk) plainKinds -> isString x = false -> buildPlain k g x = Panic.
Proof.
  intros Hin Hx. destruct x; try discriminate; simpl in Hin;
    repeat (destruct Hin as [Hin|Hin]; [inversion Hin; subst; reflexivity|]);
    contradiction.
Qed.

Lemma forEach_buildPlain_panics (k : string) (mk : string -> AccessGroupRule) :
  In (k, mk) plainKinds ->
  forall (l : list value) (g : list value),
    forEach l (buildPlain k) g = Panic <-> forallb isString l = false.
Proof.
  intros Hin l; induction l as [|x l IH]; intro g; simpl.
  - split; discriminate.
  - destruct (isString x) eqn:Hx.
    + destruct x; try discriminate.
      rewrite (buildPlain_string k mk g s Hin). simpl. apply IH.
    + rewrite (buildPlain_not_string k mk g x Hin Hx). simpl. tauto.
Qed.

(** The rules built for a plain kind, between those of the entries visited
    before and after it. *)
Lemma Build_plain_between
    (k : string) (mk : string -> AccessGroupRule) (pre post : gomap)
    (vs : list string) (a b : list value) :
  In (k, mk) plainKinds ->
  BuildAccessGroupCondition pre = Ret a ->
  BuildAccessGroupCondition post = Ret b ->
  BuildAccessGroupCondition (pre ++ (k, VSlice (map VString vs)) :: post)
  = Ret (a ++ map (fun s => VStruct (mk s)) vs ++ b).
Proof.
  intros Hin Ha Hb.
  rewrite Build_entries, Ha, Hb, (buildCondition_plain k mk _ Hin). simpl.
  rewrite (forEach_buildPlain k mk Hin vs []). reflexivity.
Qed.

(** C9. For each of the kinds email, email_domain, ip, service_token,
    group, geo, login_method and device_posture, whatever entries the map
    holds before and after it, [BuildAccessGroupCondition] turns the kind's
    list of values into exactly one rule struct per value, in the order of
    the values. *)
Theorem plain_kind_one_rule_per_value
    (k : string) (mk : string -> AccessGroupRule) (pre post : gomap)
    (vs : list string) (a b : list value) :
  In (k, mk) plainKinds ->
  BuildAccessGroupCondition pre = Ret a ->
  BuildAccessGroupCondition post = Ret b ->
  BuildAccessGroupCondition (pre ++ (k, VSlice (map VString vs)) :: post)
  = Ret (a ++ map (fun s => VStruct (mk s)) vs ++ b).
Proof.
  intros Hin Ha Hb.
  rewrite Build_entries, Ha, Hb. cbn [bind].
  rewrite (buildCondition_plain k mk _ Hin). cbn [assertSlice bind].
  rewrite (forEach_buildPlain k mk Hin vs []). reflexivity.
Qed.

Lemma plain_kind_one_rule_per_value_witness :
  BuildAccessGroupCondition
    ([("everyone", VBool true)]
     ++ ("geo", VSlice (map VString ["US"; "NL"]))
     :: [("email", VSlice [VString "a@x.com"])])
  = Ret ([VStruct AccessGroupEveryone]
         ++ map (fun s => VStruct (AccessGroupGeo s)) ["US"; "NL"]
         ++ [VStruct (AccessGroupEmail "a@x.com")]).
Proof.
  apply (plain_kind_one_rule_per_value "geo" AccessGroupGeo).
  - simpl. do 5 right. left. reflexivity.
  - reflexivity.
  - reflexivity.
Defined.

(** C8. [BuildAccessGroupCondition] checks its input by type assertion
    only: for each kind of the generic branch it panics exactly when the
    value is not a slice of strings (a value that is no slice, or a slice
    with an element that is no string), and it has no other way to report
    the wrong shape. *)
Theorem build_panics_on_wrong_shape
    (k : string) (mk : string -> AccessGroupRule) (v : value) :
  In (k, mk) plainKinds ->
  (BuildAccessGroupCondition [(k, v)] = Panic <-> plainShape v = false).
Proof.
  intro Hin. unfold BuildAccessGroupCondition.
  change (forEach [(k, v)] buildCondition [])
    with (s <- buildCondition [] (k, v) ;; Ret s).
  rewrite (buildCondition_plain k mk v Hin).
  destruct v; simpl; try tauto.
  pose proof (forEach_buildPlain_panics k mk Hin l []) as H.
  destruct (forEach l (buildPlain k) []); simpl; split; intro H0;
    try discriminate; try reflexivity.
  - apply H in H0. discriminate.
  - now apply H.
Qed.

Lemma build_panics_on_wrong_shape_witness :
  BuildAccessGroupCondition [("email", VString "a@x.com")] = Panic
  /\ BuildAccessGroupCondition [("ip", VSlice [VString "10.0.0.1"; VBool true])] = Panic.
Proof.
  split.
  - apply (build_panics_on_wrong_shape "email" AccessGroupEmail).
    + simpl. left. reflexivity.
    + reflexivity.
  - apply (build_panics_on_wrong_shape "ip" AccessGroupIP).
    + simpl. do 2 right. left. reflexivity.
    + reflexivity.
Defined.

(* ================================================================= *)
(** ** appendConditionalAccessGroupFields *)

Section AssignField.

Variable assignField : list value -> AccessGroup.t -> AccessGroup.t.
Variable field other : AccessGroup.t -> list value.
Hypothesis field_assigned : forall c g, field (assignField c g) = c.
Hypothesis other_kept : forall c g, other (assignField c g) = other g.

Lemma assign_nil_blocks (l : list value) (g : AccessGroup.t) :
  forallb isNil l = true -> forEach l (assignCondition assignField) g = Ret g.
Proof.
  induction l as [|x l IH]; simpl; [reflexivity|].
  intro H. apply andb_prop in H as [Hx Hl].
  unfold assignCondition at 1. rewrite Hx. simpl. now apply IH.
Qed.

Lemma assign_last_block (pre post : list value) (m : gomap) (g g' : AccessGroup.t) :
  forEach (pre ++ VMap m :: post) (assignCondition assignField) g = Ret g' ->
  forallb isNil post = true ->
  BuildAccessGroupCondition m = Ret (field g').
Proof.
  intros H Hpost. rewrite forEach_app in H.
  apply bind_Ret_inv in H as [g1 [_ H]]. simpl in H.
  apply bind_Ret_inv in H as [g2 [H2 H]].
  unfold assignCondition in H2. simpl in H2.
  destruct (BuildAccessGroupCondition m) as [c|]; [|discriminate].
  simpl in H2. injection H2 as <-.
  rewrite (assign_nil_blocks post _ Hpost) in H. injection H as <-.
  now rewrite field_assigned.
Qed.

Lemma assign_keeps_other (l : list value) (g g' : AccessGroup.t) :
  forEach l (assignCondition assignField) g = Ret g' -> other g' = other g.
Proof.
  revert g; induction l as [|x l IH]; simpl; intros g H.
  - now injection H as <-.
  - apply bind_Ret_inv in H as [g1 [H1 H]].
    rewrite (IH _ H). unfold assignCondition in H1.
    destruct (isNil x); [now injection H1 as <-|].
    apply bind_Ret_inv in H1 as [m [_ H1]].
    apply bind_Ret_inv in H1 as [c [_ H1]].
    injection H1 as <-. apply other_kept.
Qed.

End AssignField.

Lemma assign_returns (assignField : list value -> AccessGroup.t -> AccessGroup.t)
    (l : list value) (g : AccessGroup.t) :
  Forall buildableBlock l ->
  exists g', forEach l (assignCondition assignField) g = Ret g'.
Proof.
  intro H. revert g. induction H as [|v l Hv _ IH]; intro g; simpl; [eauto|].
  unfold assignCondition at 1.
  destruct Hv as [Hnil|[m [c [-> Hc]]]].
  - rewrite Hnil. simpl. apply IH.
  - simpl. rewrite Hc. simpl. apply IH.
Qed.

(** The function returns when the three lists hold buildable blocks. *)
Lemma append_returns (group : AccessGroup.t) (d : ResourceData)
    (exclude require include : list value) :
  Get d "exclude" = VSlice exclude -> Forall buildableBlock exclude ->
  Get d "require" = VSlice require -> Forall buildableBlock require ->
  Get d "include" = VSlice include -> Forall buildableBlock include ->
  exists group', appendConditionalAccessGroupFields group d = Ret group'.
Proof.
  intros He Fe Hr Fr Hi Fi. unfold appendConditionalAccessGroupFields.
  rewrite He, Hr, Hi. cbn [assertSlice bind].
  destruct (assign_returns AccessGroup.withExclude exclude group Fe) as [g1 ->].
  cbn [bind].
  destruct (assign_returns AccessGroup.withRequire require g1 Fr) as [g2 ->].
  cbn [bind].
  exact (assign_returns AccessGroup.withInclude include g2 Fi).
Qed.

(** C10. When the exclude, require or include list of the schema holds
    several non-nil blocks, the field of the resulting group holds the
    conditions built from the last non-nil block only: each later block
    overwrites what an earlier block assigned. *)
Theorem append_keeps_last_block
    (group group' : AccessGroup.t) (d : ResourceData) :
  appendConditionalAccessGroupFields group d = Ret group' ->
  (forall pre m post,
      Get d "exclude" = VSlice (pre ++ VMap m :: post) ->
      forallb isNil post = true ->
      BuildAccessGroupCondition m = Ret (AccessGroup.Exclude group'))
  /\ (forall pre m post,
      Get d "require" = VSlice (pre ++ VMap m :: post) ->
      forallb isNil post = true ->
      BuildAccessGroupCondition m = Ret (AccessGroup.Require group'))
  /\ (forall pre m post,
      Get d "include" = VSlice (pre ++ VMap m :: post) ->
      forallb isNil post = true ->
      BuildAccessGroupCondition m = Ret (AccessGroup.Include group')).
Proof.
  unfold appendConditionalAccessGroupFields. intro H.
  apply bind_Ret_inv in H as [le [Hle H]].
  apply bind_Ret_inv in H as [g1 [H1 H]].
  apply bind_Ret_inv in H as [lr [Hlr H]].
  apply bind_Ret_inv in H as [g2 [H2 H3]].
  apply bind_Ret_inv in H3 as [li [Hli H3]].
  repeat split; intros pre m post Hget Hpost.
  - rewrite Hget in Hle. injection Hle as <-.
    rewrite (assign_keeps_other AccessGroup.withInclude AccessGroup.Exclude
               (fun _ _ => eq_refl) _ _ _ H3).
    rewrite (assign_keeps_other AccessGroup.withRequire AccessGroup.Exclude
               (fun _ _ => eq_refl) _ _ _ H2).
    exact (assign_last_block AccessGroup.withExclude AccessGroup.Exclude
             (fun _ _ => eq_refl) pre post m _ _ H1 Hpost).
  - rewrite Hget in Hlr. injection Hlr as <-.
    rewrite (assign_keeps_other AccessGroup.withInclude AccessGroup.Require
               (fun _ _ => eq_refl) _ _ _ H3).
    exact (assign_last_block AccessGroup.withRequire AccessGroup.Require
             (fun _ _ => eq_refl) pre post m _ _ H2 Hpost).
  - rewrite Hget in Hli. injection Hli as <-.
    exact (assign_last_block AccessGroup.withInclude AccessGroup.Include
             (fun _ _ => eq_refl) pre post m _ _ H3 Hpost).
Qed.

(* ================================================================= *)
(** ** TransformAccessGroupForSchema: the scanning loop *)

Lemma assertMap_inv (v : value) (m : gomap) : assertMap v = Ret m -> v = VMap m.
Proof. destruct v; simpl; intro H; try discriminate. now injection H as ->. Qed.

Lemma appendStrings_spec (m : gomap) (l l' : list string) :
  appendStrings m l = Ret l' -> l' = l ++ innerStrings (VMap m).
Proof.
  unfold appendStrings. revert l; induction m as [|[k v] m IH]; simpl; intros l H.
  - injection H as <-. now rewrite app_nil_r.
  - apply bind_Ret_inv in H as [l1 [H1 H]].
    destruct v; try discriminate. simpl in H1. injection H1 as <-.
    apply IH in H. simpl in H. rewrite H, <- app_assoc. reflexivity.
Qed.

(** A loop whose body adds [contrib x] to one component of the state adds
    the contributions of all elements, in order. *)
Lemma forEach_accumulates {A S B : Type} (body : S -> A -> outcome S)
    (proj : S -> list B) (contrib : A -> list B) :
  (forall s x s', body s x = Ret s' -> proj s' = proj s ++ contrib x) ->
  forall l s s', forEach l body s = Ret s' -> proj s' = proj s ++ flat_map contrib l.
Proof.
  intros Hb l; induction l as [|x l IH]; simpl; intros s s' H.
  - injection H as <-. now rewrite app_nil_r.
  - apply bind_Ret_inv in H as [s1 [H1 H]].
    rewrite (IH _ _ H), (Hb _ _ _ H1), <- app_assoc. reflexivity.
Qed.

(** Case analysis on the key of a scanned entry: either it is one of the
    keys of the [switch], and then everything computes, or all tests fail. *)
Ltac scan_cases k H :=
  unfold scanEntry, isFlagKey in H;
  repeat match type of H with
  | context [k =? ?s] =>
      let E := fresh "E" in
      destruct (k =? s) eqn:E;
      [apply String.eqb_eq in E; subst k; simpl in H
      |rewrite ?E in H; cbn [orb] in H; cbv beta iota in H]
  end.

Ltac scan_binds H :=
  repeat match type of H with
  | bind (assertMap ?v) _ = Ret _ =>
      let m := fresh "m" in let Hm := fresh "Hm" in
      apply bind_Ret_inv in H as [m [Hm H]]; apply assertMap_inv in Hm; subst v
  | bind ?c _ = Ret _ =>
      let x := fresh "x" in let Hx := fresh "Hx" in
      apply bind_Ret_inv in H as [x [Hx H]]
  | match ?c with Some _ => _ | None => _ end = Ret _ => destruct c
  end;
  try (injection H as <-).

Lemma scanEntry_data (a a' : locals) (k : string) (v : value) :
  scanEntry a (k, v) = Ret a' ->
  data a' = data a ++ (if isFlagKey k then [[(k, VBool true)]] else []).
Proof.
  intro H. scan_cases k H; scan_binds H; simpl; rewrite ?app_nil_r; try reflexivity.
  all: unfold isFlagKey; rewrite ?E, ?E0, ?E1; simpl; rewrite ?app_nil_r; reflexivity.
Qed.

Lemma scanEntry_plain (key : string) (proj : locals -> list string)
    (a a' : locals) (k : string) (v : value) :
  In (key, proj) plainAccumulators ->
  scanEntry a (k, v) = Ret a' ->
  proj a' = proj a ++ (if k =? key then innerStrings v else []).
Proof.
  intros Hin H. simpl in Hin.
  repeat (destruct Hin as [Hin|Hin];
          [injection Hin as <- <-; scan_cases k H; scan_binds H; simpl;
           rewrite ?app_nil_r;
           try reflexivity;
           try (match goal with
                | Hx : appendStrings _ _ = Ret _ |- _ =>
                    apply appendStrings_spec in Hx; exact Hx
                end);
           try (match goal with
                | E : (k =? ?s) = false |- context [k =? ?s] => rewrite E
                end; simpl; rewrite ?app_nil_r; reflexivity)
          |]).
  contradiction.
Qed.

Lemma scanGroup_accumulates {B : Type} (proj : locals -> list B)
    (contrib : string * value -> list B) :
  (forall a e a', scanEntry a e = Ret a' -> proj a' = proj a ++ contrib e) ->
  forall a group a',
    scanGroup a group = Ret a' ->
    proj a' = proj a ++ match group with
                        | VMap m => flat_map contrib m
                        | _ => []
                        end.
Proof.
  intros Hb a group a' H. unfold scanGroup in H.
  apply bind_Ret_inv in H as [m [Hm H]]. apply assertMap_inv in Hm. subst group.
  exact (forEach_accumulates scanEntry proj contrib Hb m a a' H).
Qed.

Lemma scan_data (accessGroup : list value) (a : locals) :
  scan accessGroup = Ret a -> data a = flagEntries accessGroup.
Proof.
  intro H. unfold scan in H.
  apply (forEach_accumulates scanGroup data
           (fun group => match group with
                         | VMap m => flat_map (fun e => if isFlagKey (fst e)
                                                        then [[(fst e, VBool true)]]
                                                        else []) m
                         | _ => []
                         end)) in H.
  - exact H.
  - intros s x s' Hs.
    apply (scanGroup_accumulates data
             (fun e => if isFlagKey (fst e) then [[(fst e, VBool true)]] else []));
      [|exact Hs].
    intros a0 [k v] a1. apply scanEntry_data.
Qed.

Lemma scan_plain (key : string) (proj : locals -> list string)
    (accessGroup : list value) (a : locals) :
  In (key, proj) plainAccumulators ->
  scan accessGroup = Ret a -> proj a = matchedValues key accessGroup.
Proof.
  intros Hin H. unfold scan in H.
  apply (forEach_accumulates scanGroup proj
           (fun group => match group with
                         | VMap m => flat_map (fun e => if fst e =? key
                                                        then innerStrings (snd e)
                                                        else []) m
                         | _ => []
                         end)) in H.
  - rewrite H. unfold matchedValues. simpl in Hin.
    repeat (destruct Hin as [Hin|Hin]; [injection Hin as <- <-; reflexivity|]).
    contradiction.
  - intros s x s' Hs.
    apply (scanGroup_accumulates proj
             (fun e => if fst e =? key then innerStrings (snd e) else []));
      [|exact Hs].
    intros a0 [k v] a1. now apply scanEntry_plain.
Qed.

(* ================================================================= *)
(** ** TransformAccessGroupForSchema: the post-pass *)

Lemma countKey_app (k : string) (xs ys : list gomap) :
  countKey k (xs ++ ys) = countKey k xs + countKey k ys.
Proof. unfold countKey. now rewrite filter_app, length_app. Qed.

Lemma countKey_appendIf (k : string) (c : bool) (e : gomap) (d : list gomap) :
  countKey k (appendIf c e d)
  = countKey k d + (if hasKey k e then if c then 1 else 0 else 0).
Proof.
  unfold appendIf. destruct c.
  - rewrite countKey_app. unfold countKey. simpl. now destruct (hasKey k e).
  - destruct (hasKey k e); lia.
Qed.

Lemma In_appendIf (c : bool) (e x : gomap) (d : list gomap) :
  In x (appendIf c e d) -> In x d \/ (c = true /\ x = e).
Proof.
  unfold appendIf. destruct c; [|tauto].
  intro H. apply in_app_or in H as [H|[H|[]]]; auto.
Qed.

Lemma entryKeys_appendIf (c : bool) (e : gomap) (d : list gomap) :
  entryKeys (appendIf c e d) = entryKeys d ++ (if c then map fst e else []).
Proof.
  unfold appendIf, entryKeys. destruct c.
  - rewrite flat_map_app. simpl. now rewrite app_nil_r.
  - now rewrite app_nil_r.
Qed.

Lemma hasKey_flagEntries (k : string) (accessGroup : list value) (e : gomap) :
  In e (flagEntries accessGroup) -> hasKey k e = true -> isFlagKey k = true.
Proof.
  unfold flagEntries. intros H Hk.
  apply in_flat_map in H as [group [_ H]]. destruct group; try contradiction.
  apply in_flat_map in H as [[k' v] [_ H]]. simpl in H.
  destruct (isFlagKey k') eqn:Hf; [|contradiction].
  destruct H as [<-|[]]. unfold hasKey in Hk. simpl in Hk.
  destruct (k' =? k) eqn:E; [|discriminate].
  apply String.eqb_eq in E. now subst.
Qed.

Lemma countKey_flagEntries_other (k : string) (accessGroup : list value) :
  isFlagKey k = false -> countKey k (flagEntries accessGroup) = 0.
Proof.
  intro Hk. unfold countKey.
  destruct (filter (hasKey k) (flagEntries accessGroup)) as [|e l] eqn:E; [reflexivity|].
  assert (In e (filter (hasKey k) (flagEntries accessGroup))) as H
    by (rewrite E; now left).
  apply filter_In in H as [H1 H2].
  rewrite (hasKey_flagEntries k accessGroup e H1 H2) in Hk. discriminate.
Qed.

(** Evaluate the comparisons of two literal keys. *)
Ltac eqb_compute :=
  repeat match goal with
  | |- context [String.eqb ?s ?t] =>
      let b := eval vm_compute in (String.eqb s t) in
      change (String.eqb s t) with b
  end.

Lemma hasKey_single (k s : string) (v : value) : hasKey k [(s, v)] = (s =? k).
Proof. unfold hasKey, mapLookup. now destruct (s =? k). Qed.

Lemma countKey_emit_listed (k : string) (c : locals -> bool) (a : locals) :
  In (k, c) emitCondition ->
  countKey k (emit a) = countKey k (data a) + (if c a then 1 else 0).
Proof.
  intro Hin. unfold emit. cbv zeta. rewrite !countKey_appendIf, !hasKey_single.
  simpl in Hin.
  repeat (destruct Hin as [Hin|Hin];
          [injection Hin as <- <-; eqb_compute; cbv beta iota; lia|]).
  contradiction.
Qed.

Lemma countKey_emit_unlisted (k : string) (a : locals) :
  ~ In k sourceOrder -> countKey k (emit a) = countKey k (data a).
Proof.
  intro Hk. unfold emit. cbv zeta. rewrite !countKey_appendIf, !hasKey_single.
  repeat match goal with
  | |- context [?s =? k] =>
      let E := fresh "E" in
      destruct (s =? k) eqn:E;
      [apply String.eqb_eq in E; exfalso; apply Hk; rewrite <- E; simpl; tauto|]
  end.
  lia.
Qed.

Lemma sourceOrder_listed (k : string) :
  In k sourceOrder -> exists c, In (k, c) emitCondition.
Proof.
  intro H. simpl in H.
  repeat (destruct H as [H|H];
          [subst k; eexists; simpl; repeat (try (left; reflexivity); right)|]).
  contradiction.
Qed.

Lemma Transform_inv (accessGroup : list value) (out : list gomap) :
  TransformAccessGroupForSchema accessGroup = Ret out ->
  exists a, scan accessGroup = Ret a /\ out = emit a.
Proof.
  unfold TransformAccessGroupForSchema. intro H.
  apply bind_Ret_inv in H as [a [Ha H]]. injection H as <-. eauto.
Qed.

Lemma emitCondition_not_flag (k : string) (c : locals -> bool) :
  In (k, c) emitCondition -> isFlagKey k = false /\ In k sourceOrder.
Proof.
  intro H. simpl in H.
  repeat (destruct H as [H|H];
          [injection H as <- <-; split; [reflexivity | simpl; tauto]|]).
  contradiction.
Qed.

Lemma sourceOrder_not_flag (k : string) : isFlagKey k = true -> ~ In k sourceOrder.
Proof.
  intros Hk Hin. apply sourceOrder_listed in Hin as [c Hc].
  apply emitCondition_not_flag in Hc as [Hc _]. congruence.
Qed.

Lemma countKey_flagEntries (k : string) (accessGroup : list value) :
  isFlagKey k = true ->
  countKey k (flagEntries accessGroup) = keyOccurrences k accessGroup.
Proof.
  intro Hk. unfold flagEntries, keyOccurrences.
  induction accessGroup as [|group rest IH]; simpl; [reflexivity|].
  rewrite countKey_app, length_app, IH. f_equal.
  destruct group; try reflexivity.
  induction m as [|[k' v] m IHm]; simpl; [reflexivity|].
  rewrite countKey_app, IHm.
  destruct (k' =? k) eqn:E.
  - apply String.eqb_eq in E. subst k'. rewrite Hk.
    unfold countKey. simpl. rewrite hasKey_single, String.eqb_refl. reflexivity.
  - destruct (isFlagKey k'); [|reflexivity].
    unfold countKey. simpl. rewrite hasKey_single, E. reflexivity.
Qed.

(** C5, as amended.  After the scan, the post-pass writes the entry of each
    of its sixteen keys exactly once when the key's own condition on the
    accumulators holds and not at all otherwise: a non-empty list for the
    plain kinds, a non-empty string for common_name and auth_method, a
    non-empty list together with a non-empty provider ID for okta, gsuite
    and azure, a non-empty provider ID and name for github, both strings
    non-empty for saml and external_evaluation.  The keys everyone,
    any_valid_service_token and certificate have no accumulator: their
    entries are written once per rule of the input.  No other key is
    written. *)
Theorem transform_emits_by_condition (accessGroup : list value) (out : list gomap) :
  TransformAccessGroupForSchema accessGroup = Ret out ->
  exists a,
    scan accessGroup = Ret a
    /\ (forall k c, In (k, c) emitCondition ->
                    countKey k out = if c a then 1 else 0)
    /\ (forall k, isFlagKey k = true ->
                  countKey k out = keyOccurrences k accessGroup)
    /\ (forall k, isFlagKey k = false -> ~ In k sourceOrder -> countKey k out = 0).
Proof.
  intro H. apply Transform_inv in H as [a [Ha ->]]. exists a.
  pose proof (scan_data accessGroup a Ha) as Hd.
  split; [exact Ha|]. repeat split.
  - intros k c Hin. rewrite (countKey_emit_listed k c a Hin), Hd.
    apply emitCondition_not_flag in Hin as [Hf _].
    now rewrite (countKey_flagEntries_other k accessGroup Hf).
  - intros k Hk.
    rewrite (countKey_emit_unlisted k a (sourceOrder_not_flag k Hk)), Hd.
    now apply countKey_flagEntries.
  - intros k Hk Hn. rewrite (countKey_emit_unlisted k a Hn), Hd.
    now apply countKey_flagEntries_other.
Qed.

(* ================================================================= *)
(** ** The order of the output keys *)

Lemma entryKeys_emit (a : locals) :
  entryKeys (emit a) = entryKeys (data a) ++ writtenKeys a.
Proof.
  unfold emit. cbv zeta. rewrite !entryKeys_appendIf, <- !app_assoc.
  unfold writtenKeys, emitCondition. cbn [flat_map map fst snd].
  rewrite app_nil_r. reflexivity.
Qed.

(* ================================================================= *)
(** ** When the scan returns *)

Lemma succeeds_bind_total {A B : Type} (c : outcome A) (k : A -> outcome B) :
  (forall x, succeeds (k x) = true) -> succeeds (bind c k) = succeeds c.
Proof. intro H. destruct c; simpl; auto. Qed.

Lemma appendStrings_succeeds (m : gomap) (l : list string) :
  succeeds (appendStrings m l) = forallb (fun e => isString (snd e)) m.
Proof.
  unfold appendStrings. revert l; induction m as [|[k v] m IH]; intro l; simpl.
  - reflexivity.
  - destruct v; simpl; try reflexivity. apply IH.
Qed.

Lemma assignStrings_succeeds (m : gomap) (s : string) :
  succeeds (assignStrings m s) = forallb (fun e => isString (snd e)) m.
Proof.
  unfold assignStrings. revert s; induction m as [|[k v] m IH]; intro s; simpl.
  - reflexivity.
  - destruct v; simpl; try reflexivity. apply IH.
Qed.

(** Whether one step of the scan panics depends on the entry only, not on
    what has been accumulated. *)
Lemma scanEntry_succeeds (a a' : locals) (entry : string * value) :
  succeeds (scanEntry a entry) = succeeds (scanEntry a' entry).
Proof.
  destruct entry as [k v]. unfold scanEntry.
  destruct (isFlagKey k); [reflexivity|].
  repeat match goal with
  | |- context [if (k =? ?s) then _ else _] => destruct (k =? s)
  end;
  try reflexivity;
  (destruct (assertMap v) as [m|]; cbn [bind]; [|reflexivity]);
  rewrite ?succeeds_bind_total by (intro; reflexivity);
  rewrite ?appendStrings_succeeds, ?assignStrings_succeeds;
  try reflexivity;
  repeat match goal with
  | |- context [bind (assertString ?x) _] => destruct (assertString x); cbn [bind]
  end;
  try reflexivity.
  destruct (mapLookup m "team") as [t|]; [|reflexivity].
  destruct (assertString t); reflexivity.
Qed.

Lemma forEach_succeeds {A S : Type} (body : S -> A -> outcome S) (s0 : S) :
  (forall s s' x, succeeds (body s x) = succeeds (body s' x)) ->
  forall l s, succeeds (forEach l body s) = forallb (fun x => succeeds (body s0 x)) l.
Proof.
  intros Hb l; induction l as [|x l IH]; intro s; simpl; [reflexivity|].
  rewrite (Hb s0 s x). destruct (body s x) as [s'|]; simpl; [apply IH | reflexivity].
Qed.

Lemma scanGroup_succeeds (a a' : locals) (group : value) :
  succeeds (scanGroup a group) = succeeds (scanGroup a' group).
Proof.
  unfold scanGroup. destruct (assertMap group) as [m|]; simpl; [|reflexivity].
  rewrite (forEach_succeeds scanEntry initialLocals scanEntry_succeeds m a).
  rewrite (forEach_succeeds scanEntry initialLocals scanEntry_succeeds m a').
  reflexivity.
Qed.

Lemma scan_succeeds (accessGroup : list value) :
  succeeds (scan accessGroup)
  = forallb (fun group => succeeds (scanGroup initialLocals group)) accessGroup.
Proof.
  exact (forEach_succeeds scanGroup initialLocals scanGroup_succeeds accessGroup
           initialLocals).
Qed.

Lemma forallb_Permutation {A : Type} (p : A -> bool) (l1 l2 : list A) :
  Permutation l1 l2 -> forallb p l1 = forallb p l2.
Proof.
  induction 1; simpl.
  - reflexivity.
  - now f_equal.
  - destruct (p x), (p y); reflexivity.
  - congruence.
Qed.

(** The scan of a reordered list returns if the scan of the list does. *)
Lemma scan_Permutation (l1 l2 : list value) (a1 : locals) :
  Permutation l1 l2 -> scan l1 = Ret a1 -> exists a2, scan l2 = Ret a2.
Proof.
  intros Hp H1.
  assert (succeeds (scan l2) = true) as H2.
  { rewrite scan_succeeds, <- (forallb_Permutation _ l1 l2 Hp), <- scan_succeeds.
    now rewrite H1. }
  destruct (scan l2) as [a2|]; [eauto | discriminate].
Qed.

(** Every list of rules read back from the API is scanned without panic. *)
Lemma Transform_returns_on_rules (rules : list AccessGroupRule) :
  exists out, TransformAccessGroupForSchema (map ruleJSON rules) = Ret out.
Proof.
  unfold TransformAccessGroupForSchema.
  assert (succeeds (scan (map ruleJSON rules)) = true) as H.
  { rewrite scan_succeeds. apply forallb_forall. intros g Hg.
    apply in_map_iff in Hg as [r [<- _]].
    destruct r; try reflexivity.
    simpl. destruct (Team =? ""); reflexivity. }
  destruct (scan (map ruleJSON rules)) as [a|]; [simpl; eauto | discriminate].
Qed.

Lemma matchedValues_Permutation (k : string) (l1 l2 : list value) :
  Permutation l1 l2 -> Permutation (matchedValues k l1) (matchedValues k l2).
Proof. unfold matchedValues. apply Permutation_flat_map. Qed.

Lemma transform_emits_by_condition_witness :
  TransformAccessGroupForSchema mixedRules
  = Ret [[("everyone", VBool true)];
         [("email", VStrings ["a@x.com"; "b@x.com"])];
         [("geo", VStrings ["NL"])]]
  /\ exists a,
      scan mixedRules = Ret a
      /\ countKey "geo" [[("everyone", VBool true)];
                         [("email", VStrings ["a@x.com"; "b@x.com"])];
                         [("geo", VStrings ["NL"])]]
         = (if (0 <? List.length (geos a))%nat then 1 else 0).
Proof.
  split; [reflexivity|].
  destruct (transform_emits_by_condition mixedRules _ eq_refl) as [a [Ha [H _]]].
  exists a. split; [exact Ha|].
  apply (H "geo" (fun a => (0 <? List.length (geos a))%nat)).
  simpl. do 6 right. left. reflexivity.
Defined.

(** C5 fails as stated: an okta rule whose provider ID is empty leaves a
    value in the okta accumulator, and no okta entry is written. *)
Lemma okta_accumulated_but_not_emitted :
  exists a out,
    scan oktaRuleWithoutProvider = Ret a
    /\ oktaGroups a = ["admins"]
    /\ TransformAccessGroupForSchema oktaRuleWithoutProvider = Ret out
    /\ countKey "okta" out = 0.
Proof.
  do 2 eexists. split; [reflexivity|]. repeat split.
Qed.

(** C2 fails as stated: two everyone rules give two everyone entries. *)
Lemma two_everyone_rules_give_two_entries :
  TransformAccessGroupForSchema twoEveryoneRules
  = Ret [[("everyone", VBool true)]; [("everyone", VBool true)]]
  /\ ~ countKey "everyone" [[("everyone", VBool true)]; [("everyone", VBool true)]] <= 1.
Proof.
  split; [reflexivity|]. vm_compute. lia.
Qed.

(** C6 fails as stated: the same two rules in the two orders give their
    entries in the two orders. *)
Lemma flag_entries_follow_input_order :
  Permutation everyoneThenCertificate certificateThenEveryone
  /\ exists out1 out2,
      TransformAccessGroupForSchema everyoneThenCertificate = Ret out1
      /\ TransformAccessGroupForSchema certificateThenEveryone = Ret out2
      /\ entryKeys out1 = ["everyone"; "certificate"]
      /\ entryKeys out2 = ["certificate"; "everyone"]
      /\ entryKeys out1 <> entryKeys out2.
Proof.
  split; [apply perm_swap|].
  do 2 eexists. repeat split. discriminate.
Qed.

(* ================================================================= *)
(** ** The round trip through the API *)

(** Evaluate assignments to the local variables innermost first, so that
    the record is never copied under its projections. *)
Ltac assignments :=
  cbv beta iota delta
    [set_data set_emails set_emailDomains set_ips set_serviceTokens set_groups
     set_commonName set_authMethod set_geos set_loginMethod set_oktaID
     set_oktaGroups set_gsuiteID set_gsuiteEmails set_githubName set_githubTeams
     set_githubID set_azureID set_azureIDs set_samlAttrName set_samlAttrValue
     set_externalEvaluationURL set_externalEvaluationKeysURL
     set_devicePostureRuleIDs
     data emails emailDomains ips serviceTokens groups commonName authMethod geos
     loginMethod oktaID oktaGroups gsuiteID gsuiteEmails githubName githubTeams
     githubID azureID azureIDs samlAttrName samlAttrValue externalEvaluationURL
     externalEvaluationKeysURL devicePostureRuleIDs].

Lemma assign_twice_list (set : (list string -> list string) -> locals -> locals)
    (k : string) (mk : string -> AccessGroupRule) :
  In (k, mk, set) plainSetters ->
  forall (a : locals) (l1 l2 : list string),
    set (fun l => l ++ l2) (set (fun l => l ++ l1) a) = set (fun l => l ++ l1 ++ l2) a.
Proof.
  intros Hin a l1 l2. simpl in Hin.
  repeat (destruct Hin as [Hin|Hin];
          [injection Hin as <- <- <-; destruct a; assignments;
           now rewrite app_assoc|]).
  contradiction.
Qed.

Lemma assign_nothing (set : (list string -> list string) -> locals -> locals)
    (k : string) (mk : string -> AccessGroupRule) :
  In (k, mk, set) plainSetters ->
  forall a : locals, set (fun l => l ++ []) a = a.
Proof.
  intros Hin a. simpl in Hin.
  repeat (destruct Hin as [Hin|Hin];
          [injection Hin as <- <- <-; destruct a; assignments;
           now rewrite app_nil_r|]).
  contradiction.
Qed.

Lemma scanGroup_plain_rule (set : (list string -> list string) -> locals -> locals)
    (k : string) (mk : string -> AccessGroupRule) (s : string) (a : locals) :
  In (k, mk, set) plainSetters ->
  scanGroup a (ruleJSON (mk s)) = Ret (set (fun l => l ++ [s]) a).
Proof.
  intro Hin. simpl in Hin.
  repeat (destruct Hin as [Hin|Hin]; [injection Hin as <- <- <-; reflexivity|]).
  contradiction.
Qed.

(** Scanning the rules of one plain kind appends their values to the
    kind's accumulator and changes nothing else. *)
Lemma scan_plain_rules (set : (list string -> list string) -> locals -> locals)
    (k : string) (mk : string -> AccessGroupRule) :
  In (k, mk, set) plainSetters ->
  forall (vs : list string) (a : locals),
    forEach (map (fun s => ruleJSON (mk s)) vs) scanGroup a
    = Ret (set (fun l => l ++ vs) a).
Proof.
  intros Hin vs; induction vs as [|s vs IH]; intro a; simpl.
  - now rewrite (assign_nothing set k mk Hin).
  - rewrite (scanGroup_plain_rule set k mk s a Hin). simpl.
    rewrite IH, (assign_twice_list set k mk Hin). reflexivity.
Qed.

Lemma viaAPI_rules (mk : string -> AccessGroupRule) (vs : list string) :
  viaAPI (map (fun s => VStruct (mk s)) vs) = map (fun s => ruleJSON (mk s)) vs.
Proof. unfold viaAPI. now rewrite map_map. Qed.

Lemma plainSetters_kinds (k : string) :
  In k (map fst plainKinds) ->
  exists mk set, In (k, mk) plainKinds /\ In (k, mk, set) plainSetters.
Proof.
  intro H. simpl in H.
  repeat (destruct H as [H|H];
          [subst k; do 2 eexists; split; simpl;
           repeat (try (left; reflexivity); right)|]).
  contradiction.
Qed.

Lemma roundTrip_plain (k : string) (vs : list string) :
  In k (map fst plainKinds) -> vs <> [] ->
  roundTrip [(k, stringList vs)] = Ret [[(k, VStrings vs)]].
Proof.
  intros Hk Hvs. destruct (plainSetters_kinds k Hk) as [mk [set [Hmk Hset]]].
  unfold roundTrip.
  change [(k, stringList vs)] with ([] ++ (k, VSlice (map VString vs)) :: []).
  rewrite (Build_plain_between k mk [] [] vs [] [] Hmk eq_refl eq_refl).
  cbn [bind app]. rewrite app_nil_r, viaAPI_rules.
  unfold TransformAccessGroupForSchema, scan.
  rewrite (scan_plain_rules set k mk Hset). simpl.
  destruct vs as [|v vs]; [congruence|].
  simpl in Hset.
  repeat (destruct Hset as [Hset|Hset]; [injection Hset as <- <- <-; reflexivity|]).
  contradiction.
Qed.

Lemma forEach_build_each (mk : string -> AccessGroupRule)
    (body : list value -> value -> outcome (list value)) :
  (forall g s, body g (VString s) = Ret (g ++ [VStruct (mk s)])) ->
  forall (vs : list string) (g : list value),
    forEach (map VString vs) body g = Ret (g ++ map (fun s => VStruct (mk s)) vs).
Proof.
  intros Hb vs; induction vs as [|s vs IH]; intro g; simpl.
  - now rewrite app_nil_r.
  - rewrite Hb. simpl. rewrite IH, <- app_assoc. reflexivity.
Qed.

Section ProviderRules.

(** Rules that carry one value each and the same provider data: [stamp]
    is the assignment of the provider data, [collect] the assignment to
    the accumulator of the values. *)
Variable mk : string -> AccessGroupRule.
Variable stamp : locals -> locals.
Variable collect : (list string -> list string) -> locals -> locals.
Variable accepted : string -> Prop.

Hypothesis scan_one : forall s a,
    accepted s -> scanGroup a (ruleJSON (mk s)) = Ret (collect (fun l => l ++ [s]) (stamp a)).
Hypothesis collect_again : forall a l1 l2,
    collect (fun l => l ++ l2) (stamp (collect (fun l => l ++ l1) (stamp a)))
    = collect (fun l => l ++ l1 ++ l2) (stamp a).

Lemma scan_provider_rules (vs : list string) (v : string) (a : locals) :
  Forall accepted (v :: vs) ->
  forEach (map (fun s => ruleJSON (mk s)) (v :: vs)) scanGroup a
  = Ret (collect (fun l => l ++ v :: vs) (stamp a)).
Proof.
  revert v a; induction vs as [|w vs IH]; intros v a Hacc.
  - inversion Hacc; subst. cbn [map forEach]. rewrite scan_one by assumption.
    reflexivity.
  - inversion Hacc; subst.
    change (map (fun s => ruleJSON (mk s)) (v :: w :: vs))
      with (ruleJSON (mk v) :: map (fun s => ruleJSON (mk s)) (w :: vs)).
    cbn [forEach]. rewrite scan_one by assumption. cbn [bind].
    rewrite IH by assumption. rewrite collect_again. reflexivity.
Qed.

End ProviderRules.

Lemma Forall_always (vs : list string) : Forall (fun _ => True) vs.
Proof. induction vs; constructor; auto. Qed.

Lemma not_empty_string (s : string) : s <> "" -> exists c rest, s = String c rest.
Proof. destruct s as [|c rest]; [congruence | eauto]. Qed.

Lemma buildOkta_block (idp : string) (names : list string) (g : list value) :
  buildOkta g (VMap [("identity_provider_id", VString idp); ("name", stringList names)])
  = Ret (g ++ map (fun s => VStruct (AccessGroupOkta s idp)) names).
Proof.
  unfold buildOkta, stringList. simpl.
  apply (forEach_build_each (fun s => AccessGroupOkta s idp)).
  intros; reflexivity.
Qed.

Lemma roundTrip_okta (idp : string) (names : list string) :
  idp <> "" -> names <> [] ->
  roundTrip [("okta", VSlice [VMap [("identity_provider_id", VString idp);
                                    ("name", stringList names)]])]
  = Ret [[("okta", VSlice [VMap [("identity_provider_id", VString idp);
                                 ("name", VStrings names)]])]].
Proof.
  intros Hidp Hnames. destruct names as [|n names]; [congruence|].
  apply not_empty_string in Hidp as [c [rest ->]].
  unfold roundTrip, BuildAccessGroupCondition.
  match goal with
  | |- context [forEach [("okta", VSlice [?b])] buildCondition []] =>
      change (forEach [("okta", VSlice [b])] buildCondition [])
        with (s <- (s' <- buildOkta [] b ;; Ret s') ;; Ret s)
  end.
  rewrite buildOkta_block. cbn [bind app]. rewrite viaAPI_rules.
  unfold TransformAccessGroupForSchema, scan.
  rewrite (scan_provider_rules (fun s => AccessGroupOkta s (String c rest))
             (set_oktaID (fun _ => String c rest)) set_oktaGroups (fun _ => True)).
  - vm_compute. reflexivity.
  - intros s a _. vm_compute. reflexivity.
  - intros a l1 l2. destruct a. assignments.
    now rewrite <- app_assoc.
  - apply Forall_always.
Qed.

Lemma buildGSuite_block (idp : string) (addresses : list string) (g : list value) :
  buildGSuite g (VMap [("identity_provider_id", VString idp);
                       ("email", stringList addresses)])
  = Ret (g ++ map (fun s => VStruct (AccessGroupGSuite s idp)) addresses).
Proof.
  unfold buildGSuite, stringList. simpl.
  apply (forEach_build_each (fun s => AccessGroupGSuite s idp)).
  intros; reflexivity.
Qed.

Lemma roundTrip_gsuite (idp : string) (addresses : list string) :
  idp <> "" -> addresses <> [] ->
  roundTrip [("gsuite", VSlice [VMap [("identity_provider_id", VString idp);
                                      ("email", stringList addresses)]])]
  = Ret [[("gsuite", VSlice [VMap [("identity_provider_id", VString idp);
                                   ("email", VStrings addresses)]])]].
Proof.
  intros Hidp Hl. destruct addresses as [|n addresses]; [congruence|].
  apply not_empty_string in Hidp as [c [rest ->]].
  unfold roundTrip, BuildAccessGroupCondition.
  match goal with
  | |- context [forEach [("gsuite", VSlice [?b])] buildCondition []] =>
      change (forEach [("gsuite", VSlice [b])] buildCondition [])
        with (s <- (s' <- buildGSuite [] b ;; Ret s') ;; Ret s)
  end.
  rewrite buildGSuite_block. cbn [bind app]. rewrite viaAPI_rules.
  unfold TransformAccessGroupForSchema, scan.
  rewrite (scan_provider_rules (fun s => AccessGroupGSuite s (String c rest))
             (set_gsuiteID (fun _ => String c rest)) set_gsuiteEmails (fun _ => True)).
  - vm_compute. reflexivity.
  - intros s a _. vm_compute. reflexivity.
  - intros a l1 l2. destruct a. assignments.
    now rewrite <- app_assoc.
  - apply Forall_always.
Qed.

Lemma buildAzure_block (idp : string) (ids : list string) (g : list value) :
  buildAzure g (VMap [("identity_provider_id", VString idp); ("id", stringList ids)])
  = Ret (g ++ map (fun s => VStruct (AccessGroupAzure s idp)) ids).
Proof.
  unfold buildAzure, stringList. simpl.
  apply (forEach_build_each (fun s => AccessGroupAzure s idp)).
  intros; reflexivity.
Qed.

Lemma roundTrip_azure (idp : string) (ids : list string) :
  idp <> "" -> ids <> [] ->
  roundTrip [("azure", VSlice [VMap [("identity_provider_id", VString idp);
                                     ("id", stringList ids)]])]
  = Ret [[("azure", VSlice [VMap [("identity_provider_id", VString idp);
                                  ("id", VStrings ids)]])]].
Proof.
  intros Hidp Hl. destruct ids as [|n ids]; [congruence|].
  apply not_empty_string in Hidp as [c [rest ->]].
  unfold roundTrip, BuildAccessGroupCondition.
  match goal with
  | |- context [forEach [("azure", VSlice [?b])] buildCondition []] =>
      change (forEach [("azure", VSlice [b])] buildCondition [])
        with (s <- (s' <- buildAzure [] b ;; Ret s') ;; Ret s)
  end.
  rewrite buildAzure_block. cbn [bind app]. rewrite viaAPI_rules.
  unfold TransformAccessGroupForSchema, scan.
  rewrite (scan_provider_rules (fun s => AccessGroupAzure s (String c rest))
             (set_azureID (fun _ => String c rest)) set_azureIDs (fun _ => True)).
  - vm_compute. reflexivity.
  - intros s a _. vm_compute. reflexivity.
  - intros a l1 l2. destruct a. assignments.
    now rewrite <- app_assoc.
  - apply Forall_always.
Qed.

Lemma buildGitHub_block (name idp team : string) (teams : list string) (g : list value) :
  buildGitHub g (VMap [("name", VString name); ("teams", stringList (team :: teams));
                       ("identity_provider_id", VString idp)])
  = Ret (g ++ map (fun s => VStruct (AccessGroupGitHub name s idp)) (team :: teams)).
Proof.
  unfold buildGitHub, stringList.
  cbn [assertMap bind]. 
  change (mapIndex _ "teams") with (VSlice (map VString (team :: teams))).
  cbn [assertSlice bind map List.length Nat.ltb Nat.leb].
  apply (forEach_build_each (fun s => AccessGroupGitHub name s idp)
           _ (fun g s => eq_refl) (team :: teams)).
Qed.

Lemma not_in_cons_empty (team : string) (teams : list string) :
  ~ In "" (team :: teams) -> Forall (fun s => s <> "") (team :: teams).
Proof.
  intro H. apply Forall_forall. intros s Hs ->. contradiction.
Qed.

Lemma roundTrip_github (name idp : string) (teams : list string) :
  name <> "" -> idp <> "" -> ~ In "" teams ->
  roundTrip [("github", VSlice [VMap [("name", VString name);
                                      ("teams", stringList teams);
                                      ("identity_provider_id", VString idp)]])]
  = Ret [[("github", VSlice [VMap [("name", VString name);
                                   ("teams", VStrings teams);
                                   ("identity_provider_id", VString idp)]])]].
Proof.
  intros Hname Hidp Hteams.
  apply not_empty_string in Hidp as [c [rest ->]].
  apply not_empty_string in Hname as [c' [rest' ->]].
  destruct teams as [|team teams]; [vm_compute; reflexivity|].
  unfold roundTrip, BuildAccessGroupCondition.
  match goal with
  | |- context [forEach [("github", VSlice [?b])] buildCondition []] =>
      change (forEach [("github", VSlice [b])] buildCondition [])
        with (s <- (s' <- buildGitHub [] b ;; Ret s') ;; Ret s)
  end.
  rewrite buildGitHub_block. cbn [bind app]. rewrite viaAPI_rules.
  unfold TransformAccessGroupForSchema, scan.
  rewrite (scan_provider_rules
             (fun s => AccessGroupGitHub (String c' rest') s (String c rest))
             (fun a => set_githubName (fun _ => String c' rest')
                         (set_githubID (fun _ => String c rest) a))
             set_githubTeams (fun s => s <> "")).
  - vm_compute. reflexivity.
  - intros s a Hs. apply not_empty_string in Hs as [c0 [rest0 ->]].
    vm_compute. reflexivity.
  - intros a l1 l2. destruct a. assignments.
    now rewrite <- app_assoc.
  - now apply not_in_cons_empty.
Qed.

Lemma roundTrip_external_evaluation (evaluateURL keysURL : string) :
  evaluateURL <> "" -> keysURL <> "" ->
  roundTrip [("external_evaluation",
              VSlice [VMap [("evaluate_url", VString evaluateURL);
                            ("keys_url", VString keysURL)]])]
  = Ret [[("external_evaluation",
           VSlice [VMap [("evaluate_url", VString evaluateURL);
                         ("keys_url", VString keysURL)]])]].
Proof.
  intros He Hk.
  apply not_empty_string in He as [c [rest ->]].
  apply not_empty_string in Hk as [c' [rest' ->]].
  vm_compute. reflexivity.
Qed.

Lemma roundTrip_common_name (s : string) :
  s <> "" -> roundTrip [("common_name", VString s)] = Ret [[("common_name", VString s)]].
Proof.
  intro H. apply not_empty_string in H as [c [rest ->]]. vm_compute. reflexivity.
Qed.

Lemma roundTrip_auth_method (s : string) :
  s <> "" -> roundTrip [("auth_method", VString s)] = Ret [[("auth_method", VString s)]].
Proof.
  intro H. apply not_empty_string in H as [c [rest ->]]. vm_compute. reflexivity.
Qed.

Lemma roundTrip_flag (k : string) :
  isFlagKey k = true -> roundTrip [(k, VBool true)] = Ret [[(k, VBool true)]].
Proof.
  unfold isFlagKey. intro H.
  apply orb_prop in H as [H|H]; [apply orb_prop in H as [H|H]|];
    apply String.eqb_eq in H; subst k; vm_compute; reflexivity.
Qed.

(** *** Equality of schema values on lists of strings *)

Lemma valueEqb_stringList (vs : list string) :
  valueEqb (stringList vs) (stringList vs) = true.
Proof.
  unfold stringList. induction vs as [|s vs IH]; [reflexivity|].
  simpl. rewrite String.eqb_refl. exact IH.
Qed.

Lemma schemaValue_stringList (vs : list string) :
  schemaValue (stringList vs) = stringList vs.
Proof.
  unfold stringList. simpl. rewrite map_map. reflexivity.
Qed.

Lemma schemaValue_VStrings (vs : list string) :
  schemaValue (VStrings vs) = stringList vs.
Proof. reflexivity. Qed.

(** Two single blocks are the same schema value when they agree up to
    [[]string] against [[]interface{}] in the marked places. *)
Ltac same_schema vs :=
  unfold sameSchema;
  cbn [map schemaValue fst snd];
  change (VSlice (map schemaValue (map VString vs)))
    with (schemaValue (stringList vs));
  change (VSlice (map VString vs)) with (stringList vs);
  rewrite ?schemaValue_stringList;
  generalize (valueEqb_stringList vs); generalize (stringList vs);
  intros X HX; simpl; rewrite ?String.eqb_refl, ?HX; reflexivity.

(** C1, as amended.  A block with a single key whose value is not empty
    comes back from the API as itself: a flag set to true, a non-empty list
    of strings of a plain kind, a non-empty common_name or auth_method, one
    okta, gsuite or azure block with a provider ID and at least one value,
    one github block with a name, a provider ID and teams none of which is
    the empty string, one external_evaluation block with both URLs. *)
Theorem faithful_block_round_trip (options : gomap) :
  faithfulBlock options ->
  exists out, roundTrip options = Ret out /\ sameSchema out [options] = true.
Proof.
  intro H. destruct H.
  - rewrite roundTrip_flag by assumption. eexists; split; [reflexivity|].
    unfold sameSchema. simpl. now rewrite String.eqb_refl.
  - rewrite roundTrip_plain by assumption. eexists; split; [reflexivity|].
    same_schema vs.
  - rewrite roundTrip_common_name by assumption. eexists; split; [reflexivity|].
    unfold sameSchema. simpl. now rewrite !String.eqb_refl.
  - rewrite roundTrip_auth_method by assumption. eexists; split; [reflexivity|].
    unfold sameSchema. simpl. now rewrite !String.eqb_refl.
  - rewrite roundTrip_okta by assumption. eexists; split; [reflexivity|].
    same_schema names.
  - rewrite roundTrip_gsuite by assumption. eexists; split; [reflexivity|].
    same_schema addresses.
  - rewrite roundTrip_azure by assumption. eexists; split; [reflexivity|].
    same_schema ids.
  - rewrite roundTrip_github by assumption. eexists; split; [reflexivity|].
    same_schema teams.
  - rewrite roundTrip_external_evaluation by assumption.
    eexists; split; [reflexivity|].
    unfold sameSchema. simpl. now rewrite !String.eqb_refl.
Qed.

Lemma faithful_block_round_trip_witness :
  faithfulBlock emailBlock
  /\ exists out, roundTrip emailBlock = Ret out /\ sameSchema out [emailBlock] = true.
Proof.
  assert (faithfulBlock emailBlock) as H.
  { apply (faithful_plain "email" ["a@x.com"; "b@x.com"]).
    - simpl. left. reflexivity.
    - discriminate. }
  split; [exact H|]. exact (faithful_block_round_trip emailBlock H).
Defined.

(** The example of the specification, evaluated: two email rules, and back
    to the two addresses under the key email. *)
Lemma email_round_trip :
  BuildAccessGroupCondition emailBlock
  = Ret [VStruct (AccessGroupEmail "a@x.com"); VStruct (AccessGroupEmail "b@x.com")]
  /\ roundTrip emailBlock = Ret [[("email", VStrings ["a@x.com"; "b@x.com"])]].
Proof. split; reflexivity. Qed.

(** Without the API in between, the rule structs are not the maps
    [TransformAccessGroupForSchema] asserts: the composition panics. *)
Lemma direct_composition_panics : roundTripDirect emailBlock = Panic.
Proof. reflexivity. Qed.

(** C1 fails as stated: two okta blocks of two providers come back as one
    block, with the names of both under the provider of the second. *)
Lemma okta_two_providers_not_restored :
  roundTrip oktaTwoProviders
  = Ret [[("okta", VSlice [VMap [("identity_provider_id", VString "idp-2");
                                 ("name", VStrings ["admins"; "guests"])]])]]
  /\ sameSchema
       [[("okta", VSlice [VMap [("identity_provider_id", VString "idp-2");
                                ("name", VStrings ["admins"; "guests"])]])]]
       [oktaTwoProviders] = false.
Proof. split; reflexivity. Qed.

(** A saml block comes back without its provider ID. *)
Lemma saml_provider_not_restored :
  roundTrip samlBlock
  = Ret [[("saml", VSlice [VMap [("attribute_name", VString "group");
                                 ("attribute_value", VString "admins")]])]].
Proof. reflexivity. Qed.

Lemma append_keeps_last_block_witness :
  appendConditionalAccessGroupFields exampleGroup exampleBlocks
  = Ret (AccessGroup.withExclude [VStruct (AccessGroupGeo "NL")] exampleGroup)
  /\ BuildAccessGroupCondition [("geo", stringList ["NL"])]
     = Ret (AccessGroup.Exclude
              (AccessGroup.withExclude [VStruct (AccessGroupGeo "NL")] exampleGroup)).
Proof.
  split; [reflexivity|].
  apply (proj1 (append_keeps_last_block exampleGroup _ exampleBlocks eq_refl)
           [VMap [("email", stringList ["a@x.com"])]] [("geo", stringList ["NL"])] [VNil]).
  - reflexivity.
  - reflexivity.
Defined.

(* ================================================================= *)
(** ** resourceCloudflareAccessGroupRead *)



Section AccessGroupRead.

Variable Sprintf : string -> list string -> string.
Variable dSet : string -> value -> ResourceData -> ResourceData * option goerror.
Variable initIdentifier : ResourceData -> reply AccessIdentifier.


End AccessGroupRead.



(* ================================================================= *)
(** ** dataSourceCloudflareWAFRulesRead *)

Section WAFRules.

Variable dSet : string -> value -> ResourceData -> ResourceData * option goerror.
Variable stringListChecksum : list string -> string.
Context {Regexp : Type}.
Variable regexpCompile : string -> reply Regexp.
Variable regexpMatch : Regexp -> string -> bool.

Variable client : API.
Variable zoneID : string.
Variable filter : @searchFilterWAFRules Regexp.

(** The inner loop: what it leaves in [foundGroup] and in the slices. *)
Lemma scanRule_found (pkg : WAFPackage.t) (rule : WAFRule.t)
    (found : bool) (l : listing) :
  fst (scanRule regexpMatch filter pkg (found, l) rule)
  = found || (negb (filterGroupID filter =? "") && inGroup filter rule).
Proof.
  unfold scanRule, inGroup.
  destruct (filterGroupID filter =? "");
    destruct (filterGroupID filter =? WAFRule.GroupID rule);
    destruct (filterDescription filter) as [re|];
    try destruct (regexpMatch re (WAFRule.Description rule));
    destruct (filterMode filter =? "");
    destruct (filterMode filter =? WAFRule.Mode rule);
    destruct found; reflexivity.
Qed.

Lemma scanRules_found (pkg : WAFPackage.t) (ruleList : list WAFRule.t)
    (found : bool) (l : listing) :
  fst (fold_left (scanRule regexpMatch filter pkg) ruleList (found, l))
  = found || (negb (filterGroupID filter =? "") && existsb (inGroup filter) ruleList).
Proof.
  revert found l; induction ruleList as [|rule rest IH]; intros found l;
    cbn [fold_left existsb].
  - now rewrite andb_false_r, orb_false_r.
  - pose proof (scanRule_found pkg rule found l) as H1.
    destruct (scanRule regexpMatch filter pkg (found, l) rule) as [found1 l1].
    simpl in H1. rewrite IH, H1.
    destruct found, (negb (filterGroupID filter =? "")), (inGroup filter rule);
      reflexivity.
Qed.

Lemma scanRule_selects (pkg : WAFPackage.t) (rule : WAFRule.t)
    (found : bool) (l : listing) :
  let l' := snd (scanRule regexpMatch filter pkg (found, l) rule) in
  queried l' = queried l
  /\ ruleDetails l'
     = ruleDetails l ++ (if passesFilter regexpMatch filter rule
                         then [ruleDetail pkg rule] else [])
  /\ ruleIds l'
     = ruleIds l ++ (if passesFilter regexpMatch filter rule
                     then [WAFRule.ID rule] else []).
Proof.
  unfold scanRule, passesFilter.
  destruct (filterGroupID filter =? "");
    destruct (filterGroupID filter =? WAFRule.GroupID rule);
    destruct (filterDescription filter) as [re|];
    try destruct (regexpMatch re (WAFRule.Description rule));
    destruct (filterMode filter =? "");
    destruct (filterMode filter =? WAFRule.Mode rule);
    simpl; rewrite ?app_nil_r; auto.
Qed.

Lemma scanRules_select (pkg : WAFPackage.t) (ruleList : list WAFRule.t)
    (found : bool) (l : listing) :
  let l' := snd (fold_left (scanRule regexpMatch filter pkg) ruleList (found, l)) in
  queried l' = queried l
  /\ ruleDetails l'
     = ruleDetails l
       ++ map (ruleDetail pkg) (List.filter (passesFilter regexpMatch filter) ruleList)
  /\ ruleIds l'
     = ruleIds l
       ++ map WAFRule.ID (List.filter (passesFilter regexpMatch filter) ruleList).
Proof.
  revert found l; induction ruleList as [|rule rest IH]; intros found l;
    cbv zeta; cbn [fold_left List.filter].
  - simpl. now rewrite !app_nil_r.
  - destruct (scanRule_selects pkg rule found l) as [Hq [Hd Hi]].
    destruct (scanRule regexpMatch filter pkg (found, l) rule) as [found1 l1].
    simpl in Hq, Hd, Hi.
    destruct (IH found1 l1) as [Hq' [Hd' Hi']].
    rewrite Hq', Hd', Hi', Hq, Hd, Hi.
    destruct (passesFilter regexpMatch filter rule); simpl;
      rewrite <- ?app_assoc; simpl; rewrite ?app_nil_r; auto.
Qed.

(** The outer loop stops at the first package with a rule of the group
    asked for, if it gets there. *)
Lemma scanPackages_stops (pre post : list WAFPackage.t) (pkg : WAFPackage.t)
    (ruleList : list WAFRule.t) (l : listing) :
  filterGroupID filter <> "" ->
  clientListWAFRules client zoneID (WAFPackage.ID pkg) = OK ruleList ->
  existsb (inGroup filter) ruleList = true ->
  exists rest,
    queried l ++ map WAFPackage.ID (pre ++ [pkg])
    = queried (fst (scanPackages regexpMatch client zoneID filter
                      (pre ++ pkg :: post) l)) ++ rest.
Proof.
  intros Hg Hlist Hex.
  assert ((filterGroupID filter =? "") = false) as Eg
    by (apply String.eqb_neq; exact Hg).
  revert l; induction pre as [|p pre IH]; intro l; simpl.
  - rewrite Hlist.
    match goal with
    | |- context [fold_left ?f ruleList (false, ?l0)] =>
        pose proof (scanRules_found pkg ruleList false l0) as Hf;
        destruct (scanRules_select pkg ruleList false l0) as [Hq _];
        destruct (fold_left f ruleList (false, l0)) as [found l1]
    end.
    simpl in Hf, Hq. rewrite Eg, Hex in Hf. simpl in Hf. subst found.
    exists []. simpl. now rewrite Hq, app_nil_r.
  - destruct (clientListWAFRules client zoneID (WAFPackage.ID p)) as [rules|e].
    + match goal with
      | |- context [fold_left ?f rules (false, ?l0)] =>
          destruct (scanRules_select p rules false l0) as [Hq _];
          destruct (fold_left f rules (false, l0)) as [found l1]
      end.
      simpl in Hq. destruct found.
      * exists (map WAFPackage.ID (pre ++ [pkg])). simpl.
        rewrite Hq. simpl. now rewrite <- app_assoc.
      * destruct (IH l1) as [rest Hrest]. exists rest.
        rewrite <- Hrest, Hq. simpl. now rewrite <- app_assoc.
    + exists (map WAFPackage.ID (pre ++ [pkg])). simpl. now rewrite <- app_assoc.
Qed.

(** It does get there when every package before lists its rules and holds
    no rule of the group. *)
Lemma scanPackages_reaches (pre post : list WAFPackage.t) (pkg : WAFPackage.t)
    (ruleList : list WAFRule.t) (l : listing) :
  filterGroupID filter <> "" ->
  clientListWAFRules client zoneID (WAFPackage.ID pkg) = OK ruleList ->
  existsb (inGroup filter) ruleList = true ->
  Forall (fun p => exists rules,
              clientListWAFRules client zoneID (WAFPackage.ID p) = OK rules
              /\ existsb (inGroup filter) rules = false) pre ->
  queried (fst (scanPackages regexpMatch client zoneID filter (pre ++ pkg :: post) l))
  = queried l ++ map WAFPackage.ID (pre ++ [pkg]).
Proof.
  intros Hg Hlist Hex Hpre.
  assert ((filterGroupID filter =? "") = false) as Eg
    by (apply String.eqb_neq; exact Hg).
  revert l; induction Hpre as [|p pre [rules [Hp Hno]] _ IH]; intro l; simpl.
  - rewrite Hlist.
    match goal with
    | |- context [fold_left ?f ruleList (false, ?l0)] =>
        pose proof (scanRules_found pkg ruleList false l0) as Hf;
        destruct (scanRules_select pkg ruleList false l0) as [Hq _];
        destruct (fold_left f ruleList (false, l0)) as [found l1]
    end.
    simpl in Hf, Hq. rewrite Eg, Hex in Hf. simpl in Hf. subst found.
    simpl. exact Hq.
  - rewrite Hp.
    match goal with
    | |- context [fold_left ?f rules (false, ?l0)] =>
        pose proof (scanRules_found p rules false l0) as Hf;
        destruct (scanRules_select p rules false l0) as [Hq _];
        destruct (fold_left f rules (false, l0)) as [found l1]
    end.
    simpl in Hf, Hq. rewrite Hno, andb_false_r in Hf. simpl in Hf. subst found.
    rewrite IH, Hq. simpl. now rewrite <- app_assoc.
Qed.

Lemma ruleDetail_injective (pkg pkg' : WAFPackage.t) (rule rule' : WAFRule.t) :
  ruleDetail pkg rule = ruleDetail pkg' rule' -> rule = rule'.
Proof.
  destruct rule, rule'. unfold ruleDetail. simpl. intro H.
  injection H as -> -> -> -> -> -> _ -> ->. reflexivity.
Qed.

(** The listing loop goes through [packagesScanned].  It ends without
    error when each of them lists its rules, and then holds the rules of
    each that pass the filter; otherwise it ends with the error of the one
    that does not. *)
Lemma scanPackages_scanned (pkgList : list WAFPackage.t) (l : listing) :
  queried (fst (scanPackages regexpMatch client zoneID filter pkgList l))
  = queried l ++ map WAFPackage.ID (packagesScanned client zoneID filter pkgList)
  /\ if forallb (listed client zoneID) (packagesScanned client zoneID filter pkgList)
     then snd (scanPackages regexpMatch client zoneID filter pkgList l) = None
          /\ ruleDetails (fst (scanPackages regexpMatch client zoneID filter pkgList l))
             = ruleDetails l
               ++ flat_map (selectedRules regexpMatch client zoneID filter)
                    (packagesScanned client zoneID filter pkgList)
     else exists pkg err,
         In pkg (packagesScanned client zoneID filter pkgList)
         /\ clientListWAFRules client zoneID (WAFPackage.ID pkg) = Err err
         /\ snd (scanPackages regexpMatch client zoneID filter pkgList l) = Some err.
Proof.
  revert l; induction pkgList as [|pkg pkgs IH]; intro l.
  - simpl. now rewrite !app_nil_r.
  - cbn [scanPackages packagesScanned].
    destruct (clientListWAFRules client zoneID (WAFPackage.ID pkg))
      as [rules|e] eqn:Hlist.
    + match goal with
      | |- context [fold_left ?f rules (false, ?l0)] =>
          pose proof (scanRules_found pkg rules false l0) as Hf;
          destruct (scanRules_select pkg rules false l0) as [Hq [Hd _]];
          destruct (fold_left f rules (false, l0)) as [found l1]
      end.
      cbn [fst snd orb] in Hf, Hq, Hd. cbn [queried ruleDetails] in Hq, Hd.
      rewrite <- Hf. destruct found.
      * cbn [fst snd forallb map flat_map]. unfold listed at 1. rewrite Hlist.
        cbn [andb]. unfold selectedRules. rewrite Hlist, Hq, Hd, app_nil_r. auto.
      * destruct (IH l1) as [IHq IHr].
        cbn [forallb map flat_map]. unfold listed at 1. rewrite Hlist. cbn [andb].
        split; [rewrite IHq, Hq, <- app_assoc; reflexivity|].
        destruct (forallb (listed client zoneID)
                    (packagesScanned client zoneID filter pkgs)).
        -- destruct IHr as [He Hr]. split; [exact He|].
           rewrite Hr, Hd. unfold selectedRules at 2. rewrite Hlist.
           now rewrite <- app_assoc.
        -- destruct IHr as [p [err [Hp [Herr He]]]].
           exists p, err. split; [now right|]. split; assumption.
    + cbn [fst snd forallb map queried]. unfold listed. rewrite Hlist. cbn [andb].
      split; [reflexivity|]. exists pkg, e. split; [now left|]. split; [assumption|reflexivity].
Qed.

Variable d : ResourceData.
Variable packageID : string.
Hypothesis zone_given : assertString (Get d "zone_id") = Ret zoneID.
Hypothesis filter_given :
  expandFilterWAFRules regexpCompile (Get d "filter") = Ret (OK filter).
Hypothesis package_given : assertString (Get d "package_id") = Ret packageID.

(** The read returns, and what it reports comes from the listing loop. *)
Lemma read_runs_scan (pkgList : list WAFPackage.t) :
  packageList client zoneID packageID = OK pkgList ->
  exists r,
    dataSourceCloudflareWAFRulesRead dSet stringListChecksum regexpCompile
      regexpMatch client d = Ret r
    /\ resultQueried r
       = queried (fst (scanPackages regexpMatch client zoneID filter pkgList
                         {| ruleIds := []; ruleDetails := []; queried := [] |}))
    /\ (resultDiag r = None ->
        exists l,
          scanPackages regexpMatch client zoneID filter pkgList
            {| ruleIds := []; ruleDetails := []; queried := [] |} = (l, None)
          /\ resultRules r = ruleDetails l).
Proof.
  intro Hp. unfold dataSourceCloudflareWAFRulesRead.
  rewrite zone_given. cbn [bind]. rewrite filter_given. cbn [bind].
  rewrite package_given. cbn [bind]. rewrite Hp.
  destruct (scanPackages regexpMatch client zoneID filter pkgList _) as [l [e|]].
  - eexists. split; [reflexivity|]. split; [reflexivity|]. discriminate.
  - destruct (dSet "rules" (VSlice (ruleDetails l)) d) as [d' [e|]].
    + eexists. split; [reflexivity|]. split; [reflexivity|]. discriminate.
    + eexists. split; [reflexivity|]. split; [reflexivity|]. eauto.
Qed.

(** C3. With a group_id filter set, once the rules of a package hold a
    rule of that group, no package after it is asked for its rules: the
    package IDs passed to ListWAFRules are a prefix of those up to and
    including that package, and they are exactly those when every package
    before it lists its rules and holds no rule of the group. *)
Theorem group_match_stops_scan
    (pre post : list WAFPackage.t) (pkg : WAFPackage.t) (ruleList : list WAFRule.t) :
  packageList client zoneID packageID = OK (pre ++ pkg :: post) ->
  filterGroupID filter <> "" ->
  clientListWAFRules client zoneID (WAFPackage.ID pkg) = OK ruleList ->
  existsb (inGroup filter) ruleList = true ->
  exists r rest,
    dataSourceCloudflareWAFRulesRead dSet stringListChecksum regexpCompile
      regexpMatch client d = Ret r
    /\ map WAFPackage.ID (pre ++ [pkg]) = resultQueried r ++ rest
    /\ (Forall (fun p => exists rules,
                    clientListWAFRules client zoneID (WAFPackage.ID p) = OK rules
                    /\ existsb (inGroup filter) rules = false) pre ->
        resultQueried r = map WAFPackage.ID (pre ++ [pkg])).
Proof.
  intros Hp Hg Hlist Hex.
  destruct (read_runs_scan (pre ++ pkg :: post) Hp) as [r [Hr [Hq _]]].
  destruct (scanPackages_stops pre post pkg ruleList
              {| ruleIds := []; ruleDetails := []; queried := [] |} Hg Hlist Hex)
    as [rest Hrest].
  exists r, rest. split; [exact Hr|]. rewrite Hq. split; [exact Hrest|].
  intro Hpre.
  exact (scanPackages_reaches pre post pkg ruleList
           {| ruleIds := []; ruleDetails := []; queried := [] |} Hg Hlist Hex Hpre).
Qed.

(** C7, as amended.  The read goes through the packages up to and
    including the first one that cannot be listed or that holds a rule of
    the group asked for.  When each of them lists its rules, the rules
    handed to d.Set are, package by package, the rules that pass the three
    filters together: a rule of a scanned package is among them if and only
    if its description matches, its mode is the one asked for and its group
    is the one asked for, each filter counting as passed when it is not
    set.  When one of them cannot be listed, the read returns that error
    and emits no rule at all. *)
Theorem emitted_rules_pass_filter (pkgList : list WAFPackage.t) :
  packageList client zoneID packageID = OK pkgList ->
  exists r,
    dataSourceCloudflareWAFRulesRead dSet stringListChecksum regexpCompile
      regexpMatch client d = Ret r
    /\ resultQueried r
       = map WAFPackage.ID (packagesScanned client zoneID filter pkgList)
    /\ if forallb (listed client zoneID) (packagesScanned client zoneID filter pkgList)
       then
         resultRules r
         = flat_map (selectedRules regexpMatch client zoneID filter)
             (packagesScanned client zoneID filter pkgList)
         /\ (forall pkg ruleList rule,
                In pkg (packagesScanned client zoneID filter pkgList) ->
                clientListWAFRules client zoneID (WAFPackage.ID pkg) = OK ruleList ->
                In rule ruleList ->
                (In (ruleDetail pkg rule) (resultRules r)
                 <-> passesFilter regexpMatch filter rule = true))
         /\ resultDiag r
            = match snd (dSet "rules" (VSlice (resultRules r)) d) with
              | Some err => Some (wrapError "error setting WAF rules: %w" [] err)
              | None => None
              end
       else
         resultRules r = []
         /\ exists pkg err,
             In pkg (packagesScanned client zoneID filter pkgList)
             /\ clientListWAFRules client zoneID (WAFPackage.ID pkg) = Err err
             /\ resultDiag r = Some err.
Proof.
  intro Hp. unfold dataSourceCloudflareWAFRulesRead.
  rewrite zone_given. cbn [bind]. rewrite filter_given. cbn [bind].
  rewrite package_given. cbn [bind]. rewrite Hp.
  destruct (scanPackages_scanned pkgList
              {| ruleIds := []; ruleDetails := []; queried := [] |}) as [Hq Hr].
  cbn [queried ruleDetails app] in Hq, Hr.
  destruct (scanPackages regexpMatch client zoneID filter pkgList _) as [l e].
  cbn [fst snd] in Hq, Hr.
  destruct (forallb (listed client zoneID)
              (packagesScanned client zoneID filter pkgList)).
  - destruct Hr as [-> Hd].
    assert (forall pkg ruleList rule,
               In pkg (packagesScanned client zoneID filter pkgList) ->
               clientListWAFRules client zoneID (WAFPackage.ID pkg) = OK ruleList ->
               In rule ruleList ->
               (In (ruleDetail pkg rule) (ruleDetails l)
                <-> passesFilter regexpMatch filter rule = true)) as Hiff.
    { intros pkg ruleList rule Hpkg Hlist Hrule. rewrite Hd. split.
      - intro Hin. apply in_flat_map in Hin as [pkg' [_ Hin]].
        unfold selectedRules in Hin.
        destruct (clientListWAFRules client zoneID (WAFPackage.ID pkg'));
          [|contradiction].
        apply in_map_iff in Hin as [rule' [Heq Hin]].
        apply ruleDetail_injective in Heq. subst rule'.
        now apply filter_In in Hin.
      - intro Hpass. apply in_flat_map. exists pkg. split; [assumption|].
        unfold selectedRules. rewrite Hlist. apply in_map. apply filter_In. auto. }
    destruct (dSet "rules" (VSlice (ruleDetails l)) d) as [d' [err|]] eqn:Hset;
      eexists; (split; [reflexivity|]); cbn [resultQueried resultRules resultDiag];
      rewrite Hset; cbn [snd]; auto.
  - destruct Hr as [pkg [err [Hin [Hlist ->]]]].
    eexists. split; [reflexivity|]. cbn [resultQueried resultRules resultDiag].
    split; [exact Hq|]. split; [reflexivity|]. eauto.
Qed.

End WAFRules.

Lemma group_match_stops_scan_witness :
  exists r rest,
    dataSourceCloudflareWAFRulesRead exampleSet (String.concat ",")
      (fun s => OK s) (fun re s => stringsContains s re) exampleClient exampleWAFData
    = Ret r
    /\ map WAFPackage.ID ([{| WAFPackage.ID := "p1" |}] ++ [{| WAFPackage.ID := "p2" |}])
       = resultQueried r ++ rest.
Proof.
  destruct (group_match_stops_scan exampleSet (String.concat ",") (fun s => OK s)
           (fun re s => stringsContains s re) exampleClient "zone-1" exampleFilter
           exampleWAFData "" eq_refl eq_refl eq_refl
           [{| WAFPackage.ID := "p1" |}] [{| WAFPackage.ID := "p3" |}]
           {| WAFPackage.ID := "p2" |}
           [exampleRule "r2" "g2" "on"; exampleRule "r3" "g2" "off"]
           eq_refl ltac:(discriminate) eq_refl eq_refl)
    as [r [rest [H1 [H2 _]]]].
  exists r, rest. split; assumption.
Defined.

(** The example read, evaluated: the third package is not asked for its
    rules, and of the two rules of the group only the one in mode on is
    emitted. *)
Lemma example_read_evaluated :
  exists r,
    dataSourceCloudflareWAFRulesRead exampleSet (String.concat ",")
      (fun s => OK s) (fun re s => stringsContains s re) exampleClient exampleWAFData
    = Ret r
    /\ resultDiag r = None
    /\ resultQueried r = ["p1"; "p2"]
    /\ resultRules r
       = [ruleDetail {| WAFPackage.ID := "p2" |} (exampleRule "r2" "g2" "on")]
    /\ Id (resultData r) = "r2".
Proof. eexists. split; [reflexivity|]. repeat split. Qed.

Lemma emitted_rules_pass_filter_witness :
  packagesScanned exampleClient "zone-1" exampleFilter
    [{| WAFPackage.ID := "p1" |}; {| WAFPackage.ID := "p2" |};
     {| WAFPackage.ID := "p3" |}]
  = [{| WAFPackage.ID := "p1" |}; {| WAFPackage.ID := "p2" |}]
  /\ (exists r,
         dataSourceCloudflareWAFRulesRead exampleSet (String.concat ",")
           (fun s => OK s) (fun re s => stringsContains s re) exampleClient
           exampleWAFData
         = Ret r
         /\ resultQueried r = ["p1"; "p2"]
         /\ resultRules r
            = [ruleDetail {| WAFPackage.ID := "p2" |} (exampleRule "r2" "g2" "on")]
         /\ (In (ruleDetail {| WAFPackage.ID := "p2" |} (exampleRule "r3" "g2" "off"))
               (resultRules r)
             <-> passesFilter (fun re s => stringsContains s re) exampleFilter
                   (exampleRule "r3" "g2" "off") = true)
         /\ resultDiag r = None)
  /\ exists r err,
      dataSourceCloudflareWAFRulesRead exampleSet (String.concat ",")
        (fun s => OK s) (fun re s => stringsContains s re) exampleFailingClient
        (exampleUnfilteredData "")
      = Ret r
      /\ resultQueried r = ["p1"; "p2"]
      /\ resultRules r = []
      /\ resultDiag r = Some err.
Proof.
  split; [reflexivity|]. split.
  - destruct (emitted_rules_pass_filter exampleSet (String.concat ",") (fun s => OK s)
                (fun re s => stringsContains s re) exampleClient "zone-1" exampleFilter
                exampleWAFData "" eq_refl eq_refl eq_refl
                [{| WAFPackage.ID := "p1" |}; {| WAFPackage.ID := "p2" |};
                 {| WAFPackage.ID := "p3" |}] eq_refl)
      as [r [Hr [Hq H]]].
    assert (forallb (listed exampleClient "zone-1")
              (packagesScanned exampleClient "zone-1" exampleFilter
                 [{| WAFPackage.ID := "p1" |}; {| WAFPackage.ID := "p2" |};
                  {| WAFPackage.ID := "p3" |}]) = true) as E by reflexivity.
    rewrite E in H. destruct H as [Hrules [Hiff Hdiag]].
    exists r. split; [exact Hr|]. split; [exact Hq|]. split; [exact Hrules|].
    split.
    + apply (Hiff {| WAFPackage.ID := "p2" |}
               [exampleRule "r2" "g2" "on"; exampleRule "r3" "g2" "off"]).
      * right. left. reflexivity.
      * reflexivity.
      * right. left. reflexivity.
    + rewrite Hdiag. reflexivity.
  - destruct (emitted_rules_pass_filter exampleSet (String.concat ",") (fun s => OK s)
                (fun re s => stringsContains s re) exampleFailingClient "zone-1"
                emptyFilter (exampleUnfilteredData "") "" eq_refl eq_refl eq_refl
                [{| WAFPackage.ID := "p1" |}; {| WAFPackage.ID := "p2" |};
                 {| WAFPackage.ID := "p3" |}] eq_refl)
      as [r [Hr [Hq H]]].
    assert (forallb (listed exampleFailingClient "zone-1")
              (packagesScanned exampleFailingClient "zone-1" (@emptyFilter string)
                 [{| WAFPackage.ID := "p1" |}; {| WAFPackage.ID := "p2" |};
                  {| WAFPackage.ID := "p3" |}]) = false) as E by reflexivity.
    rewrite E in H. destruct H as [Hrules [pkg [err [_ [_ Hdiag]]]]].
    exists r, err. split; [exact Hr|]. split; [exact Hq|]. split; assumption.
Defined.

(** C7 fails as stated: the first package is scanned and its rule passes
    the filters, none being set, but the second package cannot be listed,
    and the read emits no rule. *)
Lemma passing_rule_lost_when_later_listing_fails :
  exists r,
    dataSourceCloudflareWAFRulesRead exampleSet (String.concat ",")
      (fun s => OK s) (fun re s => stringsContains s re) exampleFailingClient
      (exampleUnfilteredData "")
    = Ret r
    /\ resultQueried r = ["p1"; "p2"]
    /\ clientListWAFRules exampleFailingClient "zone-1" "p1"
       = OK [exampleRule "r1" "g1" "on"]
    /\ passesFilter (fun re s => stringsContains s re) emptyFilter
         (exampleRule "r1" "g1" "on") = true
    /\ ~ In (ruleDetail {| WAFPackage.ID := "p1" |} (exampleRule "r1" "g1" "on"))
           (resultRules r).
Proof.
  eexists. split; [reflexivity|]. repeat split. intros [].
Qed.

(* ================================================================= *)
(** ** Further properties of BuildAccessGroupCondition *)

Lemma Build_cons (entry : string * value) (options : gomap) :
  BuildAccessGroupCondition (entry :: options)
  = (r <- buildCondition [] entry ;;
     b <- BuildAccessGroupCondition options ;;
     Ret (r ++ b)).
Proof. exact (Build_entries [] options entry). Qed.

(** X1. The conditions built from a map are those built from its entries,
    key by key in the order the map is iterated: building from the entries
    of two maps one after the other gives the conditions of the first
    followed by those of the second, and panics when either does. *)
Theorem build_concatenates (m1 m2 : gomap) :
  BuildAccessGroupCondition (m1 ++ m2)
  = (a <- BuildAccessGroupCondition m1 ;;
     b <- BuildAccessGroupCondition m2 ;;
     Ret (a ++ b)).
Proof.
  induction m1 as [|entry m1 IH].
  - simpl. destruct (BuildAccessGroupCondition m2); reflexivity.
  - change ((entry :: m1) ++ m2) with (entry :: (m1 ++ m2)).
    rewrite !Build_cons, IH.
    destruct (buildCondition [] entry) as [r|]; [|reflexivity]. cbn [bind].
    destruct (BuildAccessGroupCondition m1) as [a|]; [|reflexivity]. cbn [bind].
    destruct (BuildAccessGroupCondition m2) as [b|]; [|reflexivity]. cbn [bind].
    now rewrite app_assoc.
Qed.

(** X2. Go leaves the iteration order of a map open: whichever order the
    entries are visited in, [BuildAccessGroupCondition] returns in all
    orders or in none, and builds the same rules up to their order. *)
Theorem build_order_independent (m1 m2 : gomap) (c1 : list value) :
  Permutation m1 m2 ->
  BuildAccessGroupCondition m1 = Ret c1 ->
  exists c2, BuildAccessGroupCondition m2 = Ret c2 /\ Permutation c1 c2.
Proof.
  intro Hp. revert c1. induction Hp as [|x l l' Hp IH|x y l|l l' l'' _ IH1 _ IH2];
    intros c1 H.
  - exists c1. split; [exact H | apply Permutation_refl].
  - rewrite Build_cons in H. rewrite Build_cons.
    destruct (buildCondition [] x) as [r|]; [|discriminate]. cbn [bind] in *.
    destruct (BuildAccessGroupCondition l) as [b|]; [|discriminate].
    injection H as <-. destruct (IH b eq_refl) as [b' [-> Hb]].
    exists (r ++ b'). split; [reflexivity | now apply Permutation_app_head].
  - rewrite !Build_cons in H. rewrite !Build_cons.
    destruct (buildCondition [] y) as [ry|]; [|discriminate]. cbn [bind] in *.
    destruct (buildCondition [] x) as [rx|]; [|discriminate]. cbn [bind] in *.
    destruct (BuildAccessGroupCondition l) as [b|]; [|discriminate].
    injection H as <-. exists (rx ++ ry ++ b). split; [reflexivity|].
    rewrite !app_assoc. apply Permutation_app_tail. apply Permutation_app_comm.
  - destruct (IH1 c1 H) as [c2 [H2 Hp2]]. destruct (IH2 c2 H2) as [c3 [H3 Hp3]].
    exists c3. split; [exact H3 | now apply Permutation_trans with c2].
Qed.

Lemma build_order_independent_witness :
  Permutation [("everyone", VBool true); ("geo", stringList ["NL"])]
    [("geo", stringList ["NL"]); ("everyone", VBool true)]
  /\ exists c2,
      BuildAccessGroupCondition [("geo", stringList ["NL"]); ("everyone", VBool true)]
      = Ret c2
      /\ Permutation [VStruct AccessGroupEveryone; VStruct (AccessGroupGeo "NL")] c2.
Proof.
  split; [apply perm_swap|].
  apply (build_order_independent [("everyone", VBool true); ("geo", stringList ["NL"])]).
  - apply perm_swap.
  - reflexivity.
Defined.

(** A loop keeps what each run of its body keeps. *)
Lemma forEach_invariant {A S : Type} (body : S -> A -> outcome S) (P : S -> Prop) :
  (forall s x s', body s x = Ret s' -> P s -> P s') ->
  forall l s s', forEach l body s = Ret s' -> P s -> P s'.
Proof.
  intros Hb l; induction l as [|x l IH]; simpl; intros s s' H Hs.
  - now injection H as <-.
  - apply bind_Ret_inv in H as [s1 [H1 H]]. eauto.
Qed.

Lemma onlyStructs_snoc (g : list value) (r : AccessGroupRule) :
  onlyStructs g -> onlyStructs (g ++ [VStruct r]).
Proof.
  intro H. apply Forall_app. split; [exact H|]. constructor; [reflexivity|constructor].
Qed.

(** Take a successful run of a loop body apart, down to its [Ret]. *)
Ltac body_returns H :=
  repeat match type of H with
  | (if ?c then _ else _) = Ret _ => destruct c
  | bind ?c _ = Ret _ =>
      let x := fresh "x" in let Hx := fresh "Hx" in
      apply bind_Ret_inv in H as [x [Hx H]]
  end;
  try (injection H as <-).

Lemma buildPlain_onlyStructs (k : string) (g g' : list value) (x : value) :
  buildPlain k g x = Ret g' -> onlyStructs g -> onlyStructs g'.
Proof.
  unfold buildPlain. intros H Hg. body_returns H; auto using onlyStructs_snoc.
Qed.

Lemma buildSAML_onlyStructs (g g' : list value) (x : value) :
  buildSAML g x = Ret g' -> onlyStructs g -> onlyStructs g'.
Proof.
  unfold buildSAML. intros H Hg. body_returns H; auto using onlyStructs_snoc.
Qed.

Lemma buildExternalEvaluation_onlyStructs (g g' : list value) (x : value) :
  buildExternalEvaluation g x = Ret g' -> onlyStructs g -> onlyStructs g'.
Proof.
  unfold buildExternalEvaluation. intros H Hg.
  body_returns H; auto using onlyStructs_snoc.
Qed.

Lemma buildGSuite_onlyStructs (g g' : list value) (x : value) :
  buildGSuite g x = Ret g' -> onlyStructs g -> onlyStructs g'.
Proof.
  unfold buildGSuite. intros H Hg.
  apply bind_Ret_inv in H as [cfg [_ H]]. apply bind_Ret_inv in H as [l [_ H]].
  revert H Hg. apply forEach_invariant. clear. intros s x s' H Hs.
  body_returns H; auto using onlyStructs_snoc.
Qed.

Lemma buildAzure_onlyStructs (g g' : list value) (x : value) :
  buildAzure g x = Ret g' -> onlyStructs g -> onlyStructs g'.
Proof.
  unfold buildAzure. intros H Hg.
  apply bind_Ret_inv in H as [cfg [_ H]]. apply bind_Ret_inv in H as [l [_ H]].
  revert H Hg. apply forEach_invariant. clear. intros s x s' H Hs.
  body_returns H; auto using onlyStructs_snoc.
Qed.

Lemma buildOkta_onlyStructs (g g' : list value) (x : value) :
  buildOkta g x = Ret g' -> onlyStructs g -> onlyStructs g'.
Proof.
  unfold buildOkta. intros H Hg.
  apply bind_Ret_inv in H as [cfg [_ H]]. apply bind_Ret_inv in H as [l [_ H]].
  revert H Hg. apply forEach_invariant. clear. intros s x s' H Hs.
  body_returns H; auto using onlyStructs_snoc.
Qed.

Lemma buildGitHub_onlyStructs (g g' : list value) (x : value) :
  buildGitHub g x = Ret g' -> onlyStructs g -> onlyStructs g'.
Proof.
  unfold buildGitHub. intros H Hg.
  apply bind_Ret_inv in H as [cfg [_ H]]. apply bind_Ret_inv in H as [l [_ H]].
  destruct (0 <? List.length l)%nat.
  - revert H Hg. apply forEach_invariant. clear. intros s x s' H Hs.
    body_returns H; auto using onlyStructs_snoc.
  - body_returns H; auto using onlyStructs_snoc.
Qed.

Lemma buildCondition_onlyStructs (g g' : list value) (entry : string * value) :
  buildCondition g entry = Ret g' -> onlyStructs g -> onlyStructs g'.
Proof.
  destruct entry as [k v]. unfold buildCondition. intros H Hg.
  repeat match type of H with
  | (if (k =? ?s) then _ else _) = Ret _ => destruct (k =? s)
  end;
  try (body_returns H; now auto using onlyStructs_snoc);
  (apply bind_Ret_inv in H as [l [_ H]]; revert H Hg; apply forEach_invariant);
  eauto using buildPlain_onlyStructs, buildSAML_onlyStructs,
    buildExternalEvaluation_onlyStructs, buildGSuite_onlyStructs,
    buildAzure_onlyStructs, buildOkta_onlyStructs, buildGitHub_onlyStructs.
Qed.

Lemma Build_onlyStructs (options : gomap) (conditions : list value) :
  BuildAccessGroupCondition options = Ret conditions -> onlyStructs conditions.
Proof.
  unfold BuildAccessGroupCondition. intro H.
  apply (forEach_invariant buildCondition onlyStructs
           (fun s x s' => buildCondition_onlyStructs s s' x) options [] conditions H).
  constructor.
Qed.

Lemma onlyStructs_rules (g : list value) :
  onlyStructs g -> exists rules, g = map VStruct rules.
Proof.
  induction 1 as [|v g Hv _ [rules ->]].
  - exists []. reflexivity.
  - destruct v; try discriminate. exists (r :: rules). reflexivity.
Qed.

(** X3. Whatever map it is given, [BuildAccessGroupCondition] returns
    nothing but rule structs of cloudflare-go: no map, string or list of
    the input reaches its result. *)
Theorem build_returns_rule_structs (options : gomap) (conditions : list value) :
  BuildAccessGroupCondition options = Ret conditions ->
  exists rules, conditions = map VStruct rules.
Proof.
  intro H. apply onlyStructs_rules. exact (Build_onlyStructs options conditions H).
Qed.

Lemma build_returns_rule_structs_witness :
  exists rules,
    [VStruct (AccessGroupEmail "a@x.com"); VStruct (AccessGroupEmail "b@x.com")]
    = map VStruct rules.
Proof. exact (build_returns_rule_structs emailBlock _ eq_refl). Defined.

(** X4. Whenever [BuildAccessGroupCondition] returns, the rules it built,
    read back from the API, are transformed without panic: every type
    assertion of [TransformAccessGroupForSchema] holds on them. *)
Theorem round_trip_returns (options : gomap) (conditions : list value) :
  BuildAccessGroupCondition options = Ret conditions ->
  exists out, roundTrip options = Ret out.
Proof.
  intro H. unfold roundTrip. rewrite H. cbn [bind].
  destruct (onlyStructs_rules conditions (Build_onlyStructs options conditions H))
    as [rules ->].
  unfold viaAPI. rewrite map_map. apply Transform_returns_on_rules.
Qed.

Lemma round_trip_returns_witness : exists out, roundTrip samlBlock = Ret out.
Proof.
  apply (round_trip_returns samlBlock
           [VStruct (AccessGroupSAML "group" "admins" "idp-1")]).
  reflexivity.
Defined.

Lemma Build_single_slice (k : string) (body : list value -> value -> outcome (list value))
    (l : list value) :
  buildCondition [] (k, VSlice l) = forEach l body [] ->
  BuildAccessGroupCondition [(k, VSlice l)] = forEach l body [].
Proof.
  intro H. unfold BuildAccessGroupCondition.
  change (forEach [(k, VSlice l)] buildCondition [])
    with (s <- buildCondition [] (k, VSlice l) ;; Ret s).
  rewrite H. destruct (forEach l body []); reflexivity.
Qed.

Section ProviderBlocks.

Variable listKey : string.
Variable mk : string -> string -> AccessGroupRule.
Variable body : list value -> value -> outcome (list value).

Hypothesis body_block : forall g cfg idp vals,
    providerBlock listKey cfg idp vals ->
    body g (VMap cfg) = Ret (g ++ map (fun s => VStruct (mk s idp)) vals).

Lemma forEach_provider_blocks (blocks : list (gomap * string * list string))
    (g : list value) :
  Forall (fun b => providerBlock listKey (fst (fst b)) (snd (fst b)) (snd b)) blocks ->
  forEach (map (fun b => VMap (fst (fst b))) blocks) body g
  = Ret (g ++ providerRules mk blocks).
Proof.
  intro H. revert g. induction H as [|[[cfg idp] vals] blocks Hb _ IH]; intro g.
  - simpl. now rewrite app_nil_r.
  - cbn [map forEach fst snd]. rewrite (body_block g cfg idp vals Hb). cbn [bind].
    rewrite IH. unfold providerRules. cbn [flat_map fst snd].
    now rewrite app_assoc.
Qed.

End ProviderBlocks.

Lemma buildGSuite_provider_block (g : list value) (cfg : gomap) (idp : string)
    (vals : list string) :
  providerBlock "email" cfg idp vals ->
  buildGSuite g (VMap cfg) = Ret (g ++ map (fun s => VStruct (AccessGroupGSuite s idp)) vals).
Proof.
  intros [Hl Hi]. unfold buildGSuite. cbn [assertMap bind]. rewrite Hl, Hi.
  unfold stringList. cbn [assertSlice assertString bind].
  apply (forEach_build_each (fun s => AccessGroupGSuite s idp)). reflexivity.
Qed.

Lemma buildAzure_provider_block (g : list value) (cfg : gomap) (idp : string)
    (vals : list string) :
  providerBlock "id" cfg idp vals ->
  buildAzure g (VMap cfg) = Ret (g ++ map (fun s => VStruct (AccessGroupAzure s idp)) vals).
Proof.
  intros [Hl Hi]. unfold buildAzure. cbn [assertMap bind]. rewrite Hl, Hi.
  unfold stringList. cbn [assertSlice assertString bind].
  apply (forEach_build_each (fun s => AccessGroupAzure s idp)). reflexivity.
Qed.

Lemma buildOkta_provider_block (g : list value) (cfg : gomap) (idp : string)
    (vals : list string) :
  providerBlock "name" cfg idp vals ->
  buildOkta g (VMap cfg) = Ret (g ++ map (fun s => VStruct (AccessGroupOkta s idp)) vals).
Proof.
  intros [Hl Hi]. unfold buildOkta. cbn [assertMap bind]. rewrite Hl, Hi.
  unfold stringList. cbn [assertSlice assertString bind].
  apply (forEach_build_each (fun s => AccessGroupOkta s idp)). reflexivity.
Qed.

(** X5. For gsuite, azure and okta, each block of the schema is expanded
    under its own provider: the rules built are, block after block, one
    rule per value of the block carrying the identity_provider_id of that
    block. *)
Theorem provider_blocks_keep_their_provider
    (kind listKey : string) (mk : string -> string -> AccessGroupRule)
    (blocks : list (gomap * string * list string)) :
  In (kind, listKey, mk) providerKinds ->
  Forall (fun b => providerBlock listKey (fst (fst b)) (snd (fst b)) (snd b)) blocks ->
  BuildAccessGroupCondition [(kind, VSlice (map (fun b => VMap (fst (fst b))) blocks))]
  = Ret (providerRules mk blocks).
Proof.
  intros Hin Hb. simpl in Hin.
  destruct Hin as [Hin|[Hin|[Hin|[]]]]; injection Hin as <- <- <-.
  - rewrite (Build_single_slice "gsuite" buildGSuite _ eq_refl).
    exact (forEach_provider_blocks "email" AccessGroupGSuite buildGSuite
             buildGSuite_provider_block blocks [] Hb).
  - rewrite (Build_single_slice "azure" buildAzure _ eq_refl).
    exact (forEach_provider_blocks "id" AccessGroupAzure buildAzure
             buildAzure_provider_block blocks [] Hb).
  - rewrite (Build_single_slice "okta" buildOkta _ eq_refl).
    exact (forEach_provider_blocks "name" AccessGroupOkta buildOkta
             buildOkta_provider_block blocks [] Hb).
Qed.

Lemma provider_blocks_keep_their_provider_witness :
  BuildAccessGroupCondition oktaTwoProviders
  = Ret [VStruct (AccessGroupOkta "admins" "idp-1");
         VStruct (AccessGroupOkta "guests" "idp-2")].
Proof.
  apply (provider_blocks_keep_their_provider "okta" "name" AccessGroupOkta
           [([("identity_provider_id", VString "idp-1"); ("name", stringList ["admins"])],
             "idp-1", ["admins"]);
            ([("identity_provider_id", VString "idp-2"); ("name", stringList ["guests"])],
             "idp-2", ["guests"])]).
  - simpl. do 2 right. left. reflexivity.
  - repeat constructor.
Defined.

Lemma buildGitHub_github_block (g : list value) (cfg : gomap) (name idp : string)
    (teams : list string) :
  githubBlock cfg name idp teams ->
  buildGitHub g (VMap cfg) = Ret (g ++ githubRules name idp teams).
Proof.
  intros [Hn [Hi Ht]]. unfold buildGitHub. cbn [assertMap bind].
  rewrite Hn, Hi, Ht. unfold stringList. cbn [assertSlice assertString bind].
  destruct teams as [|t teams]; [reflexivity|].
  cbn [map List.length Nat.ltb Nat.leb].
  apply (forEach_build_each (fun s => AccessGroupGitHub name s idp) _
           (fun g s => eq_refl) (t :: teams)).
Qed.

(** X6. A github block gives one rule per team, in the order of the teams,
    and a block without teams still gives one rule, for the organization
    as a whole (its team left empty). *)
Theorem github_block_rules (cfg : gomap) (name idp : string) (teams : list string) :
  githubBlock cfg name idp teams ->
  BuildAccessGroupCondition [("github", VSlice [VMap cfg])]
  = Ret (githubRules name idp teams).
Proof.
  intro H. rewrite (Build_single_slice "github" buildGitHub _ eq_refl).
  cbn [forEach]. rewrite (buildGitHub_github_block [] cfg name idp teams H).
  reflexivity.
Qed.

Lemma github_block_rules_witness :
  BuildAccessGroupCondition
    [("github", VSlice [VMap [("name", VString "org"); ("teams", stringList []);
                              ("identity_provider_id", VString "idp-1")]])]
  = Ret [VStruct (AccessGroupGitHub "org" "" "idp-1")].
Proof.
  apply (github_block_rules _ "org" "idp-1" []).
  repeat split.
Defined.

(* ================================================================= *)
(** ** Further properties of TransformAccessGroupForSchema *)

Lemma emit_entries (a : locals) (entry : gomap) :
  In entry (emit a) ->
  In entry (data a) \/ exists k v, entry = [(k, v)] /\ In k sourceOrder.
Proof.
  unfold emit. cbv zeta. intro H.
  repeat (apply In_appendIf in H as [H|[_ ->]];
          [|right; do 2 eexists; split; [reflexivity|simpl; tauto]]).
  now left.
Qed.

Lemma flagEntries_entries (accessGroup : list value) (entry : gomap) :
  In entry (flagEntries accessGroup) ->
  exists k, entry = [(k, VBool true)] /\ isFlagKey k = true.
Proof.
  unfold flagEntries. intro H.
  apply in_flat_map in H as [group [_ H]]. destruct group; try contradiction.
  apply in_flat_map in H as [[k v] [_ H]]. simpl in H.
  destruct (isFlagKey k) eqn:Hk; [|contradiction].
  destruct H as [<-|[]]. eauto.
Qed.

(** X7. The output is a list of single-key maps: every entry holds exactly
    one key, which is everyone, any_valid_service_token or certificate with
    the value true, or one of the sixteen keys of the post-pass. *)
Theorem transform_entries_single_key
    (accessGroup : list value) (out : list gomap) (entry : gomap) :
  TransformAccessGroupForSchema accessGroup = Ret out ->
  In entry out ->
  exists k v,
    entry = [(k, v)]
    /\ ((isFlagKey k = true /\ v = VBool true) \/ In k sourceOrder).
Proof.
  intros H Hin. apply Transform_inv in H as [a [Ha ->]].
  apply emit_entries in Hin as [Hin|[k [v [-> Hk]]]].
  - rewrite (scan_data accessGroup a Ha) in Hin.
    apply flagEntries_entries in Hin as [k [-> Hk]]. eauto 6.
  - eauto 6.
Qed.

Lemma transform_entries_single_key_witness :
  exists k v,
    [("geo", VStrings ["NL"])] = [(k, v)]
    /\ ((isFlagKey k = true /\ v = VBool true) \/ In k sourceOrder).
Proof.
  apply (transform_entries_single_key mixedRules
           [[("everyone", VBool true)];
            [("email", VStrings ["a@x.com"; "b@x.com"])];
            [("geo", VStrings ["NL"])]]).
  - reflexivity.
  - simpl. do 2 right. left. reflexivity.
Defined.

Lemma scanEntry_unknown (a : locals) (k : string) (v : value) :
  ~ In k scannedKeys -> scanEntry a (k, v) = Ret a.
Proof.
  intro Hk. unfold scanEntry, isFlagKey.
  repeat match goal with
  | |- context [k =? ?s] =>
      let E := fresh "E" in
      destruct (k =? s) eqn:E;
      [apply String.eqb_eq in E; exfalso; apply Hk; rewrite E; simpl; tauto|]
  end.
  reflexivity.
Qed.

(** X8. A key the scanning loop does not know is skipped: whatever value
    it holds, and wherever in the condition list it stands, the result is
    the same as without it, and no type assertion is made on its value. *)
Theorem transform_skips_unknown_keys
    (l1 l2 : list value) (m1 m2 : gomap) (k : string) (v : value) :
  ~ In k scannedKeys ->
  TransformAccessGroupForSchema (l1 ++ VMap (m1 ++ (k, v) :: m2) :: l2)
  = TransformAccessGroupForSchema (l1 ++ VMap (m1 ++ m2) :: l2).
Proof.
  intro Hk. unfold TransformAccessGroupForSchema, scan.
  rewrite !forEach_app.
  destruct (forEach l1 scanGroup initialLocals) as [a|]; [|reflexivity].
  cbn [bind forEach]. unfold scanGroup at 1 3. cbn [assertMap bind].
  rewrite !forEach_app.
  destruct (forEach m1 scanEntry a) as [a1|]; [|reflexivity].
  cbn [bind forEach]. rewrite (scanEntry_unknown a1 k v Hk). reflexivity.
Qed.

Lemma transform_skips_unknown_keys_witness :
  TransformAccessGroupForSchema
    ([VMap [("email", VMap [("email", VString "a@x.com")])]]
     ++ VMap ([] ++ ("ip_list", VBool false) :: []) :: [])
  = TransformAccessGroupForSchema
      ([VMap [("email", VMap [("email", VString "a@x.com")])]] ++ VMap ([] ++ []) :: []).
Proof.
  apply transform_skips_unknown_keys.
  simpl. intro H.
  repeat (destruct H as [H|H]; [discriminate H|]). exact H.
Defined.

(** X9. Whether [TransformAccessGroupForSchema] panics is decided rule by
    rule: it returns on a condition list exactly when it returns on each
    element of the list taken alone. *)
Theorem transform_panics_locally (accessGroup : list value) :
  succeeds (TransformAccessGroupForSchema accessGroup)
  = forallb (fun group => succeeds (TransformAccessGroupForSchema [group])) accessGroup.
Proof.
  unfold TransformAccessGroupForSchema.
  rewrite succeeds_bind_total by reflexivity. rewrite scan_succeeds.
  induction accessGroup as [|group rest IH]; [reflexivity|].
  cbn [forallb]. rewrite IH. f_equal.
  rewrite succeeds_bind_total by reflexivity.
  unfold scan. cbn [forEach].
  destruct (scanGroup initialLocals group); reflexivity.
Qed.

Lemma last_app_default {A : Type} (l1 l2 : list A) (d : A) :
  last (l1 ++ l2) d = last l2 (last l1 d).
Proof.
  revert d; induction l1 as [|x l1 IH]; intro d; [reflexivity|].
  destruct l1 as [|y l1].
  - simpl. destruct l2; [reflexivity|]. clear. revert a x d.
    induction l2 as [|z l2 IH]; intros a x d; [reflexivity|].
    simpl. simpl in IH. apply IH.
  - change (last ((x :: y :: l1) ++ l2) d) with (last ((y :: l1) ++ l2) d).
    rewrite IH. reflexivity.
Qed.

Lemma assignStrings_spec (m : gomap) (s s' : string) :
  assignStrings m s = Ret s' -> s' = last (innerStrings (VMap m)) s.
Proof.
  unfold assignStrings. revert s; induction m as [|[k v] m IH]; simpl; intros s H.
  - now injection H as <-.
  - apply bind_Ret_inv in H as [s1 [H1 H]].
    destruct v; try discriminate. simpl in H1. injection H1 as <-.
    apply IH in H. rewrite H. simpl.
    exact (eq_sym (last_app_default [s0] _ s)).
Qed.

(** A loop whose body overwrites one component with the last of its
    contributions leaves the last contribution of all. *)
Lemma forEach_overwrites {A S B : Type} (body : S -> A -> outcome S)
    (proj : S -> B) (contrib : A -> list B) :
  (forall s x s', body s x = Ret s' -> proj s' = last (contrib x) (proj s)) ->
  forall l s s', forEach l body s = Ret s' -> proj s' = last (flat_map contrib l) (proj s).
Proof.
  intros Hb l; induction l as [|x l IH]; simpl; intros s s' H.
  - now injection H as <-.
  - apply bind_Ret_inv in H as [s1 [H1 H]].
    rewrite (IH _ _ H), (Hb _ _ _ H1), last_app_default. reflexivity.
Qed.

Lemma scanGroup_overwrites {B : Type} (proj : locals -> B)
    (contrib : string * value -> list B) :
  (forall a e a', scanEntry a e = Ret a' -> proj a' = last (contrib e) (proj a)) ->
  forall a group a',
    scanGroup a group = Ret a' ->
    proj a' = last (match group with
                    | VMap m => flat_map contrib m
                    | _ => []
                    end) (proj a).
Proof.
  intros Hb a group a' H. unfold scanGroup in H.
  apply bind_Ret_inv in H as [m [Hm H]]. apply assertMap_inv in Hm. subst group.
  exact (forEach_overwrites scanEntry proj contrib Hb m a a' H).
Qed.

Lemma scanEntry_scalar (key : string) (proj : locals -> string)
    (a a' : locals) (k : string) (v : value) :
  In (key, proj) scalarAccumulators ->
  scanEntry a (k, v) = Ret a' ->
  proj a' = last (if k =? key then innerStrings v else []) (proj a).
Proof.
  intros Hin H. simpl in Hin.
  repeat (destruct Hin as [Hin|Hin];
          [injection Hin as <- <-; scan_cases k H; scan_binds H; simpl;
           try reflexivity;
           try (match goal with
                | Hx : assignStrings _ _ = Ret _ |- _ =>
                    apply assignStrings_spec in Hx; exact Hx
                end);
           try (match goal with
                | E : (k =? ?s) = false |- context [k =? ?s] => rewrite E
                end; reflexivity)
          |]).
  contradiction.
Qed.

Lemma scan_scalar (key : string) (proj : locals -> string)
    (accessGroup : list value) (a : locals) :
  In (key, proj) scalarAccumulators ->
  scan accessGroup = Ret a -> proj a = last (matchedValues key accessGroup) "".
Proof.
  intros Hin H. unfold scan in H.
  apply (forEach_overwrites scanGroup proj
           (fun group => match group with
                         | VMap m => flat_map (fun e => if fst e =? key
                                                        then innerStrings (snd e)
                                                        else []) m
                         | _ => []
                         end)) in H.
  - rewrite H. unfold matchedValues. simpl in Hin.
    repeat (destruct Hin as [Hin|Hin]; [injection Hin as <- <-; reflexivity|]).
    contradiction.
  - intros s x s' Hs.
    apply (scanGroup_overwrites proj
             (fun e => if fst e =? key then innerStrings (snd e) else []));
      [|exact Hs].
    intros a0 [k v] a1. now apply scanEntry_scalar.
Qed.

(** X10. common_name and auth_method keep one value: the entry written
    holds the value of the last rule of the kind in the input, and no entry
    is written when that last value is the empty string, whatever the
    rules before it hold. *)
Theorem scalar_kinds_keep_last_value
    (k : string) (proj : locals -> string)
    (accessGroup : list value) (out : list gomap) :
  In (k, proj) scalarAccumulators ->
  TransformAccessGroupForSchema accessGroup = Ret out ->
  countKey k out = (if nonEmpty (last (matchedValues k accessGroup) "") then 1 else 0)
  /\ (forall entry,
         In entry out -> hasKey k entry = true ->
         entry = [(k, VString (last (matchedValues k accessGroup) ""))]).
Proof.
  intros Hk H. apply Transform_inv in H as [a [Ha ->]].
  pose proof (scan_data accessGroup a Ha) as Hd.
  rewrite <- (scan_scalar k proj accessGroup a Hk Ha).
  simpl in Hk. split.
  - repeat (destruct Hk as [Hk|Hk];
      [injection Hk as <- <-;
       match goal with
       | |- countKey ?key _ = if nonEmpty (?p a) then _ else _ =>
           rewrite (countKey_emit_listed key (fun a => nonEmpty (p a)) a)
             by (simpl; tauto)
       end;
       rewrite Hd, countKey_flagEntries_other by reflexivity; reflexivity|]).
    contradiction.
  - intros entry Hin Hhas. unfold emit in Hin. cbv zeta in Hin.
    repeat (destruct Hk as [Hk|Hk];
      [injection Hk as <- <-;
       repeat (apply In_appendIf in Hin as [Hin|[_ ->]];
               [|first [reflexivity
                       |rewrite hasKey_single in Hhas; vm_compute in Hhas;
                        discriminate]]);
       rewrite Hd in Hin;
       apply (hasKey_flagEntries _ _ _ Hin) in Hhas; discriminate|]).
    contradiction.
Qed.

Lemma scalar_kinds_keep_last_value_witness :
  TransformAccessGroupForSchema
    [VMap [("common_name", VMap [("common_name", VString "a.example.com")])];
     VMap [("common_name", VMap [("common_name", VString "")])]] = Ret []
  /\ countKey "common_name" []
     = (if nonEmpty
             (last (matchedValues "common_name"
                      [VMap [("common_name", VMap [("common_name", VString "a.example.com")])];
                       VMap [("common_name", VMap [("common_name", VString "")])]]) "")
        then 1 else 0).
Proof.
  split; [reflexivity|].
  apply (scalar_kinds_keep_last_value "common_name" commonName).
  - simpl. left. reflexivity.
  - reflexivity.
Defined.

Lemma assertString_mapIndex (m : gomap) (field s : string) :
  assertString (mapIndex m field) = Ret s -> mapLookup m field = Some (VString s).
Proof.
  unfold mapIndex. destruct (mapLookup m field) as [v|]; [|discriminate].
  destruct v; try discriminate. simpl. now intros [= ->].
Qed.

Ltac field_found :=
  repeat match goal with
  | Hx : assertString (mapIndex _ _) = Ret _ |- _ =>
      apply assertString_mapIndex in Hx; try rewrite Hx
  end.

Lemma scanEntry_provider
    (outKey scanKey field : string) (projID : locals -> string)
    (projList : locals -> list string) (a a' : locals) (k : string) (v : value) :
  In (outKey, scanKey, field, projID, projList) providerAccumulators ->
  scanEntry a (k, v) = Ret a' ->
  projList a' = projList a ++ fieldOf scanKey field (k, v)
  /\ projID a' = last (fieldOf scanKey "identity_provider_id" (k, v)) (projID a).
Proof.
  intros Hin H. simpl in Hin. unfold fieldOf. cbn [fst snd].
  repeat (destruct Hin as [Hin|Hin];
          [injection Hin as <- <- <- <- <-; scan_cases k H; scan_binds H;
           simpl; rewrite ?app_nil_r;
           try (split; reflexivity);
           try (field_found; split; reflexivity);
           try (repeat match goal with
                       | E : (k =? ?s) = false |- context [k =? ?s] => rewrite E
                       end; rewrite ?app_nil_r; split; reflexivity)
          |]).
  contradiction.
Qed.

Lemma scan_provider
    (outKey scanKey field : string) (projID : locals -> string)
    (projList : locals -> list string) (accessGroup : list value) (a : locals) :
  In (outKey, scanKey, field, projID, projList) providerAccumulators ->
  scan accessGroup = Ret a ->
  projList a = ruleField scanKey field accessGroup
  /\ projID a = last (ruleField scanKey "identity_provider_id" accessGroup) "".
Proof.
  intros Hin H. unfold scan in H. split.
  - apply (forEach_accumulates scanGroup projList
             (fun group => match group with
                           | VMap m => flat_map (fieldOf scanKey field) m
                           | _ => []
                           end)) in H.
    + rewrite H. simpl in Hin.
      repeat (destruct Hin as [Hin|Hin];
              [injection Hin as <- <- <- <- <-; reflexivity|]).
      contradiction.
    + intros s x s' Hs.
      apply (scanGroup_accumulates projList (fieldOf scanKey field)); [|exact Hs].
      intros a0 [k v] a1 H1.
      exact (proj1 (scanEntry_provider outKey scanKey field projID projList
                      a0 a1 k v Hin H1)).
  - apply (forEach_overwrites scanGroup projID
             (fun group => match group with
                           | VMap m =>
                               flat_map (fieldOf scanKey "identity_provider_id") m
                           | _ => []
                           end)) in H.
    + rewrite H. simpl in Hin.
      repeat (destruct Hin as [Hin|Hin];
              [injection Hin as <- <- <- <- <-; reflexivity|]).
      contradiction.
    + intros s x s' Hs.
      apply (scanGroup_overwrites projID (fieldOf scanKey "identity_provider_id"));
        [|exact Hs].
      intros a0 [k v] a1 H1.
      exact (proj2 (scanEntry_provider outKey scanKey field projID projList
                      a0 a1 k v Hin H1)).
Qed.

(** X11. The rules of okta, gsuite and azure are merged into one block per
    kind: the entry written holds the values of all the rules of the kind,
    in the order of the input, under the provider ID of the last of them,
    whatever providers the earlier rules name. *)
Theorem provider_rules_merge_under_last_provider
    (outKey scanKey field : string) (projID : locals -> string)
    (projList : locals -> list string)
    (accessGroup : list value) (out : list gomap) (entry : gomap) :
  In (outKey, scanKey, field, projID, projList) providerAccumulators ->
  TransformAccessGroupForSchema accessGroup = Ret out ->
  In entry out -> hasKey outKey entry = true ->
  entry = providerEntry outKey field
            (last (ruleField scanKey "identity_provider_id" accessGroup) "")
            (ruleField scanKey field accessGroup).
Proof.
  intros Hk H Hin Hhas. apply Transform_inv in H as [a [Ha ->]].
  pose proof (scan_data accessGroup a Ha) as Hd.
  destruct (scan_provider outKey scanKey field projID projList accessGroup a Hk Ha)
    as [Hl Hi].
  rewrite <- Hl, <- Hi. clear Hl Hi.
  unfold emit in Hin. cbv zeta in Hin. unfold providerEntry. simpl in Hk.
  repeat (destruct Hk as [Hk|Hk];
    [injection Hk as <- <- <- <- <-;
     repeat (apply In_appendIf in Hin as [Hin|[_ ->]];
             [|first [reflexivity
                     |rewrite hasKey_single in Hhas; vm_compute in Hhas;
                      discriminate]]);
     rewrite Hd in Hin;
     apply (hasKey_flagEntries _ _ _ Hin) in Hhas; discriminate|]).
  contradiction.
Qed.

Lemma provider_rules_merge_under_last_provider_witness :
  TransformAccessGroupForSchema
    (viaAPI [VStruct (AccessGroupOkta "admins" "idp-1");
             VStruct (AccessGroupOkta "guests" "idp-2")])
  = Ret [providerEntry "okta" "name" "idp-2" ["admins"; "guests"]]
  /\ providerEntry "okta" "name" "idp-2" ["admins"; "guests"]
     = providerEntry "okta" "name"
         (last (ruleField "okta" "identity_provider_id"
                  (viaAPI [VStruct (AccessGroupOkta "admins" "idp-1");
                           VStruct (AccessGroupOkta "guests" "idp-2")])) "")
         (ruleField "okta" "name"
            (viaAPI [VStruct (AccessGroupOkta "admins" "idp-1");
                     VStruct (AccessGroupOkta "guests" "idp-2")])).
Proof.
  split; [reflexivity|].
  apply (provider_rules_merge_under_last_provider "okta" "okta" "name" oktaID oktaGroups
           _ [providerEntry "okta" "name" "idp-2" ["admins"; "guests"]]).
  - simpl. left. reflexivity.
  - reflexivity.
  - left. reflexivity.
  - reflexivity.
Defined.

Lemma scanEntry_field (scanKey field : string) (proj : locals -> string)
    (a a' : locals) (k : string) (v : value) :
  In (scanKey, field, proj) fieldAccumulators ->
  scanEntry a (k, v) = Ret a' ->
  proj a' = last (fieldOf scanKey field (k, v)) (proj a).
Proof.
  intros Hin H. simpl in Hin. unfold fieldOf. cbn [fst snd].
  repeat (destruct Hin as [Hin|Hin];
          [injection Hin as <- <- <-; scan_cases k H; scan_binds H;
           simpl;
           try reflexivity;
           try (field_found; reflexivity);
           try (repeat match goal with
                       | E : (k =? ?s) = false |- context [k =? ?s] => rewrite E
                       end; reflexivity)
          |]).
  contradiction.
Qed.

Lemma scan_field (scanKey field : string) (proj : locals -> string)
    (accessGroup : list value) (a : locals) :
  In (scanKey, field, proj) fieldAccumulators ->
  scan accessGroup = Ret a -> proj a = lastField scanKey field accessGroup.
Proof.
  intros Hin H. unfold scan in H.
  apply (forEach_overwrites scanGroup proj
           (fun group => match group with
                         | VMap m => flat_map (fieldOf scanKey field) m
                         | _ => []
                         end)) in H.
  - rewrite H. simpl in Hin.
    repeat (destruct Hin as [Hin|Hin]; [injection Hin as <- <- <-; reflexivity|]).
    contradiction.
  - intros s x s' Hs.
    apply (scanGroup_overwrites proj (fieldOf scanKey field)); [|exact Hs].
    intros a0 [k v] a1. now apply scanEntry_field.
Qed.

Lemma scanEntry_githubTeams (a a' : locals) (k : string) (v : value) :
  scanEntry a (k, v) = Ret a' ->
  githubTeams a' = githubTeams a ++ fieldOf "github-organization" "team" (k, v).
Proof.
  intro H. unfold fieldOf. cbn [fst snd].
  scan_cases k H;
    try (scan_binds H; simpl; rewrite ?app_nil_r; reflexivity);
    try (scan_binds H; simpl;
         repeat match goal with
                | E : (k =? ?s) = false |- context [k =? ?s] => rewrite E
                end; rewrite ?app_nil_r; reflexivity).
  apply bind_Ret_inv in H as [m [Hm H]]. apply assertMap_inv in Hm. subst v.
  apply bind_Ret_inv in H as [id [_ H]]. apply bind_Ret_inv in H as [name [_ H]].
  simpl. destruct (mapLookup m "team") as [t|].
  - apply bind_Ret_inv in H as [s [Hs H]]. injection H as <-.
    destruct t; try discriminate. simpl in Hs. injection Hs as <-. reflexivity.
  - injection H as <-. simpl. now rewrite app_nil_r.
Qed.

Lemma scan_githubTeams (accessGroup : list value) (a : locals) :
  scan accessGroup = Ret a ->
  githubTeams a = ruleField "github-organization" "team" accessGroup.
Proof.
  intro H. unfold scan in H.
  apply (forEach_accumulates scanGroup githubTeams
           (fun group => match group with
                         | VMap m => flat_map (fieldOf "github-organization" "team") m
                         | _ => []
                         end)) in H.
  - exact H.
  - intros s x s' Hs.
    apply (scanGroup_accumulates githubTeams (fieldOf "github-organization" "team"));
      [|exact Hs].
    intros a0 [k v] a1. apply scanEntry_githubTeams.
Qed.

(** The entries of the post-pass with a given key, read off its code. *)
Ltac entry_of_key Hin Hhas Hd :=
  unfold emit in Hin; cbv zeta in Hin;
  repeat (apply In_appendIf in Hin as [Hin|[_ ->]];
          [|first [reflexivity
                  |rewrite hasKey_single in Hhas; vm_compute in Hhas; discriminate]]);
  rewrite Hd in Hin;
  apply (hasKey_flagEntries _ _ _ Hin) in Hhas; discriminate.

(** X12. The saml entry holds the attribute name and value of the last
    saml rule of the input and nothing else: the identity_provider_id of
    the rules is not written.  The external_evaluation entry holds the two
    URLs of the last external_evaluation rule. *)
Theorem saml_and_external_evaluation_entries
    (accessGroup : list value) (out : list gomap) (entry : gomap) :
  TransformAccessGroupForSchema accessGroup = Ret out ->
  In entry out ->
  (hasKey "saml" entry = true ->
   entry = [("saml",
             VSlice [VMap [("attribute_name",
                            VString (lastField "saml" "attribute_name" accessGroup));
                           ("attribute_value",
                            VString (lastField "saml" "attribute_value" accessGroup))]])])
  /\ (hasKey "external_evaluation" entry = true ->
      entry = [("external_evaluation",
                VSlice [VMap [("evaluate_url",
                               VString (lastField "external_evaluation" "evaluate_url"
                                          accessGroup));
                              ("keys_url",
                               VString (lastField "external_evaluation" "keys_url"
                                          accessGroup))]])]).
Proof.
  intros H Hin. apply Transform_inv in H as [a [Ha ->]].
  pose proof (scan_data accessGroup a Ha) as Hd.
  split; intro Hhas.
  - rewrite <- (scan_field "saml" "attribute_name" samlAttrName accessGroup a)
      by (simpl; tauto || exact Ha).
    rewrite <- (scan_field "saml" "attribute_value" samlAttrValue accessGroup a)
      by (simpl; tauto || exact Ha).
    entry_of_key Hin Hhas Hd.
  - rewrite <- (scan_field "external_evaluation" "evaluate_url" externalEvaluationURL
                  accessGroup a) by (simpl; tauto || exact Ha).
    rewrite <- (scan_field "external_evaluation" "keys_url" externalEvaluationKeysURL
                  accessGroup a) by (simpl; tauto || exact Ha).
    entry_of_key Hin Hhas Hd.
Qed.

Lemma saml_and_external_evaluation_entries_witness :
  TransformAccessGroupForSchema
    (viaAPI [VStruct (AccessGroupSAML "group" "admins" "idp-1")])
  = Ret [[("saml", VSlice [VMap [("attribute_name", VString "group");
                                 ("attribute_value", VString "admins")]])]]
  /\ [("saml", VSlice [VMap [("attribute_name", VString "group");
                             ("attribute_value", VString "admins")]])]
     = [("saml",
         VSlice [VMap [("attribute_name",
                        VString (lastField "saml" "attribute_name"
                                   (viaAPI [VStruct (AccessGroupSAML "group" "admins"
                                                       "idp-1")])));
                       ("attribute_value",
                        VString (lastField "saml" "attribute_value"
                                   (viaAPI [VStruct (AccessGroupSAML "group" "admins"
                                                       "idp-1")])))]])].
Proof.
  split; [reflexivity|].
  apply (proj1 (saml_and_external_evaluation_entries
                  (viaAPI [VStruct (AccessGroupSAML "group" "admins" "idp-1")])
                  [[("saml", VSlice [VMap [("attribute_name", VString "group");
                                           ("attribute_value", VString "admins")]])]]
                  _ eq_refl (or_introl eq_refl))).
  reflexivity.
Defined.

(** X13. All github rules are merged into one block: the entry written
    holds the organization name and the provider ID of the last github
    rule, and the teams of all github rules in the order of the input,
    whichever organization each rule names. *)
Theorem github_rules_merge_under_last_organization
    (accessGroup : list value) (out : list gomap) (entry : gomap) :
  TransformAccessGroupForSchema accessGroup = Ret out ->
  In entry out -> hasKey "github" entry = true ->
  entry = [("github",
            VSlice [VMap [("name",
                           VString (lastField "github-organization" "name" accessGroup));
                          ("teams",
                           VStrings (ruleField "github-organization" "team" accessGroup));
                          ("identity_provider_id",
                           VString (lastField "github-organization"
                                      "identity_provider_id" accessGroup))]])].
Proof.
  intros H Hin Hhas. apply Transform_inv in H as [a [Ha ->]].
  pose proof (scan_data accessGroup a Ha) as Hd.
  rewrite <- (scan_field "github-organization" "name" githubName accessGroup a)
    by (simpl; tauto || exact Ha).
  rewrite <- (scan_field "github-organization" "identity_provider_id" githubID
                accessGroup a) by (simpl; tauto || exact Ha).
  rewrite <- (scan_githubTeams accessGroup a Ha).
  entry_of_key Hin Hhas Hd.
Qed.

Lemma github_rules_merge_under_last_organization_witness :
  TransformAccessGroupForSchema
    (viaAPI [VStruct (AccessGroupGitHub "org-1" "dev" "idp-1");
             VStruct (AccessGroupGitHub "org-2" "ops" "idp-1")])
  = Ret [[("github", VSlice [VMap [("name", VString "org-2");
                                   ("teams", VStrings ["dev"; "ops"]);
                                   ("identity_provider_id", VString "idp-1")]])]]
  /\ [("github", VSlice [VMap [("name", VString "org-2");
                               ("teams", VStrings ["dev"; "ops"]);
                               ("identity_provider_id", VString "idp-1")]])]
     = [("github",
         VSlice [VMap [("name",
                        VString (lastField "github-organization" "name"
                                   (viaAPI [VStruct (AccessGroupGitHub "org-1" "dev" "idp-1");
                                            VStruct (AccessGroupGitHub "org-2" "ops" "idp-1")])));
                       ("teams",
                        VStrings (ruleField "github-organization" "team"
                                    (viaAPI [VStruct (AccessGroupGitHub "org-1" "dev" "idp-1");
                                             VStruct (AccessGroupGitHub "org-2" "ops" "idp-1")])));
                       ("identity_provider_id",
                        VString (lastField "github-organization" "identity_provider_id"
                                   (viaAPI [VStruct (AccessGroupGitHub "org-1" "dev" "idp-1");
                                            VStruct (AccessGroupGitHub "org-2" "ops" "idp-1")])))]])].
Proof.
  split; [reflexivity|].
  apply (github_rules_merge_under_last_organization
           (viaAPI [VStruct (AccessGroupGitHub "org-1" "dev" "idp-1");
                    VStruct (AccessGroupGitHub "org-2" "ops" "idp-1")])
           [[("github", VSlice [VMap [("name", VString "org-2");
                                      ("teams", VStrings ["dev"; "ops"]);
                                      ("identity_provider_id", VString "idp-1")]])]]).
  - reflexivity.
  - left. reflexivity.
  - reflexivity.
Defined.

(* ================================================================= *)
(** ** The output of TransformAccessGroupForSchema in terms of its input *)

Lemma In_appendIf_here (c : bool) (e : gomap) (d : list gomap) :
  c = true -> In e (appendIf c e d).
Proof. intros ->. unfold appendIf. apply in_or_app. right. now left. Qed.

Lemma In_appendIf_before (c : bool) (e x : gomap) (d : list gomap) :
  In x d -> In x (appendIf c e d).
Proof.
  intro H. unfold appendIf. destruct c; [|exact H]. apply in_or_app. now left.
Qed.

(** The entry of a plain kind is written as soon as the kind has collected
    a value. *)
Lemma emit_plain_entry (k : string) (proj : locals -> list string) (a : locals) :
  In (k, proj) plainAccumulators ->
  (0 <? List.length (proj a))%nat = true ->
  In [(k, VStrings (proj a))] (emit a).
Proof.
  intros Hk Hc. unfold emit. cbv zeta. simpl in Hk.
  repeat (destruct Hk as [Hk|Hk];
    [injection Hk as <- <-;
     repeat first [apply In_appendIf_here; exact Hc | apply In_appendIf_before]|]).
  contradiction.
Qed.

(** What the scan leaves in the local variables the post-pass tests, read
    off the input. *)
Lemma scan_accumulators (accessGroup : list value) (a : locals) :
  scan accessGroup = Ret a ->
  (emails a = matchedValues "email" accessGroup
   /\ emailDomains a = matchedValues "email_domain" accessGroup
   /\ ips a = matchedValues "ip" accessGroup
   /\ serviceTokens a = matchedValues "service_token" accessGroup
   /\ groups a = matchedValues "group" accessGroup
   /\ geos a = matchedValues "geo" accessGroup
   /\ loginMethod a = matchedValues "login_method" accessGroup
   /\ devicePostureRuleIDs a = matchedValues "device_posture" accessGroup)
  /\ (commonName a = last (matchedValues "common_name" accessGroup) ""
      /\ authMethod a = last (matchedValues "auth_method" accessGroup) "")
  /\ (oktaGroups a = ruleField "okta" "name" accessGroup
      /\ oktaID a = lastField "okta" "identity_provider_id" accessGroup
      /\ gsuiteEmails a = ruleField "gsuite" "email" accessGroup
      /\ gsuiteID a = lastField "gsuite" "identity_provider_id" accessGroup
      /\ azureIDs a = ruleField "azureAD" "id" accessGroup
      /\ azureID a = lastField "azureAD" "identity_provider_id" accessGroup)
  /\ (samlAttrName a = lastField "saml" "attribute_name" accessGroup
      /\ samlAttrValue a = lastField "saml" "attribute_value" accessGroup
      /\ externalEvaluationURL a
         = lastField "external_evaluation" "evaluate_url" accessGroup
      /\ externalEvaluationKeysURL a
         = lastField "external_evaluation" "keys_url" accessGroup
      /\ githubName a = lastField "github-organization" "name" accessGroup
      /\ githubID a
         = lastField "github-organization" "identity_provider_id" accessGroup).
Proof.
  intro Ha.
  destruct (scan_provider "okta" "okta" "name" oktaID oktaGroups accessGroup a
              ltac:(simpl; tauto) Ha) as [Ho1 Ho2].
  destruct (scan_provider "gsuite" "gsuite" "email" gsuiteID gsuiteEmails accessGroup a
              ltac:(simpl; tauto) Ha) as [Hg1 Hg2].
  destruct (scan_provider "azure" "azureAD" "id" azureID azureIDs accessGroup a
              ltac:(simpl; tauto) Ha) as [Hz1 Hz2].
  split; [|split; [|split]].
  - repeat split; apply scan_plain; (exact Ha || (simpl; tauto)).
  - split; apply scan_scalar; (exact Ha || (simpl; tauto)).
  - repeat split; assumption.
  - repeat split; apply scan_field; (exact Ha || (simpl; tauto)).
Qed.

(** The conditions of the post-pass on the local variables are those of
    [keyCondition] on the input. *)
Lemma emitCondition_keyWritten
    (accessGroup : list value) (a : locals) (k : string) (c : locals -> bool) :
  scan accessGroup = Ret a ->
  In (k, c) emitCondition -> c a = keyWritten k accessGroup.
Proof.
  intros Ha Hin.
  destruct (scan_accumulators accessGroup a Ha)
    as [[E1 [E2 [E3 [E4 [E5 [E6 [E7 E8]]]]]]]
        [[S1 S2] [[P1 [P2 [P3 [P4 [P5 P6]]]]] [F1 [F2 [F3 [F4 [F5 F6]]]]]]]].
  simpl in Hin.
  repeat (destruct Hin as [Hin|Hin];
          [injection Hin as <- <-; cbv beta;
           rewrite ?E1, ?E2, ?E3, ?E4, ?E5, ?E6, ?E7, ?E8, ?S1, ?S2,
             ?P1, ?P2, ?P3, ?P4, ?P5, ?P6, ?F1, ?F2, ?F3, ?F4, ?F5, ?F6;
           reflexivity|]).
  contradiction.
Qed.

Lemma keyWritten_listed (k : string) (accessGroup : list value) :
  keyWritten k accessGroup = true -> In k sourceOrder.
Proof.
  unfold keyWritten. intro H.
  destruct (find (fun kc : string * (list value -> bool) => fst kc =? k) keyCondition)
    as [kc|] eqn:Hf; [|discriminate].
  apply find_some in Hf as [Hin Hk]. apply String.eqb_eq in Hk. subst k.
  change sourceOrder with (map fst keyCondition). now apply in_map.
Qed.

(** C2, as amended.  For every key but everyone, any_valid_service_token
    and certificate the rules of the input are merged: the output holds
    exactly one entry with the key when the key's condition holds on the
    input, and none otherwise.  For a plain kind the condition is that the
    input holds a value of the kind, and the one entry holds the list of
    all the values of the rules of that kind in the order of the input.
    The three flag keys are not merged: each has one entry, holding true,
    per rule of the input with that key. *)
Theorem transform_merges_accumulated_kinds
    (accessGroup : list value) (out : list gomap) :
  TransformAccessGroupForSchema accessGroup = Ret out ->
  (forall k, isFlagKey k = false ->
     countKey k out = (if keyWritten k accessGroup then 1 else 0))
  /\ (forall k, In k (map fst plainAccumulators) ->
        keyWritten k accessGroup = collected k accessGroup
        /\ (collected k accessGroup = true ->
            In [(k, VStrings (matchedValues k accessGroup))] out)
        /\ (forall entry, In entry out -> hasKey k entry = true ->
              entry = [(k, VStrings (matchedValues k accessGroup))]))
  /\ (forall k, isFlagKey k = true ->
        countKey k out = keyOccurrences k accessGroup
        /\ (forall entry, In entry out -> hasKey k entry = true ->
              entry = [(k, VBool true)])).
Proof.
  intro H. apply Transform_inv in H as [a [Ha ->]].
  pose proof (scan_data accessGroup a Ha) as Hd. split; [|split].
  - intros k Hk. destruct (in_dec string_dec k sourceOrder) as [Hin|Hn].
    + apply sourceOrder_listed in Hin as [c Hc].
      rewrite (countKey_emit_listed k c a Hc), Hd,
        (countKey_flagEntries_other k accessGroup Hk),
        (emitCondition_keyWritten accessGroup a k c Ha Hc).
      reflexivity.
    + rewrite (countKey_emit_unlisted k a Hn), Hd,
        (countKey_flagEntries_other k accessGroup Hk).
      destruct (keyWritten k accessGroup) eqn:Hw; [|reflexivity].
      now apply keyWritten_listed in Hw.
  - intros k Hk. split; [|split].
    + simpl in Hk.
      repeat (destruct Hk as [<-|Hk]; [reflexivity|]). contradiction.
    + apply in_map_iff in Hk as [[k' proj] [Hfst Hk]]. simpl in Hfst. subst k'.
      unfold collected. rewrite <- (scan_plain k proj accessGroup a Hk Ha).
      now apply emit_plain_entry.
    + apply in_map_iff in Hk as [[k' proj] [Hfst Hk]]. simpl in Hfst. subst k'.
      rewrite <- (scan_plain k proj accessGroup a Hk Ha).
      intros entry Hin Hhas. unfold emit in Hin. cbv zeta in Hin. simpl in Hk.
      repeat (destruct Hk as [Hk|Hk];
        [injection Hk as <- <-;
         repeat (apply In_appendIf in Hin as [Hin|[_ ->]];
                 [|first [reflexivity
                         |rewrite hasKey_single in Hhas; vm_compute in Hhas;
                          discriminate]]);
         rewrite Hd in Hin;
         apply (hasKey_flagEntries _ _ _ Hin) in Hhas; discriminate|]).
      contradiction.
  - intros k Hk. split.
    + rewrite (countKey_emit_unlisted k a (sourceOrder_not_flag k Hk)), Hd.
      now apply countKey_flagEntries.
    + intros entry Hin Hhas.
      apply emit_entries in Hin as [Hin|[k' [v [-> Hk']]]].
      * rewrite Hd in Hin. apply flagEntries_entries in Hin as [k' [-> Hk']].
        rewrite hasKey_single in Hhas. apply String.eqb_eq in Hhas. now subst k'.
      * rewrite hasKey_single in Hhas. apply String.eqb_eq in Hhas. subst k'.
        now apply sourceOrder_not_flag in Hk.
Qed.

Lemma transform_merges_accumulated_kinds_witness :
  TransformAccessGroupForSchema mixedRules
  = Ret [[("everyone", VBool true)];
         [("email", VStrings ["a@x.com"; "b@x.com"])];
         [("geo", VStrings ["NL"])]]
  /\ countKey "email" [[("everyone", VBool true)];
                       [("email", VStrings ["a@x.com"; "b@x.com"])];
                       [("geo", VStrings ["NL"])]]
     = (if keyWritten "email" mixedRules then 1 else 0)
  /\ keyWritten "email" mixedRules = true
  /\ In [("email", VStrings (matchedValues "email" mixedRules))]
       [[("everyone", VBool true)];
        [("email", VStrings ["a@x.com"; "b@x.com"])];
        [("geo", VStrings ["NL"])]]
  /\ matchedValues "email" mixedRules = ["a@x.com"; "b@x.com"]
  /\ countKey "ip" [[("everyone", VBool true)];
                    [("email", VStrings ["a@x.com"; "b@x.com"])];
                    [("geo", VStrings ["NL"])]]
     = (if keyWritten "ip" mixedRules then 1 else 0)
  /\ keyWritten "ip" mixedRules = false
  /\ countKey "everyone" [[("everyone", VBool true)];
                          [("email", VStrings ["a@x.com"; "b@x.com"])];
                          [("geo", VStrings ["NL"])]]
     = keyOccurrences "everyone" mixedRules.
Proof.
  split; [reflexivity|].
  destruct (transform_merges_accumulated_kinds mixedRules _ eq_refl) as [H1 [H2 H3]].
  destruct (H2 "email" ltac:(simpl; tauto)) as [_ [He _]].
  destruct (H3 "everyone" eq_refl) as [Hf _].
  split; [exact (H1 "email" eq_refl)|]. split; [reflexivity|].
  split; [exact (He eq_refl)|]. split; [reflexivity|].
  split; [exact (H1 "ip" eq_refl)|]. split; [reflexivity|]. exact Hf.
Defined.

(** The keys of the flag entries are the flag keys of the rules. *)
Lemma entryKeys_flagEntries (accessGroup : list value) :
  entryKeys (flagEntries accessGroup) = flagKeys accessGroup.
Proof.
  unfold entryKeys, flagEntries, flagKeys.
  induction accessGroup as [|group rest IH]; simpl; [reflexivity|].
  rewrite flat_map_app, IH. f_equal.
  destruct group; try reflexivity.
  induction m as [|[k v] m IHm]; simpl; [reflexivity|].
  rewrite flat_map_app, IHm. destruct (isFlagKey k); reflexivity.
Qed.

(** Selecting from a table with distinct keys, entry by entry or key by
    key. *)
Lemma table_selection {C : Type} (t : list (string * (C -> bool))) (x : C) :
  NoDup (map fst t) ->
  filter (fun k => match find (fun kc : string * (C -> bool) => fst kc =? k) t with
                   | Some kc => snd kc x
                   | None => false
                   end) (map fst t)
  = flat_map (fun kc : string * (C -> bool) => if snd kc x then [fst kc] else []) t.
Proof.
  induction t as [|[k0 c0] t IH]; intro Hnd; [reflexivity|].
  inversion Hnd as [|? ? Hnotin Hnd']; subst.
  cbn [map fst filter find flat_map snd]. rewrite String.eqb_refl. cbn [snd].
  rewrite <- (IH Hnd').
  rewrite (filter_ext_in
             (fun k => match (if k0 =? k then Some (k0, c0)
                              else find (fun kc : string * (C -> bool) => fst kc =? k) t) with
                       | Some kc => snd kc x
                       | None => false
                       end)
             (fun k => match find (fun kc : string * (C -> bool) => fst kc =? k) t with
                       | Some kc => snd kc x
                       | None => false
                       end)).
  - destruct (c0 x); reflexivity.
  - intros k Hk. destruct (k0 =? k) eqn:E; [|reflexivity].
    apply String.eqb_eq in E. subst k. contradiction.
Qed.

Lemma sourceOrder_NoDup : NoDup sourceOrder.
Proof.
  assert (nodup string_dec sourceOrder = sourceOrder) as <- by (vm_compute; reflexivity).
  apply NoDup_nodup.
Qed.

Lemma expectedKeys_selected (accessGroup : list value) :
  expectedKeys accessGroup
  = flat_map (fun kc : string * (list value -> bool) =>
                if snd kc accessGroup then [fst kc] else []) keyCondition.
Proof.
  rewrite <- table_selection by exact sourceOrder_NoDup. reflexivity.
Qed.

(** The keys the post-pass writes are [sourceOrder] less the keys whose
    condition fails on the input. *)
Lemma writtenKeys_expected (accessGroup : list value) (a : locals) :
  scan accessGroup = Ret a -> writtenKeys a = expectedKeys accessGroup.
Proof.
  intro Ha. rewrite expectedKeys_selected.
  destruct (scan_accumulators accessGroup a Ha)
    as [[E1 [E2 [E3 [E4 [E5 [E6 [E7 E8]]]]]]]
        [[S1 S2] [[P1 [P2 [P3 [P4 [P5 P6]]]]] [F1 [F2 [F3 [F4 [F5 F6]]]]]]]].
  unfold writtenKeys, emitCondition, keyCondition, collected.
  cbn [flat_map fst snd].
  rewrite E1, E2, E3, E4, E5, E6, E7, E8, S1, S2, P1, P2, P3, P4, P5, P6,
    F1, F2, F3, F4, F5, F6.
  reflexivity.
Qed.

Lemma flagKeys_Permutation (l1 l2 : list value) :
  Permutation l1 l2 -> Permutation (flagKeys l1) (flagKeys l2).
Proof. unfold flagKeys. apply Permutation_flat_map. Qed.

(** Whether a plain kind has collected a value does not depend on the
    order of the rules. *)
Lemma plain_keyWritten_Permutation (k : string) (l1 l2 : list value) :
  In k (map fst plainAccumulators) ->
  Permutation l1 l2 -> keyWritten k l1 = keyWritten k l2.
Proof.
  intros Hk Hp.
  assert (keyWritten k l1 = collected k l1 /\ keyWritten k l2 = collected k l2)
    as [-> ->].
  { simpl in Hk.
    repeat (destruct Hk as [<-|Hk]; [split; reflexivity|]). contradiction. }
  unfold collected.
  now rewrite (Permutation_length (matchedValues_Permutation k l1 l2 Hp)).
Qed.

(** C6, as amended.  Whatever the order of the rules in the input, the
    keys of the output are the keys everyone, any_valid_service_token and
    certificate of the rules, one per rule in the order of the input,
    followed by the keys of the post-pass in its fixed order: [sourceOrder]
    less exactly the keys whose condition fails on the input.  A reordered
    input is transformed whenever the input is, gives the same flag keys up
    to their order, and gives an entry for a plain kind exactly when the
    input does. *)
Theorem transform_key_order (l1 l2 : list value) (out1 : list gomap) :
  Permutation l1 l2 ->
  TransformAccessGroupForSchema l1 = Ret out1 ->
  exists out2,
    TransformAccessGroupForSchema l2 = Ret out2
    /\ entryKeys out1
       = flagKeys l1 ++ filter (fun k => keyWritten k l1) sourceOrder
    /\ entryKeys out2
       = flagKeys l2 ++ filter (fun k => keyWritten k l2) sourceOrder
    /\ Permutation (flagKeys l1) (flagKeys l2)
    /\ (forall k, In k (map fst plainAccumulators) ->
                  keyWritten k l1 = keyWritten k l2).
Proof.
  intros Hp H1. apply Transform_inv in H1 as [a1 [Ha1 ->]].
  destruct (scan_Permutation l1 l2 a1 Hp Ha1) as [a2 Ha2].
  exists (emit a2).
  unfold TransformAccessGroupForSchema. rewrite Ha2. cbn [bind].
  rewrite !entryKeys_emit, (scan_data l1 a1 Ha1), (scan_data l2 a2 Ha2),
    !entryKeys_flagEntries,
    (writtenKeys_expected l1 a1 Ha1), (writtenKeys_expected l2 a2 Ha2).
  split; [reflexivity|]. split; [reflexivity|]. split; [reflexivity|].
  split; [now apply flagKeys_Permutation|].
  intros k Hk. now apply plain_keyWritten_Permutation.
Qed.

Lemma transform_key_order_witness :
  Permutation fourRules (rev fourRules)
  /\ TransformAccessGroupForSchema fourRules
     = Ret [[("everyone", VBool true)]; [("certificate", VBool true)];
            [("email", VStrings ["a@x.com"])]; [("geo", VStrings ["NL"])]]
  /\ flagKeys fourRules = ["everyone"; "certificate"]
  /\ flagKeys (rev fourRules) = ["certificate"; "everyone"]
  /\ filter (fun k => keyWritten k fourRules) sourceOrder = ["email"; "geo"]
  /\ filter (fun k => keyWritten k (rev fourRules)) sourceOrder = ["email"; "geo"]
  /\ exists out2,
      TransformAccessGroupForSchema (rev fourRules) = Ret out2
      /\ entryKeys [[("everyone", VBool true)]; [("certificate", VBool true)];
                    [("email", VStrings ["a@x.com"])]; [("geo", VStrings ["NL"])]]
         = flagKeys fourRules ++ filter (fun k => keyWritten k fourRules) sourceOrder
      /\ entryKeys out2
         = flagKeys (rev fourRules)
           ++ filter (fun k => keyWritten k (rev fourRules)) sourceOrder
      /\ Permutation (flagKeys fourRules) (flagKeys (rev fourRules))
      /\ (forall k, In k (map fst plainAccumulators) ->
                    keyWritten k fourRules = keyWritten k (rev fourRules)).
Proof.
  split; [apply Permutation_rev|]. split; [reflexivity|].
  split; [reflexivity|]. split; [reflexivity|].
  split; [reflexivity|]. split; [reflexivity|].
  apply (transform_key_order fourRules (rev fourRules)).
  - apply Permutation_rev.
  - reflexivity.
Defined.

(* ================================================================= *)
(** ** Further properties of appendConditionalAccessGroupFields *)

Lemma assign_keeps {B : Type}
    (assignField : list value -> AccessGroup.t -> AccessGroup.t)
    (other : AccessGroup.t -> B) :
  (forall c g, other (assignField c g) = other g) ->
  forall l g g', forEach l (assignCondition assignField) g = Ret g' -> other g' = other g.
Proof.
  intros Hk l; induction l as [|x l IH]; simpl; intros g g' H.
  - now injection H as <-.
  - apply bind_Ret_inv in H as [g1 [H1 H]].
    rewrite (IH _ _ H). unfold assignCondition in H1.
    destruct (isNil x); [now injection H1 as <-|].
    apply bind_Ret_inv in H1 as [m [_ H1]].
    apply bind_Ret_inv in H1 as [c [_ H1]].
    injection H1 as <-. apply Hk.
Qed.

(** X14. [appendConditionalAccessGroupFields] touches the three condition
    lists only: the ID and the name of the group are kept, and a list of
    the schema that is empty or holds nil blocks only leaves its field as
    it was. *)
Theorem append_keeps_id_and_name (group group' : AccessGroup.t) (d : ResourceData) :
  appendConditionalAccessGroupFields group d = Ret group' ->
  AccessGroup.ID group' = AccessGroup.ID group
  /\ AccessGroup.Name group' = AccessGroup.Name group
  /\ (forall l, Get d "exclude" = VSlice l -> forallb isNil l = true ->
                AccessGroup.Exclude group' = AccessGroup.Exclude group)
  /\ (forall l, Get d "require" = VSlice l -> forallb isNil l = true ->
                AccessGroup.Require group' = AccessGroup.Require group)
  /\ (forall l, Get d "include" = VSlice l -> forallb isNil l = true ->
                AccessGroup.Include group' = AccessGroup.Include group).
Proof.
  unfold appendConditionalAccessGroupFields. intro H.
  apply bind_Ret_inv in H as [le [Hle H]].
  apply bind_Ret_inv in H as [g1 [H1 H]].
  apply bind_Ret_inv in H as [lr [Hlr H]].
  apply bind_Ret_inv in H as [g2 [H2 H3]].
  apply bind_Ret_inv in H3 as [li [Hli H3]].
  repeat split.
  - rewrite (assign_keeps AccessGroup.withInclude AccessGroup.ID (fun _ _ => eq_refl)
               _ _ _ H3),
      (assign_keeps AccessGroup.withRequire AccessGroup.ID (fun _ _ => eq_refl)
         _ _ _ H2).
    exact (assign_keeps AccessGroup.withExclude AccessGroup.ID (fun _ _ => eq_refl)
             _ _ _ H1).
  - rewrite (assign_keeps AccessGroup.withInclude AccessGroup.Name (fun _ _ => eq_refl)
               _ _ _ H3),
      (assign_keeps AccessGroup.withRequire AccessGroup.Name (fun _ _ => eq_refl)
         _ _ _ H2).
    exact (assign_keeps AccessGroup.withExclude AccessGroup.Name (fun _ _ => eq_refl)
             _ _ _ H1).
  - intros l Hget Hnil. rewrite Hget in Hle. injection Hle as <-.
    rewrite (assign_nil_blocks AccessGroup.withExclude l group Hnil) in H1.
    injection H1 as <-.
    rewrite (assign_keeps AccessGroup.withInclude AccessGroup.Exclude
               (fun _ _ => eq_refl) _ _ _ H3).
    exact (assign_keeps AccessGroup.withRequire AccessGroup.Exclude
             (fun _ _ => eq_refl) _ _ _ H2).
  - intros l Hget Hnil. rewrite Hget in Hlr. injection Hlr as <-.
    rewrite (assign_nil_blocks AccessGroup.withRequire l g1 Hnil) in H2.
    injection H2 as <-.
    rewrite (assign_keeps AccessGroup.withInclude AccessGroup.Require
               (fun _ _ => eq_refl) _ _ _ H3).
    exact (assign_keeps AccessGroup.withExclude AccessGroup.Require
             (fun _ _ => eq_refl) _ _ _ H1).
  - intros l Hget Hnil. rewrite Hget in Hli. injection Hli as <-.
    rewrite (assign_nil_blocks AccessGroup.withInclude l g2 Hnil) in H3.
    injection H3 as <-.
    rewrite (assign_keeps AccessGroup.withRequire AccessGroup.Include
               (fun _ _ => eq_refl) _ _ _ H2).
    exact (assign_keeps AccessGroup.withExclude AccessGroup.Include
             (fun _ _ => eq_refl) _ _ _ H1).
Qed.

Lemma append_keeps_id_and_name_witness :
  AccessGroup.ID (AccessGroup.withExclude [VStruct (AccessGroupGeo "NL")] exampleGroup)
  = AccessGroup.ID exampleGroup
  /\ AccessGroup.Name (AccessGroup.withExclude [VStruct (AccessGroupGeo "NL")] exampleGroup)
     = AccessGroup.Name exampleGroup.
Proof.
  destruct (append_keeps_id_and_name exampleGroup
              (AccessGroup.withExclude [VStruct (AccessGroupGeo "NL")] exampleGroup)
              exampleBlocks eq_refl) as [H1 [H2 _]].
  split; assumption.
Defined.

(* ================================================================= *)
(** ** Splitting an import ID *)

Lemma prefix_slash (c : Ascii.ascii) (rest : string) :
  String.prefix (String slash EmptyString) (String c rest) = Ascii.eqb c slash.
Proof.
  change (String.prefix (String slash EmptyString) (String c rest))
    with (match Ascii.ascii_dec slash c with
          | left _ => String.prefix EmptyString rest
          | right _ => false
          end).
  destruct (Ascii.ascii_dec slash c) as [<-|Hne].
  - rewrite Ascii.eqb_refl. now destruct rest.
  - symmetry. apply Ascii.eqb_neq. congruence.
Qed.

Lemma cutSlash_none (s : string) :
  stringsContains s "/" = false -> cutSlash s = None.
Proof.
  induction s as [|c rest IH]; [reflexivity|].
  change (stringsContains (String c rest) "/")
    with (if String.prefix (String slash EmptyString) (String c rest) then true
          else stringsContains rest "/").
  rewrite prefix_slash. simpl. destruct (Ascii.eqb c slash); [discriminate|].
  intro H. now rewrite (IH H).
Qed.

Lemma cutSlash_first (before after : string) :
  stringsContains before "/" = false ->
  cutSlash (before ++ "/" ++ after)%string = Some (before, after).
Proof.
  induction before as [|c rest IH]; [reflexivity|].
  change (stringsContains (String c rest) "/")
    with (if String.prefix (String slash EmptyString) (String c rest) then true
          else stringsContains rest "/").
  rewrite prefix_slash.
  change (cutSlash (String c rest ++ "/" ++ after)%string)
    with (if Ascii.eqb c slash then Some (EmptyString, (rest ++ "/" ++ after)%string)
          else match cutSlash (rest ++ "/" ++ after)%string with
               | Some (b, a) => Some (String c b, a)
               | None => None
               end).
  destruct (Ascii.eqb c slash); [discriminate|].
  intro H. now rewrite (IH H).
Qed.

(* ================================================================= *)
(** ** Read, delete, update and import of an Access Group *)

Section GroupLifecycle.

Variable Sprintf : string -> list string -> string.
Variable dSet : string -> value -> ResourceData -> ResourceData * option goerror.
Variable initIdentifier : ResourceData -> reply AccessIdentifier.

Hypothesis dSet_keeps_id : forall key v d, Id (fst (dSet key v d)) = Id d.

Lemma setConditions_keeps_id (key format : string) (conditions : list value)
    (d d' : ResourceData) (diag : option goerror) :
  setConditions dSet key format conditions d = Ret (d', diag) -> Id d' = Id d.
Proof.
  unfold setConditions. intro H. apply bind_Ret_inv in H as [blocks [_ H]].
  pose proof (dSet_keeps_id key (schemaBlocks blocks) d) as Hid.
  destruct (dSet key (schemaBlocks blocks) d) as [d1 [e|]];
    injection H as <- _; exact Hid.
Qed.

Lemma read_id (client : API) (d d' : ResourceData) (diag : option goerror) :
  resourceCloudflareAccessGroupRead Sprintf dSet initIdentifier client d = Ret (d', diag) ->
  Id d' = Id d \/ (Id d' = "" /\ diag = None).
Proof.
  unfold resourceCloudflareAccessGroupRead. intro H.
  destruct (initIdentifier d) as [identifier|e]; [|injection H as <- _; now left].
  destruct (match Type_ identifier with
            | AccountType => clientAccessGroup client (Value identifier) (Id d)
            | ZoneType => clientZoneLevelAccessGroup client (Value identifier) (Id d)
            end) as [accessGroup|e].
  - left.
    apply bind_Ret_inv in H as [[d1 e1] [H1 H]].
    apply setConditions_keeps_id in H1. rewrite dSet_keeps_id in H1.
    destruct e1 as [e1|]; [injection H as <- _; exact H1|].
    apply bind_Ret_inv in H as [[d2 e2] [H2 H]].
    apply setConditions_keeps_id in H2.
    destruct e2 as [e2|]; [injection H as <- _; congruence|].
    apply setConditions_keeps_id in H. congruence.
  - destruct (stringsContains (errorText Sprintf e) "HTTP status 404").
    + injection H as <- <-. right. split; reflexivity.
    + injection H as <- _. now left.
Qed.


(** X15. A read never changes the resource ID except to clear it: when it
    returns, the ID is the one it started with, or it is empty, the read
    reports no error, and the API call had failed with an error whose text
    holds "HTTP status 404". *)
Theorem read_keeps_or_clears_id
    (client : API) (d d' : ResourceData) (diag : option goerror) :
  resourceCloudflareAccessGroupRead Sprintf dSet initIdentifier client d = Ret (d', diag) ->
  Id d' = Id d
  \/ (Id d' = "" /\ diag = None
      /\ exists identifier err,
          initIdentifier d = OK identifier
          /\ match Type_ identifier with
             | AccountType => clientAccessGroup client (Value identifier) (Id d)
             | ZoneType => clientZoneLevelAccessGroup client (Value identifier) (Id d)
             end = Err err
          /\ stringsContains (errorText Sprintf err) "HTTP status 404" = true).
Proof.
  intro H. pose proof (read_id client d d' diag H) as Hid.
  unfold resourceCloudflareAccessGroupRead in H.
  destruct (initIdentifier d) as [identifier|e] eqn:Hident;
    [|injection H as <- _; now left].
  destruct (match Type_ identifier with
            | AccountType => clientAccessGroup client (Value identifier) (Id d)
            | ZoneType => clientZoneLevelAccessGroup client (Value identifier) (Id d)
            end) as [accessGroup|e] eqn:Hcall.
  - left. destruct Hid as [Hid|[Hid Hdiag]]; [exact Hid|].
    apply bind_Ret_inv in H as [[d1 e1] [H1 H]].
    apply setConditions_keeps_id in H1. rewrite dSet_keeps_id in H1.
    destruct e1 as [e1|]; [injection H as <- _; exact H1|].
    apply bind_Ret_inv in H as [[d2 e2] [H2 H]].
    apply setConditions_keeps_id in H2.
    destruct e2 as [e2|]; [injection H as <- _; congruence|].
    apply setConditions_keeps_id in H. congruence.
  - destruct (stringsContains (errorText Sprintf e) "HTTP status 404") eqn:H404.
    + injection H as <- <-. right. repeat split. eauto.
    + injection H as <- _. now left.
Qed.

(** X16. A delete that the API accepts reports no error whatever the read
    that follows it reports, and leaves the resource data as that read
    left them; a delete that the API refuses returns the error wrapped and
    leaves the resource data untouched. *)
Theorem delete_ignores_read_diagnostics
    (client : WriteAPI) (d : ResourceData) (identifier : AccessIdentifier) :
  initIdentifier d = OK identifier ->
  (forall d' diag,
      match Type_ identifier with
      | AccountType => clientDeleteAccessGroup client (Value identifier) (Id d)
      | ZoneType => clientDeleteZoneLevelAccessGroup client (Value identifier) (Id d)
      end = None ->
      readGroup Sprintf dSet initIdentifier client d = Ret (d', diag) ->
      resourceCloudflareAccessGroupDelete Sprintf dSet initIdentifier client d
      = Ret (d', None))
  /\ (forall err,
         match Type_ identifier with
         | AccountType => clientDeleteAccessGroup client (Value identifier) (Id d)
         | ZoneType => clientDeleteZoneLevelAccessGroup client (Value identifier) (Id d)
         end = Some err ->
         resourceCloudflareAccessGroupDelete Sprintf dSet initIdentifier client d
         = Ret (d, Some (wrapError "error deleting Access Group for ID %q: %w"
                           [Id d] err))).
Proof.
  intro Hid. unfold resourceCloudflareAccessGroupDelete. rewrite Hid. split.
  - intros d' diag Hdel Hread. rewrite Hdel, Hread. reflexivity.
  - intros err Hdel. rewrite Hdel. reflexivity.
Qed.


End GroupLifecycle.

Section GroupImport.

Variable Sprintf : string -> list string -> string.
Variable dSet : string -> value -> ResourceData -> ResourceData * option goerror.
Variable initIdentifier : ResourceData -> reply AccessIdentifier.

(** X18. An import ID without a slash is refused: whatever the client
    would answer, the import returns the error "invalid id" and no
    resource data. *)
Theorem import_requires_separator (client : WriteAPI) (d : ResourceData) :
  stringsContains (Id d) "/" = false ->
  resourceCloudflareAccessGroupImport Sprintf dSet initIdentifier client d
  = Ret ([], Some (errorString (Sprintf invalidImportID [Id d]))).
Proof.
  intro H. unfold resourceCloudflareAccessGroupImport, stringsSplitN2.
  rewrite (cutSlash_none (Id d) H). reflexivity.
Qed.

(** X19. An import ID is split at its first slash: the text before it
    becomes account_id, the text after it, further slashes included,
    becomes the resource ID under which the group is read; the import then
    returns the data as the read left them and no error, whatever the read
    reports. *)
Theorem import_splits_at_first_slash
    (client : WriteAPI) (d d' : ResourceData) (account group : string)
    (diag : option goerror) :
  Id d = (account ++ "/" ++ group)%string ->
  stringsContains account "/" = false ->
  readGroup Sprintf dSet initIdentifier client
    (SetId group (fst (dSet "account_id" (VString account) d))) = Ret (d', diag) ->
  resourceCloudflareAccessGroupImport Sprintf dSet initIdentifier client d
  = Ret ([d'], None).
Proof.
  intros Hid Hacc Hread.
  unfold resourceCloudflareAccessGroupImport, stringsSplitN2.
  rewrite Hid, (cutSlash_first account group Hacc). cbv zeta.
  rewrite Hread. reflexivity.
Qed.

End GroupImport.

Lemma exampleSet_keeps_id (key : string) (v : value) (d : ResourceData) :
  Id (fst (exampleSet key v d)) = Id d.
Proof. reflexivity. Qed.

Lemma read_keeps_or_clears_id_witness :
  resourceCloudflareAccessGroupRead exampleSprintf exampleSet exampleIdentifier
    exampleClient (exampleGroupData "gone")
  = Ret (SetId "" (exampleGroupData "gone"), None)
  /\ (Id (SetId "" (exampleGroupData "gone")) = Id (exampleGroupData "gone")
      \/ (Id (SetId "" (exampleGroupData "gone")) = "" /\ @None goerror = None
          /\ exists identifier err,
              exampleIdentifier (exampleGroupData "gone") = OK identifier
              /\ match Type_ identifier with
                 | AccountType =>
                     clientAccessGroup exampleClient (Value identifier)
                       (Id (exampleGroupData "gone"))
                 | ZoneType =>
                     clientZoneLevelAccessGroup exampleClient (Value identifier)
                       (Id (exampleGroupData "gone"))
                 end = Err err
              /\ stringsContains (errorText exampleSprintf err) "HTTP status 404" = true)).
Proof.
  split; [reflexivity|].
  apply (read_keeps_or_clears_id exampleSprintf exampleSet exampleIdentifier
           exampleSet_keeps_id exampleClient (exampleGroupData "gone")).
  reflexivity.
Defined.

(** The example delete, evaluated: the read after it fails with the error
    of status 500, and the delete reports nothing. *)
Lemma delete_ignores_read_diagnostics_witness :
  readGroup exampleSprintf exampleSet exampleIdentifier exampleWriteClient
    (exampleGroupData "group-1")
  = Ret (exampleGroupData "group-1",
         Some (wrapError "error finding Access Group %q: %w" ["group-1"]
                 (errorString "HTTP status 500: internal error")))
  /\ resourceCloudflareAccessGroupDelete exampleSprintf exampleSet exampleIdentifier
       exampleWriteClient (exampleGroupData "group-1")
     = Ret (exampleGroupData "group-1", None).
Proof.
  split; [reflexivity|].
  apply (proj1 (delete_ignores_read_diagnostics exampleSprintf exampleSet
                  exampleIdentifier exampleWriteClient (exampleGroupData "group-1")
                  {| Type_ := AccountType; Value := "account-1" |} eq_refl)
           (exampleGroupData "group-1")
           (Some (wrapError "error finding Access Group %q: %w" ["group-1"]
                    (errorString "HTTP status 500: internal error")))).
  - reflexivity.
  - reflexivity.
Defined.


Lemma import_requires_separator_witness :
  resourceCloudflareAccessGroupImport exampleSprintf exampleSet exampleIdentifier
    exampleWriteClient (exampleImportData "group-1")
  = Ret ([], Some (errorString (exampleSprintf invalidImportID ["group-1"]))).
Proof.
  apply (import_requires_separator exampleSprintf exampleSet exampleIdentifier
           exampleWriteClient (exampleImportData "group-1")).
  reflexivity.
Defined.

Lemma import_splits_at_first_slash_witness :
  exists d',
    Id d' = "" /\ Get d' "account_id" = VString "account-1"
    /\ resourceCloudflareAccessGroupImport exampleSprintf exampleSet exampleIdentifier
         exampleWriteClient (exampleImportData "account-1/gone")
       = Ret ([d'], None).
Proof.
  eexists. split; [|split];
    [| |apply (import_splits_at_first_slash exampleSprintf exampleSet exampleIdentifier
               exampleWriteClient (exampleImportData "account-1/gone") _
               "account-1" "gone" None);
        [reflexivity|reflexivity|reflexivity]];
    reflexivity.
Defined.

(* ================================================================= *)
(** ** Further properties of the WAF rules data source *)

Section WAFRulesFurther.

Variable dSet : string -> value -> ResourceData -> ResourceData * option goerror.
Variable stringListChecksum : list string -> string.
Context {Regexp : Type}.
Variable regexpCompile : string -> reply Regexp.
Variable regexpMatch : Regexp -> string -> bool.

(** X20. The only error [expandFilterWAFRules] reports is a description
    that does not compile as a regular expression: it then returns the
    error of the compiler, and the description is that of the first block
    of the filter list. *)
Theorem expand_filter_error_is_compile_error (d : value) (err : goerror) :
  expandFilterWAFRules regexpCompile d = Ret (Err err) ->
  exists m rest description,
    d = VSlice (VMap m :: rest)
    /\ mapLookup m "description" = Some (VString description)
    /\ regexpCompile description = Err err.
Proof.
  unfold expandFilterWAFRules. intro H.
  apply bind_Ret_inv in H as [cfg [Hcfg H]].
  destruct d; try discriminate. simpl in Hcfg. injection Hcfg as <-.
  destruct l as [|first rest]; [discriminate|].
  destruct (isNil first); [discriminate|].
  apply bind_Ret_inv in H as [m [Hm H]]. apply assertMap_inv in Hm. subst first.
  apply bind_Ret_inv in H as [compiled [Hc H]].
  destruct (mapLookup m "description") as [description|] eqn:Hd.
  - apply bind_Ret_inv in Hc as [s [Hs Hc]].
    destruct description; try discriminate. simpl in Hs. injection Hs as <-.
    destruct (regexpCompile s0) as [re|e] eqn:Hre.
    + injection Hc as <-.
      apply bind_Ret_inv in H as [mode [_ H]].
      apply bind_Ret_inv in H as [groupID [_ H]]. discriminate.
    + injection Hc as <-. injection H as <-. exists m, rest, s0. auto.
  - injection Hc as <-.
    apply bind_Ret_inv in H as [mode [_ H]].
    apply bind_Ret_inv in H as [groupID [_ H]]. discriminate.
Qed.

Variable client : API.
Variable zoneID : string.
Variable filter : @searchFilterWAFRules Regexp.

Lemma scanRules_not_found (pkg : WAFPackage.t) (ruleList : list WAFRule.t) (l : listing) :
  filterGroupID filter = "" \/ existsb (inGroup filter) ruleList = false ->
  fst (fold_left (scanRule regexpMatch filter pkg) ruleList (false, l)) = false.
Proof.
  intro H. rewrite scanRules_found. destruct H as [H|H]; rewrite H.
  - reflexivity.
  - now rewrite andb_false_r.
Qed.

(** The loop goes through the packages that do not stop it. *)
Lemma scanPackages_through (pre rest : list WAFPackage.t) (l : listing) :
  Forall (scannedThrough client zoneID filter) pre ->
  exists l1,
    scanPackages regexpMatch client zoneID filter (pre ++ rest) l
    = scanPackages regexpMatch client zoneID filter rest l1
    /\ queried l1 = queried l ++ map WAFPackage.ID pre
    /\ ruleDetails l1
       = ruleDetails l ++ flat_map (selectedRules regexpMatch client zoneID filter) pre
    /\ (ruleIds l = map detailID (ruleDetails l) ->
        ruleIds l1 = map detailID (ruleDetails l1)).
Proof.
  intro H. revert l. induction H as [|pkg pre [ruleList [Hlist Hno]] _ IH]; intro l.
  - exists l. simpl. rewrite !app_nil_r. auto.
  - cbn [app scanPackages]. rewrite Hlist.
    match goal with
    | |- context [fold_left ?f ruleList (false, ?l0)] =>
        pose proof (scanRules_not_found pkg ruleList l0 Hno) as Hf;
        destruct (scanRules_select regexpMatch filter pkg ruleList false l0)
          as [Hq [Hd Hi]];
        destruct (fold_left f ruleList (false, l0)) as [found l1]
    end.
    simpl in Hf, Hq, Hd, Hi. subst found.
    destruct (IH l1) as [l2 [Hscan [Hq2 [Hd2 Hi2]]]].
    exists l2. split; [exact Hscan|]. split; [|split].
    + rewrite Hq2, Hq. cbn [map]. now rewrite <- app_assoc.
    + rewrite Hd2, Hd. cbn [flat_map].
      unfold selectedRules at 2. rewrite Hlist. now rewrite <- app_assoc.
    + intro Hinv. apply Hi2. rewrite Hi, Hd, Hinv, map_app, map_map. reflexivity.
Qed.

Variable d : ResourceData.
Variable packageID : string.
Hypothesis zone_given : assertString (Get d "zone_id") = Ret zoneID.
Hypothesis filter_given :
  expandFilterWAFRules regexpCompile (Get d "filter") = Ret (OK filter).
Hypothesis package_given : assertString (Get d "package_id") = Ret packageID.

(** X21. When every package of the list is listed without error and none
    stops the scan, as when no group_id filter is set, the read asks every
    package for its rules, in order, and emits the rules that pass the
    filter of each package in turn. *)
Theorem scan_covers_all_packages (pkgList : list WAFPackage.t) :
  packageList client zoneID packageID = OK pkgList ->
  Forall (scannedThrough client zoneID filter) pkgList ->
  exists r,
    dataSourceCloudflareWAFRulesRead dSet stringListChecksum regexpCompile
      regexpMatch client d = Ret r
    /\ resultQueried r = map WAFPackage.ID pkgList
    /\ resultRules r
       = flat_map (selectedRules regexpMatch client zoneID filter) pkgList.
Proof.
  intros Hp Hall.
  destruct (scanPackages_through pkgList []
              {| ruleIds := []; ruleDetails := []; queried := [] |} Hall)
    as [l1 [Hscan [Hq [Hd _]]]].
  rewrite app_nil_r in Hscan. simpl in Hscan, Hq, Hd.
  unfold dataSourceCloudflareWAFRulesRead.
  rewrite zone_given. cbn [bind]. rewrite filter_given. cbn [bind].
  rewrite package_given. cbn [bind]. rewrite Hp, Hscan.
  destruct (dSet "rules" (VSlice (ruleDetails l1)) d) as [d' [e|]];
    eexists; (split; [reflexivity|]); simpl; auto.
Qed.

(** X22. When listing the rules of a package fails, the read returns the
    error of the API as it is, emits nothing and leaves the resource data
    untouched; the packages after the failing one are not asked for their
    rules. *)
Theorem list_error_aborts_read
    (pre post : list WAFPackage.t) (pkg : WAFPackage.t) (err : goerror) :
  packageList client zoneID packageID = OK (pre ++ pkg :: post) ->
  Forall (scannedThrough client zoneID filter) pre ->
  clientListWAFRules client zoneID (WAFPackage.ID pkg) = Err err ->
  dataSourceCloudflareWAFRulesRead dSet stringListChecksum regexpCompile
    regexpMatch client d
  = Ret {| resultData := d; resultDiag := Some err;
           resultQueried := map WAFPackage.ID (pre ++ [pkg]); resultRules := [] |}.
Proof.
  intros Hp Hpre Herr.
  destruct (scanPackages_through pre (pkg :: post)
              {| ruleIds := []; ruleDetails := []; queried := [] |} Hpre)
    as [l1 [Hscan [Hq _]]].
  simpl in Hq.
  unfold dataSourceCloudflareWAFRulesRead.
  rewrite zone_given. cbn [bind]. rewrite filter_given. cbn [bind].
  rewrite package_given. cbn [bind]. rewrite Hp, Hscan.
  cbn [scanPackages]. rewrite Herr. cbn [queried].
  rewrite Hq, map_app. reflexivity.
Qed.

(** X23. With a package ID given, the packages of the zone are not looked
    at: the read asks for the rules of that package and of no other. *)
Theorem given_package_is_the_only_one_queried :
  packageID <> "" ->
  exists r,
    dataSourceCloudflareWAFRulesRead dSet stringListChecksum regexpCompile
      regexpMatch client d = Ret r
    /\ resultQueried r = [packageID].
Proof.
  intro Hne. apply String.eqb_neq in Hne.
  unfold dataSourceCloudflareWAFRulesRead.
  rewrite zone_given. cbn [bind]. rewrite filter_given. cbn [bind].
  rewrite package_given. cbn [bind]. unfold packageList. rewrite Hne.
  cbn [scanPackages WAFPackage.ID queried app].
  destruct (clientListWAFRules client zoneID packageID) as [ruleList|e].
  - match goal with
    | |- context [fold_left ?f ruleList (false, ?l0)] =>
        destruct (scanRules_select regexpMatch filter
                    {| WAFPackage.ID := packageID |} ruleList false l0) as [Hq _];
        destruct (fold_left f ruleList (false, l0)) as [found l1]
    end.
    simpl in Hq.
    destruct found;
      (destruct (dSet "rules" (VSlice (ruleDetails l1)) d) as [d' [e|]];
       eexists; (split; [reflexivity|]); exact Hq).
  - eexists. split; reflexivity.
Qed.

Lemma scanPackages_ids (pkgList : list WAFPackage.t) (l l' : listing)
    (e : option goerror) :
  scanPackages regexpMatch client zoneID filter pkgList l = (l', e) ->
  ruleIds l = map detailID (ruleDetails l) ->
  ruleIds l' = map detailID (ruleDetails l').
Proof.
  revert l. induction pkgList as [|pkg pkgs IH]; intros l H Hinv; cbn [scanPackages] in H.
  - now injection H as <- _.
  - destruct (clientListWAFRules client zoneID (WAFPackage.ID pkg)) as [ruleList|e0].
    + match type of H with
      | context [fold_left ?f ruleList (false, ?l0)] =>
          destruct (scanRules_select regexpMatch filter pkg ruleList false l0)
            as [_ [Hd Hi]];
          destruct (fold_left f ruleList (false, l0)) as [found l1]
      end.
      simpl in Hd, Hi.
      assert (ruleIds l1 = map detailID (ruleDetails l1)) as Hinv1
        by (rewrite Hi, Hd, Hinv, map_app, map_map; reflexivity).
      destruct found; [injection H as <- _; exact Hinv1 | exact (IH l1 H Hinv1)].
    + injection H as <- _. exact Hinv.
Qed.

(** X24. After a read that succeeds, the ID of the data source is the
    checksum of the IDs of the emitted rules, in the order in which they
    were emitted. *)
Theorem data_source_id_is_checksum_of_emitted_rules (r : readResult) :
  dataSourceCloudflareWAFRulesRead dSet stringListChecksum regexpCompile
    regexpMatch client d = Ret r ->
  resultDiag r = None ->
  Id (resultData r) = stringListChecksum (map detailID (resultRules r)).
Proof.
  unfold dataSourceCloudflareWAFRulesRead.
  rewrite zone_given. cbn [bind]. rewrite filter_given. cbn [bind].
  rewrite package_given. cbn [bind].
  destruct (packageList client zoneID packageID) as [pkgList|e];
    [|intros [= <-]; discriminate].
  destruct (scanPackages regexpMatch client zoneID filter pkgList _) as [l [e|]] eqn:Hscan;
    [intros [= <-]; discriminate|].
  apply scanPackages_ids in Hscan; [|reflexivity].
  destruct (dSet "rules" (VSlice (ruleDetails l)) d) as [d' [e|]];
    intros [= <-]; [discriminate|].
  intros _. simpl. now rewrite Hscan.
Qed.

End WAFRulesFurther.

Lemma expand_filter_error_is_compile_error_witness :
  expandFilterWAFRules exampleCompile
    (VSlice [VMap [("description", VString "("); ("mode", VBool true)]])
  = Ret (Err (errorString "error parsing regexp: missing closing )"))
  /\ exists m rest description,
      VSlice [VMap [("description", VString "("); ("mode", VBool true)]]
      = VSlice (VMap m :: rest)
      /\ mapLookup m "description" = Some (VString description)
      /\ exampleCompile description
         = Err (errorString "error parsing regexp: missing closing )").
Proof.
  split; [reflexivity|].
  apply (expand_filter_error_is_compile_error exampleCompile). reflexivity.
Defined.

Lemma examplePackages_scannedThrough :
  Forall (scannedThrough (Regexp := string) exampleClient "zone-1" emptyFilter)
    [{| WAFPackage.ID := "p1" |}; {| WAFPackage.ID := "p2" |};
     {| WAFPackage.ID := "p3" |}].
Proof.
  repeat constructor; eexists; (split; [reflexivity | left; reflexivity]).
Qed.

Lemma scan_covers_all_packages_witness :
  exists r,
    dataSourceCloudflareWAFRulesRead exampleSet (String.concat ",")
      (fun s => OK s) (fun re s => stringsContains s re) exampleClient
      (exampleUnfilteredData "") = Ret r
    /\ resultQueried r = ["p1"; "p2"; "p3"]
    /\ List.length (resultRules r) = 4.
Proof.
  destruct (scan_covers_all_packages exampleSet (String.concat ",") (fun s => OK s)
              (fun re s => stringsContains s re) exampleClient "zone-1" emptyFilter
              (exampleUnfilteredData "") "" eq_refl eq_refl eq_refl
              [{| WAFPackage.ID := "p1" |}; {| WAFPackage.ID := "p2" |};
               {| WAFPackage.ID := "p3" |}] eq_refl examplePackages_scannedThrough)
    as [r [Hr [Hq Hrules]]].
  exists r. split; [exact Hr|]. split; [exact Hq|]. rewrite Hrules. reflexivity.
Defined.

Lemma list_error_aborts_read_witness :
  dataSourceCloudflareWAFRulesRead exampleSet (String.concat ",")
    (fun s => OK s) (fun re s => stringsContains s re) exampleFailingClient
    (exampleUnfilteredData "")
  = Ret {| resultData := exampleUnfilteredData "";
           resultDiag := Some (errorString "HTTP status 500: internal error");
           resultQueried := map WAFPackage.ID
                              ([{| WAFPackage.ID := "p1" |}] ++ [{| WAFPackage.ID := "p2" |}]);
           resultRules := [] |}.
Proof.
  apply (list_error_aborts_read exampleSet (String.concat ",") (fun s => OK s)
           (fun re s => stringsContains s re) exampleFailingClient "zone-1" emptyFilter
           (exampleUnfilteredData "") "" eq_refl eq_refl eq_refl
           [{| WAFPackage.ID := "p1" |}] [{| WAFPackage.ID := "p3" |}]
           {| WAFPackage.ID := "p2" |}).
  - reflexivity.
  - repeat constructor. eexists. split; [reflexivity | left; reflexivity].
  - reflexivity.
Defined.

Lemma given_package_is_the_only_one_queried_witness :
  exists r,
    dataSourceCloudflareWAFRulesRead exampleSet (String.concat ",")
      (fun s => OK s) (fun re s => stringsContains s re) exampleClient
      (exampleUnfilteredData "p2") = Ret r
    /\ resultQueried r = ["p2"].
Proof.
  apply (given_package_is_the_only_one_queried exampleSet (String.concat ",")
           (fun s => OK s) (fun re s => stringsContains s re) exampleClient "zone-1"
           emptyFilter (exampleUnfilteredData "p2") "p2" eq_refl eq_refl eq_refl).
  discriminate.
Defined.

Lemma data_source_id_is_checksum_of_emitted_rules_witness :
  exists r,
    dataSourceCloudflareWAFRulesRead exampleSet (String.concat ",")
      (fun s => OK s) (fun re s => stringsContains s re) exampleClient
      (exampleUnfilteredData "") = Ret r
    /\ Id (resultData r) = "r1,r2,r3,r4"
    /\ Id (resultData r) = String.concat "," (map detailID (resultRules r)).
Proof.
  eexists. split; [reflexivity|]. split; [reflexivity|].
  apply (data_source_id_is_checksum_of_emitted_rules exampleSet (String.concat ",")
           (fun s => OK s) (fun re s => stringsContains s re) exampleClient "zone-1"
           emptyFilter (exampleUnfilteredData "") "" eq_refl eq_refl eq_refl).
  - reflexivity.
  - reflexivity.
Defined.

(* ================================================================= *)
(** ** Unset entries of a schema block *)

Lemma Build_app (m1 m2 : gomap) :
  BuildAccessGroupCondition (m1 ++ m2)
  = (a <- BuildAccessGroupCondition m1 ;;
     b <- BuildAccessGroupCondition m2 ;;
     Ret (a ++ b)).
Proof.
  unfold BuildAccessGroupCondition. rewrite forEach_app.
  destruct (forEach m1 buildCondition []) as [a|]; [|reflexivity]. cbn [bind].
  exact (forEach_appendsOnly buildCondition buildCondition_appendsOnly m2 a).
Qed.

Lemma buildCondition_unset (entry : string * value) :
  unsetEntry entry = true -> buildCondition [] entry = Ret [].
Proof.
  destruct entry as [k v]. unfold unsetEntry, isFlagKey, buildCondition.
  cbn [fst snd]. intro H.
  repeat match goal with
  | |- context [k =? ?s] =>
      let E := fresh "E" in
      destruct (k =? s) eqn:E; try rewrite E in H; cbn [orb] in H; cbv iota in H
  end;
  try (destruct (isTrue v); [discriminate | reflexivity]);
  try (destruct (isNotEmptyString v); [discriminate | reflexivity]);
  (destruct v as [| | | |l| |]; try discriminate;
   destruct l; [reflexivity | discriminate]).
Qed.

Lemma Build_unset (z : gomap) :
  forallb unsetEntry z = true -> BuildAccessGroupCondition z = Ret [].
Proof.
  induction z as [|entry z IH]; [reflexivity|].
  cbn [forallb]. intro H. apply andb_prop in H as [He Hz].
  rewrite Build_cons, (buildCondition_unset entry He), (IH Hz). reflexivity.
Qed.

(** X25. The entries of a schema block that are not set (a flag that is
    not true, an empty common_name or auth_method, an empty list under any
    other key) build no rule and cause no panic: wherever the map iteration
    visits them, the conditions built are those of the other entries. *)
Theorem unset_entries_build_nothing (m1 z m2 : gomap) :
  forallb unsetEntry z = true ->
  BuildAccessGroupCondition (m1 ++ z ++ m2) = BuildAccessGroupCondition (m1 ++ m2).
Proof.
  intro H. rewrite !Build_app, (Build_unset z H). cbn [bind app].
  destruct (BuildAccessGroupCondition m1) as [a|]; [|reflexivity]. cbn [bind].
  destruct (BuildAccessGroupCondition m2) as [b|]; reflexivity.
Qed.

Lemma unset_entries_build_nothing_witness :
  BuildAccessGroupCondition
    ([("email", stringList ["a@x.com"])]
     ++ [("everyone", VBool false); ("common_name", VString ""); ("okta", VSlice []);
         ("ip", VSlice [])]
     ++ [("geo", stringList ["NL"])])
  = BuildAccessGroupCondition
      ([("email", stringList ["a@x.com"])] ++ [("geo", stringList ["NL"])]).
Proof.
  apply unset_entries_build_nothing. reflexivity.
Defined.

(* ================================================================= *)
(** ** The resource ID after a create *)

Section GroupCreate.

Variable Sprintf : string -> list string -> string.
Variable dSet : string -> value -> ResourceData -> ResourceData * option goerror.
Variable initIdentifier : ResourceData -> reply AccessIdentifier.

Hypothesis dSet_keeps_id : forall key v d, Id (fst (dSet key v d)) = Id d.


End GroupCreate.

